(** * Bounded-concurrency task processor (app.js, taskStorage.js)

    A shallow embedding of the asynchronous processing system of
    "Node.js Profesional / Event Loop y Programacion Asincrona - Dia 1":
    the admission controller [ConcurrencyManager], the [CircuitBreaker],
    the task store of taskStorage.js and the [AsyncProcessingSystem] that
    ties them together.

    JavaScript runs these classes on one thread: a method body runs to its
    first [await] without interruption.  Each such uninterrupted stretch is
    one function of the model; what the source reads from its environment
    ([Date.now()], [Math.random()], the outcome of the awaited operation)
    is passed in as an argument. *)

From Stdlib Require Import String ZArith QArith Bool Lia List.
From Stdlib Require Import Sorting.Sorted Sorting.Permutation.
Import ListNotations.

Local Close Scope Q_scope.
Local Open Scope Z_scope.

(** ** JavaScript values and built-ins used by the source *)

(** An [Error] object; the source tells errors apart by their message. *)
Record Error := { message : string }.

Definition QueueFull : Error := {| message := "Task queue limit reached" |}.
Definition CircuitOpen : Error := {| message := "Circuit breaker is OPEN" |}.
Definition ExternalServiceError : Error :=
  {| message := "External service error" |}.

Module JS.

(** [x || d] on a numeric option: [undefined] and [0] are falsy. *)
Definition or_default (x : option Z) (d : Z) : Z :=
  match x with
  | Some v => if v =? 0 then d else v
  | None => d
  end.

(** A default parameter [f(x = d)]: only [undefined] takes the default. *)
Definition param_default (x : option Z) (d : Z) : Z :=
  match x with
  | Some v => v
  | None => d
  end.

Section Sort.
Variable A : Type.
(** The comparator of [Array.prototype.sort]: a negative or zero result
    keeps the first argument in front, a positive one moves the second
    argument in front. *)
Variable cmp : A -> A -> Z.

Fixpoint insert (x : A) (l : list A) : list A :=
  match l with
  | [] => [x]
  | y :: l' => if cmp x y <=? 0 then x :: l else y :: insert x l'
  end.

(** [Array.prototype.sort] is a stable sort (ECMAScript 2019); for a
    comparator that is a total preorder its result is determined, and
    it is the one computed by this stable insertion sort. *)
Fixpoint sort (l : list A) : list A :=
  match l with
  | [] => []
  | x :: l' => insert x (sort l')
  end.
End Sort.

Arguments insert {A} cmp x l.
Arguments sort {A} cmp l.

(** The result of [a / b] for integer-valued operands.  A finite quotient
    is kept as the exact rational; the rounding to a double plays no role
    in what is stated about it. *)
Inductive Number :=
| NaN
| Infinity
| NegInfinity
| Finite (q : Q).

Definition div (a b : Z) : Number :=
  if b =? 0 then
    if a =? 0 then NaN else if 0 <? a then Infinity else NegInfinity
  else Finite (Qmake (a * Z.sgn b) (Z.to_pos (Z.abs b))).

End JS.

(** ** ConcurrencyManager (app.js, lines 6-49) *)

Module ConcurrencyManager.

(** What a call of [execute] does before its first suspension. *)
Inductive Admission :=
| Started              (* [_run(fn)] was entered *)
| Enqueued             (* the promise waits in [this.queue] *)
| Rejected (e : Error) (* the call threw *).

Section WithOperation.
(** The operations submitted to the manager. *)
Variable F : Type.

(** An entry of [this.queue].  Its [resolve] and [reject] settle the
    promise handed to the submitter with the outcome of running [fn];
    they carry no information beyond the entry itself. *)
Record QueuedRequest := { fn : F; priority : Z }.

Record t := {
  maxConcurrent : Z;
  queueLimit : Z;
  activeCount : Z;
  queue : list QueuedRequest
}.

Definition new (maxConcurrent queueLimit : Z) : t :=
  {| maxConcurrent := maxConcurrent; queueLimit := queueLimit;
     activeCount := 0; queue := [] |}.

Definition with_activeCount (m : t) (n : Z) : t :=
  {| maxConcurrent := maxConcurrent m; queueLimit := queueLimit m;
     activeCount := n; queue := queue m |}.

Definition with_queue (m : t) (q : list QueuedRequest) : t :=
  {| maxConcurrent := maxConcurrent m; queueLimit := queueLimit m;
     activeCount := activeCount m; queue := q |}.

(** [(a, b) => b.priority - a.priority] *)
Definition by_priority (a b : QueuedRequest) : Z :=
  priority b - priority a.

(** [_run], up to [await fn()]. *)
Definition _run_enter (m : t) : t :=
  with_activeCount m (activeCount m + 1).

Definition execute (m : t) (f : F) (p : Z) : t * Admission :=
  if maxConcurrent m <=? activeCount m then
    if queueLimit m <=? Z.of_nat (length (queue m)) then
      (m, Rejected QueueFull)
    else
      (with_queue m
         (JS.sort by_priority
            (queue m ++ [{| fn := f; priority := p |}])),
       Enqueued)
  else (_run_enter m, Started).

(** The [finally] block of [_run]: the slot is given back, and the head
    of the queue, if any, enters [_run] at once.  The operation that is
    started is returned. *)
Definition _run_finally (m : t) : t * option F :=
  let m1 := with_activeCount m (activeCount m - 1) in
  match queue m1 with
  | [] => (m1, None)
  | next :: rest => (_run_enter (with_queue m1 rest), Some (fn next))
  end.

Record Snapshot := {
  s_activeCount : Z;
  s_queueLength : Z;
  s_maxConcurrent : Z;
  s_queueLimit : Z
}.

Definition getMetrics (m : t) : Snapshot :=
  {| s_activeCount := activeCount m;
     s_queueLength := Z.of_nat (length (queue m));
     s_maxConcurrent := maxConcurrent m;
     s_queueLimit := queueLimit m |}.

(** A burst of submissions with no operation finishing in between. *)
Fixpoint submit_all (m : t) (reqs : list (F * Z)) : t * list Admission :=
  match reqs with
  | [] => (m, [])
  | (f, p) :: reqs' =>
      let (m1, a) := execute m f p in
      let (m2, l) := submit_all m1 reqs' in
      (m2, a :: l)
  end.

End WithOperation.

Arguments fn {F} _.
Arguments priority {F} _.
Arguments maxConcurrent {F} _.
Arguments queueLimit {F} _.
Arguments activeCount {F} _.
Arguments queue {F} _.
Arguments with_activeCount {F} m n.
Arguments with_queue {F} m q.
Arguments by_priority {F} a b.
Arguments _run_enter {F} m.
Arguments execute {F} m f p.
Arguments _run_finally {F} m.
Arguments getMetrics {F} m.
Arguments submit_all {F} m reqs.

(** *** Histories of one manager

    The manager is driven by two kinds of events: a caller submits an
    operation, or a running operation settles and its [_run] reaches the
    [finally] block.  Operations are named by their arrival number, so
    that a smaller name means an earlier submission. *)
Inductive Event :=
| Submit (p : Z)
| Finish.

(** One event: the state after it, the next arrival number, and the
    operations that were granted a slot by it. *)
Definition step (m : t nat) (n : nat) (e : Event)
  : t nat * nat * list nat :=
  match e with
  | Submit p =>
      match execute m n p with
      | (m', Started) => (m', S n, [n])
      | (m', _) => (m', S n, [])
      end
  | Finish =>
      (* with nothing running there is no [finally] block to reach *)
      if 0 <? activeCount m then
        match _run_finally m with
        | (m', Some next) => (m', n, [next])
        | (m', None) => (m', n, [])
        end
      else (m, n, [])
  end.

Fixpoint after (m : t nat) (n : nat) (evs : list Event) : t nat * nat :=
  match evs with
  | [] => (m, n)
  | e :: evs' =>
      let '(m', n', _) := step m n e in after m' n' evs'
  end.

(** The operations granted a slot, in the order of the grants. *)
Fixpoint grants (m : t nat) (n : nat) (evs : list Event) : list nat :=
  match evs with
  | [] => []
  | e :: evs' =>
      let '(m', n', g) := step m n e in g ++ grants m' n' evs'
  end.

End ConcurrencyManager.


(** ** CircuitBreaker (app.js, lines 52-91) *)

Module CircuitBreaker.

Inductive State := CLOSED | OPEN | HALF_OPEN.

Record t := {
  failureThreshold : Z;
  recoveryTime : Z;
  failures : Z;
  state : State;
  nextAttempt : Z
}.

(** [constructor(failureThreshold = 5, recoveryTime = 5000)], called at
    time [now]. *)
Definition new (failureThreshold recoveryTime : option Z) (now : Z) : t :=
  {| failureThreshold := JS.param_default failureThreshold 5;
     recoveryTime := JS.param_default recoveryTime 5000;
     failures := 0;
     state := CLOSED;
     nextAttempt := now |}.

Definition with_state (b : t) (s : State) : t :=
  {| failureThreshold := failureThreshold b; recoveryTime := recoveryTime b;
     failures := failures b; state := s; nextAttempt := nextAttempt b |}.

Definition _reset (b : t) : t :=
  {| failureThreshold := failureThreshold b; recoveryTime := recoveryTime b;
     failures := 0; state := CLOSED; nextAttempt := nextAttempt b |}.

(** [_fail], with [now] the value of [Date.now()] read inside it. *)
Definition _fail (b : t) (now : Z) : t :=
  let n := failures b + 1 in
  if failureThreshold b <=? n then
    {| failureThreshold := failureThreshold b;
       recoveryTime := recoveryTime b;
       failures := n; state := OPEN;
       nextAttempt := now + recoveryTime b |}
  else
    {| failureThreshold := failureThreshold b;
       recoveryTime := recoveryTime b;
       failures := n; state := state b;
       nextAttempt := nextAttempt b |}.

(** The test at the head of [execute] (lines 62-68), at time [now]: the
    breaker with which the operation is called, or the error thrown. *)
Definition guard (b : t) (now : Z) : t + Error :=
  match state b with
  | OPEN =>
      if nextAttempt b <? now then inl (with_state b HALF_OPEN)
      else inr CircuitOpen
  | _ => inl b
  end.

Section Execute.
(** The wrapped operation acts on a world [W], which is how a call of it
    can be observed, and returns a result or throws. *)
Variable W : Type.
Variable R : Type.

Definition Operation := W -> (R + Error) * W.

(** [execute(fn)], called at time [now], when nothing else touches the
    breaker while [fn] is awaited; [now'] is the time at which a failure
    of [fn] is recorded. *)
Definition execute (b : t) (now now' : Z) (op : Operation) (w : W)
  : t * W * (R + Error) :=
  match guard b now with
  | inr e => (b, w, inr e)
  | inl b1 =>
      match op w with
      | (inl r, w') => (_reset b1, w', inl r)
      | (inr err, w') => (_fail b1 now', w', inr err)
      end
  end.

(** A call: when it is made, when its failure would be recorded, and the
    operation it wraps. *)
Record Call := { at_time : Z; fail_time : Z; operation : Operation }.

(** Calls made one after the other. *)
Fixpoint execute_all (b : t) (w : W) (calls : list Call) : t * W :=
  match calls with
  | [] => (b, w)
  | c :: calls' =>
      let '(b', w', _) :=
        execute b (at_time c) (fail_time c) (operation c) w in
      execute_all b' w' calls'
  end.

(** An operation that throws whenever it is called. *)
Definition always_fails (op : Operation) : Prop :=
  forall w, exists e w', op w = (inr e, w').

End Execute.

Arguments execute {W R} b now now' op w.
Arguments at_time {W R} _.
Arguments fail_time {W R} _.
Arguments operation {W R} _.
Arguments execute_all {W R} b w calls.
Arguments always_fails {W R} op.

(** The breakers a program can hold: built by the constructor and changed
    by the three places of [execute] that write to it, in any order (calls
    that overlap in time included). *)
Inductive reachable : t -> Prop :=
| reach_new : forall th rt now, reachable (new th rt now)
| reach_guard : forall b now b',
    reachable b -> guard b now = inl b' -> reachable b'
| reach_reset : forall b, reachable b -> reachable (_reset b)
| reach_fail : forall b now, reachable b -> reachable (_fail b now).

End CircuitBreaker.

(** ** The task store (taskStorage.js) *)

Module TaskStorage.

Record PendingTask := {
  taskId : string;
  taskData : string;  (* the payload, as its JSON text *)
  priority : Z
}.

(** What [console.log] and [console.error] are given. *)
Inductive LogEntry :=
| ErrorLoadingTasks
| ErrorSavingTasks
| Recovering (count : nat)
| RecoveryFailed (taskId : string) (error : string).

(** pendingTasks.json *)
Inductive File :=
| Missing
| Unreadable                       (* reading or parsing it throws *)
| Stored (tasks : list PendingTask).

Record Disk := { file : File; writable : bool }.

Definition loadTasks (d : Disk) : list PendingTask * list LogEntry :=
  match file d with
  | Missing => ([], [])
  | Unreadable => ([], [ErrorLoadingTasks])
  | Stored tasks => (tasks, [])
  end.

Definition saveTasks (d : Disk) (tasks : list PendingTask)
  : Disk * list LogEntry :=
  if writable d then ({| file := Stored tasks; writable := true |}, [])
  else (d, [ErrorSavingTasks]).

End TaskStorage.

(** ** AsyncProcessingSystem (app.js, lines 93-224) *)

Module AsyncProcessingSystem.

Import TaskStorage.

(** The [options] object handed to the constructor; a field that is not
    set is [undefined]. *)
Record Options := {
  opt_maxConcurrent : option Z;
  opt_queueLimit : option Z;
  opt_failureThreshold : option Z;
  opt_recoveryTime : option Z
}.

(** [{}], which is also what an omitted argument stands for. *)
Definition no_options : Options :=
  {| opt_maxConcurrent := None; opt_queueLimit := None;
     opt_failureThreshold := None; opt_recoveryTime := None |}.

(** [avgLatency] is kept as an exact rational; nothing below depends on
    how a double rounds it. *)
Record Metrics := {
  totalProcessed : Z;
  totalErrors : Z;
  avgLatency : Q;
  startTime : Z
}.

Record TaskResult := {
  r_taskId : string;
  processedData : string;
  timestamp : string
}.

Inductive Emitted :=
| taskQueued (taskId taskData : string) (priority : Z)
| taskCompleted (taskId : string) (result : TaskResult)
| taskFailed (taskId : string) (error : string).

(** The closure [() => this.executeTask(taskId, taskData)] that
    [processTask] hands to the manager. *)
Record TaskFn := { fn_taskId : string; fn_taskData : string }.

(** The object, together with what it acts on: the file of the store, the
    events emitted so far and the console. *)
Record t := {
  concurrencyManager : ConcurrencyManager.t TaskFn;
  circuitBreaker : CircuitBreaker.t;
  isProcessing : bool;
  metrics : Metrics;
  pendingTasks : list PendingTask;
  disk : Disk;
  emitted : list Emitted;
  console : list LogEntry
}.

Definition with_concurrencyManager (s : t) (m : ConcurrencyManager.t TaskFn)
  : t :=
  {| concurrencyManager := m; circuitBreaker := circuitBreaker s;
     isProcessing := isProcessing s; metrics := metrics s;
     pendingTasks := pendingTasks s; disk := disk s;
     emitted := emitted s; console := console s |}.

Definition with_circuitBreaker (s : t) (b : CircuitBreaker.t) : t :=
  {| concurrencyManager := concurrencyManager s; circuitBreaker := b;
     isProcessing := isProcessing s; metrics := metrics s;
     pendingTasks := pendingTasks s; disk := disk s;
     emitted := emitted s; console := console s |}.

Definition with_metrics (s : t) (m : Metrics) : t :=
  {| concurrencyManager := concurrencyManager s;
     circuitBreaker := circuitBreaker s;
     isProcessing := isProcessing s; metrics := m;
     pendingTasks := pendingTasks s; disk := disk s;
     emitted := emitted s; console := console s |}.

(** [this.pendingTasks = tasks; saveTasks(this.pendingTasks)] *)
Definition store (s : t) (tasks : list PendingTask) : t :=
  let (d, log) := saveTasks (disk s) tasks in
  {| concurrencyManager := concurrencyManager s;
     circuitBreaker := circuitBreaker s;
     isProcessing := isProcessing s; metrics := metrics s;
     pendingTasks := tasks; disk := d;
     emitted := emitted s; console := console s ++ log |}.

Definition emit (s : t) (e : Emitted) : t :=
  {| concurrencyManager := concurrencyManager s;
     circuitBreaker := circuitBreaker s;
     isProcessing := isProcessing s; metrics := metrics s;
     pendingTasks := pendingTasks s; disk := disk s;
     emitted := emitted s ++ [e]; console := console s |}.

Definition log (s : t) (l : LogEntry) : t :=
  {| concurrencyManager := concurrencyManager s;
     circuitBreaker := circuitBreaker s;
     isProcessing := isProcessing s; metrics := metrics s;
     pendingTasks := pendingTasks s; disk := disk s;
     emitted := emitted s; console := console s ++ [l] |}.

Definition updateMetrics (s : t) (latency : Q) (success : bool) : t :=
  let m := metrics s in
  let alpha := (1 # 10)%Q in
  with_metrics s
    {| totalProcessed :=
         if success then totalProcessed m + 1 else totalProcessed m;
       totalErrors := if success then totalErrors m else totalErrors m + 1;
       avgLatency := (alpha * latency + (1 - alpha) * avgLatency m)%Q;
       startTime := startTime m |}.

(** What one execution of a task reads from outside: the clock when the
    breaker is consulted and when a failure is recorded, the measured
    latency, whether the simulated service fails
    ([Math.random() < 0.1]), and the time stamp of the result. *)
Record Run := {
  guard_time : Z;
  fail_time : Z;
  latency : Q;
  service_fails : bool;
  stamp : string
}.

(** The operation wrapped by the breaker in [executeTask] (lines
    160-175). *)
Definition service (f : TaskFn) (r : Run)
  : CircuitBreaker.Operation unit TaskResult :=
  fun w =>
    (if service_fails r then inr ExternalServiceError
     else inl {| r_taskId := fn_taskId f;
                 processedData := "Processed: " ++ fn_taskData f;
                 timestamp := stamp r |},
     w).

Definition executeTask (s : t) (f : TaskFn) (r : Run)
  : t * (TaskResult + Error) :=
  let '(b, _, out) :=
    CircuitBreaker.execute (circuitBreaker s) (guard_time r) (fail_time r)
      (service f r) tt in
  let s1 := with_circuitBreaker s b in
  match out with
  | inl res => (updateMetrics s1 (latency r) true, inl res)
  | inr e => (updateMetrics s1 (latency r) false, inr e)
  end.

(** [processTask] up to its [await] (lines 113-130); [taskId] is the
    identifier that line 113 builds from the clock and [Math.random()]. *)
Definition processTask_submit (s : t) (taskId taskData : string)
  (priority : Z) (isRecovered : bool) : t * ConcurrencyManager.Admission :=
  let task :=
    {| TaskStorage.taskId := taskId; TaskStorage.taskData := taskData;
       TaskStorage.priority := priority |} in
  let s1 := if isRecovered then s else store s (pendingTasks s ++ [task]) in
  let s2 := emit s1 (taskQueued taskId taskData priority) in
  let (m, a) :=
    ConcurrencyManager.execute (concurrencyManager s2)
      {| fn_taskId := taskId; fn_taskData := taskData |} priority in
  (with_concurrencyManager s2 m, a).

(** After the [await], when the manager's promise is fulfilled (lines
    132-136). *)
Definition processTask_then (s : t) (taskId : string) (result : TaskResult)
  : t * TaskResult :=
  let s1 :=
    store s
      (filter (fun t => negb (String.eqb (TaskStorage.taskId t) taskId))
         (pendingTasks s)) in
  (emit s1 (taskCompleted taskId result), result).

(** After the [await], when the manager's promise is rejected (lines
    137-140); the error is thrown again. *)
Definition processTask_catch (s : t) (taskId : string) (error : Error)
  : t * Error :=
  (emit s (taskFailed taskId (message error)), error).

(** The [finally] block of the manager's [_run], seen from the system. *)
Definition release (s : t) : t * option TaskFn :=
  let (m, next) :=
    ConcurrencyManager._run_finally (concurrencyManager s) in
  (with_concurrencyManager s m, next).

(** A task that holds a slot runs and settles: [executeTask], then the
    [finally] block of [_run], then the rest of [processTask].  The task
    that is given the freed slot, if any, is returned as well. *)
Definition run_to_completion (s : t) (f : TaskFn) (r : Run)
  : t * (TaskResult + Error) * option TaskFn :=
  let (s1, out) := executeTask s f r in
  let (s2, next) := release s1 in
  match out with
  | inl res =>
      let (s3, v) := processTask_then s2 (fn_taskId f) res in
      (s3, inl v, next)
  | inr e =>
      let (s3, err) := processTask_catch s2 (fn_taskId f) e in
      (s3, inr err, next)
  end.

(** [processTask], when no other task takes a turn before it settles.
    [None] stands for a promise that is still pending: the task waits in
    the queue. *)
Definition processTask (s : t) (taskId taskData : string) (priority : Z)
  (isRecovered : bool) (r : Run)
  : t * option (TaskResult + Error) * option TaskFn :=
  let (s1, a) := processTask_submit s taskId taskData priority isRecovered in
  match a with
  | ConcurrencyManager.Rejected e =>
      let (s2, err) := processTask_catch s1 taskId e in
      (s2, Some (inr err), None)
  | ConcurrencyManager.Enqueued => (s1, None, None)
  | ConcurrencyManager.Started =>
      let '(s2, out, next) :=
        run_to_completion s1
          {| fn_taskId := taskId; fn_taskData := taskData |} r in
      (s2, Some out, next)
  end.

(** One turn of the loop of [recoverTasks]: the record replayed, the
    identifier [processTask] gave to the replay, and what the manager did
    with it. *)
Record Replay := {
  record : PendingTask;
  replay_id : string;
  admission : ConcurrencyManager.Admission
}.

(** The loop of lines 146-152 over the array [tasks]; [gen k] is the
    identifier built by the [k]-th call of [processTask].  A replay does
    not write to the array in its first stretch, so the loop walks the
    array as it was when the loop began. *)
Fixpoint replay_all (s : t) (gen : nat -> string) (k : nat)
  (tasks : list PendingTask) : t * list Replay :=
  match tasks with
  | [] => (s, [])
  | task :: rest =>
      let (s1, a) :=
        processTask_submit s (gen k) (TaskStorage.taskData task)
          (TaskStorage.priority task) true in
      let (s2, l) := replay_all s1 gen (S k) rest in
      (s2, {| record := task; replay_id := gen k; admission := a |} :: l)
  end.

Definition recoverTasks (s : t) (gen : nat -> string) : t * list Replay :=
  let s1 :=
    if (0 <? length (pendingTasks s))%nat
    then log s (Recovering (length (pendingTasks s)))
    else s in
  replay_all s1 gen 0%nat (pendingTasks s1).

(** The handler given to [.catch] in line 147, run when the replay of
    [task] is rejected with [err]; it returns normally. *)
Definition recovery_failed (s : t) (task : PendingTask) (err : Error) : t :=
  log s (RecoveryFailed (TaskStorage.taskId task) (message err)).

(** The constructor, run at time [now] ([now'] for the second reading of
    the clock) over the disk [d]. *)
Definition new (options : Options) (now now' : Z) (d : Disk)
  (gen : nat -> string) : t * list Replay :=
  let (tasks, l) := loadTasks d in
  recoverTasks
    {| concurrencyManager :=
         ConcurrencyManager.new TaskFn
           (JS.or_default (opt_maxConcurrent options) 10)
           (JS.or_default (opt_queueLimit options) 1000);
       circuitBreaker := CircuitBreaker.new None None now;
       isProcessing := false;
       metrics := {| totalProcessed := 0; totalErrors := 0;
                     avgLatency := 0%Q; startTime := now' |};
       pendingTasks := tasks;
       disk := d;
       emitted := [];
       console := l |}
    gen.

Record SystemMetrics := {
  uptime : Z;
  throughput : JS.Number;
  errorRate : JS.Number;
  m_avgLatency : Q;
  concurrency : ConcurrencyManager.Snapshot;
  circuitBreakerState : CircuitBreaker.State
}.

(** [getSystemMetrics], called at time [now].  [totalProcessed / (uptime /
    1000)] is written with the factor moved to the numerator, which leaves
    unchanged whether the quotient is a number. *)
Definition getSystemMetrics (s : t) (now : Z) : SystemMetrics :=
  let up := now - startTime (metrics s) in
  {| uptime := up;
     throughput := JS.div (totalProcessed (metrics s) * 1000) up;
     errorRate :=
       JS.div (totalErrors (metrics s))
         (totalProcessed (metrics s) + totalErrors (metrics s));
     m_avgLatency := avgLatency (metrics s);
     concurrency := ConcurrencyManager.getMetrics (concurrencyManager s);
     circuitBreakerState := CircuitBreaker.state (circuitBreaker s) |}.

End AsyncProcessingSystem.

(** * Vocabulary of the properties *)

Module Spec.

Import ConcurrencyManager.

(** Both bounds of the admission controller. *)
Definition bounded {F} (m : t F) : Prop :=
  activeCount m <= maxConcurrent m /\
  Z.of_nat (length (queue m)) <= queueLimit m.

(** [a] is to be served before [b]: it has the higher priority, or the
    same priority and the earlier arrival. *)
Definition served_before (a b : QueuedRequest nat) : Prop :=
  priority b < priority a \/
  (priority a = priority b /\ (fn a < fn b)%nat).

(** Among requests of one priority, [a] arrived first. *)
Definition arrived_before (a b : QueuedRequest nat) : Prop :=
  priority a = priority b -> (fn a < fn b)%nat.

(** The waiting queue of a history whose next arrival number is [n]. *)
Definition queue_ok (m : t nat) (n : nat) : Prop :=
  StronglySorted served_before (queue m) /\
  Forall (fun r => (fn r < n)%nat) (queue m) /\
  NoDup (map fn (queue m)).

(** What holds of every breaker a program can hold. *)
Definition breaker_ok (b : CircuitBreaker.t) : Prop :=
  0 <= CircuitBreaker.failures b /\
  (CircuitBreaker.state b <> CircuitBreaker.CLOSED ->
   CircuitBreaker.failureThreshold b <= CircuitBreaker.failures b) /\
  (1 <= CircuitBreaker.failureThreshold b ->
   CircuitBreaker.state b = CircuitBreaker.CLOSED ->
   CircuitBreaker.failures b < CircuitBreaker.failureThreshold b).

(** The store holds a record for the task [id]. *)
Definition holds_record (tasks : list TaskStorage.PendingTask)
  (id : string) : Prop :=
  exists t, In t tasks /\ TaskStorage.taskId t = id.

(** An operation that counts its calls and throws. *)
Definition counted_failure : CircuitBreaker.Operation nat unit :=
  fun calls => (inr ExternalServiceError, S calls).

(** A store with one record left by an earlier run of the program. *)
Definition old_task : TaskStorage.PendingTask :=
  {| TaskStorage.taskId := "task_old";
     TaskStorage.taskData := "{}";
     TaskStorage.priority := 0 |}.

Definition old_disk : TaskStorage.Disk :=
  {| TaskStorage.file := TaskStorage.Stored [old_task];
     TaskStorage.writable := true |}.

Definition empty_disk : TaskStorage.Disk :=
  {| TaskStorage.file := TaskStorage.Missing;
     TaskStorage.writable := true |}.

(** A run of a task in which the service answers. *)
Definition good_run : AsyncProcessingSystem.Run :=
  {| AsyncProcessingSystem.guard_time := 10;
     AsyncProcessingSystem.fail_time := 10;
     AsyncProcessingSystem.latency := 700%Q;
     AsyncProcessingSystem.service_fails := false;
     AsyncProcessingSystem.stamp := "2024-01-01T00:00:00.000Z" |}.

(** A run of a task in which the service fails. *)
Definition bad_run : AsyncProcessingSystem.Run :=
  {| AsyncProcessingSystem.guard_time := 10;
     AsyncProcessingSystem.fail_time := 10;
     AsyncProcessingSystem.latency := 700%Q;
     AsyncProcessingSystem.service_fails := true;
     AsyncProcessingSystem.stamp := "2024-01-01T00:00:00.000Z" |}.

End Spec.

(** * Vocabulary of the further properties *)

Module Observed.

Import ConcurrencyManager.

(** The arrival numbers of the submissions of a history that were
    rejected, in order. *)
Fixpoint rejected (m : t nat) (n : nat) (evs : list Event) : list nat :=
  match evs with
  | [] => []
  | e :: evs' =>
      let '(m', n', _) := step m n e in
      match e with
      | Submit p =>
          match snd (execute m n p) with
          | Rejected _ => n :: rejected m' n' evs'
          | _ => rejected m' n' evs'
          end
      | Finish => rejected m' n' evs'
      end
  end.

(** The arrival numbers of the submissions of a history that were not
    rejected, in order. *)
Fixpoint accepted (m : t nat) (n : nat) (evs : list Event) : list nat :=
  match evs with
  | [] => []
  | e :: evs' =>
      let '(m', n', _) := step m n e in
      match e with
      | Submit p =>
          match snd (execute m n p) with
          | Rejected _ => accepted m' n' evs'
          | _ => n :: accepted m' n' evs'
          end
      | Finish => accepted m' n' evs'
      end
  end.

(** How many submissions a history holds. *)
Fixpoint submissions (evs : list Event) : nat :=
  match evs with
  | [] => O
  | Submit _ :: evs' => S (submissions evs')
  | Finish :: evs' => submissions evs'
  end.

(** The world after every operation of [calls] has run, in order. *)
Definition invoke_all {W R : Type} (calls : list (CircuitBreaker.Call W R))
  (w : W) : W :=
  fold_left (fun w c => snd (CircuitBreaker.operation c w)) calls w.

(** What a restart would load is what the system holds in memory. *)
Definition durable (s : AsyncProcessingSystem.t) : Prop :=
  fst (TaskStorage.loadTasks (AsyncProcessingSystem.disk s))
  = AsyncProcessingSystem.pendingTasks s.

(** The requests that [recoverTasks] hands to the manager for the records
    [tasks], the [k]-th of them under the identifier [gen k]. *)
Fixpoint replay_requests (gen : nat -> string) (k : nat)
  (tasks : list TaskStorage.PendingTask)
  : list (AsyncProcessingSystem.TaskFn * Z) :=
  match tasks with
  | [] => []
  | task :: rest =>
      ({| AsyncProcessingSystem.fn_taskId := gen k;
          AsyncProcessingSystem.fn_taskData := TaskStorage.taskData task |},
       TaskStorage.priority task)
      :: replay_requests gen (S k) rest
  end.

(** The same system over another disk. *)
Definition with_disk (s : AsyncProcessingSystem.t) (d : TaskStorage.Disk)
  : AsyncProcessingSystem.t :=
  {| AsyncProcessingSystem.concurrencyManager :=
       AsyncProcessingSystem.concurrencyManager s;
     AsyncProcessingSystem.circuitBreaker :=
       AsyncProcessingSystem.circuitBreaker s;
     AsyncProcessingSystem.isProcessing :=
       AsyncProcessingSystem.isProcessing s;
     AsyncProcessingSystem.metrics := AsyncProcessingSystem.metrics s;
     AsyncProcessingSystem.pendingTasks :=
       AsyncProcessingSystem.pendingTasks s;
     AsyncProcessingSystem.disk := d;
     AsyncProcessingSystem.emitted := AsyncProcessingSystem.emitted s;
     AsyncProcessingSystem.console := AsyncProcessingSystem.console s |}.

(** Two systems that differ at most in their disk and their console. *)
Definition same_memory (s s' : AsyncProcessingSystem.t) : Prop :=
  AsyncProcessingSystem.concurrencyManager s
  = AsyncProcessingSystem.concurrencyManager s' /\
  AsyncProcessingSystem.circuitBreaker s
  = AsyncProcessingSystem.circuitBreaker s' /\
  AsyncProcessingSystem.metrics s = AsyncProcessingSystem.metrics s' /\
  AsyncProcessingSystem.pendingTasks s
  = AsyncProcessingSystem.pendingTasks s' /\
  AsyncProcessingSystem.emitted s = AsyncProcessingSystem.emitted s'.

End Observed.

(** * Calls that overlap

    [CircuitBreaker.execute] and [AsyncProcessingSystem.processTask] above
    take a call from its start to its end in one step.  Between the two
    the source awaits, and other calls take their turn.  Here a call is
    cut at its awaits; each piece runs without interruption, and the
    pieces of different calls follow each other in any order. *)

Module Overlap.

Import TaskStorage AsyncProcessingSystem.

(** *** The breaker *)

(** [CircuitBreaker.execute] up to [await fn()] (lines 62-70): the test,
    and the call of [fn]; or the error thrown by the test. *)
Definition enter {W R : Type} (b : CircuitBreaker.t) (now : Z)
  (op : CircuitBreaker.Operation W R) (w : W)
  : (CircuitBreaker.t * W * (R + Error)) + Error :=
  match CircuitBreaker.guard b now with
  | inl b1 => let (out, w') := op w in inl (b1, w', out)
  | inr e => inr e
  end.

(** [CircuitBreaker.execute] after [await fn()] (lines 71-75), when [fn]
    has settled with [out]: [b] is the breaker as it is at that time,
    [now'] the clock read by [_fail]. *)
Definition settle {R : Type} (b : CircuitBreaker.t) (now' : Z)
  (out : R + Error) : CircuitBreaker.t :=
  match out with
  | inl _ => CircuitBreaker._reset b
  | inr _ => CircuitBreaker._fail b now'
  end.

(** The breaker of a system built at time 0, after five failures in a
    row, the last of them at time 5: OPEN until 5005. *)
Definition tripped : CircuitBreaker.t :=
  fold_left CircuitBreaker._fail [1; 2; 3; 4; 5]
    (CircuitBreaker.new None None 0).

(** What the breaker [b] can have become when a call that began on it
    settles: the calls that overlap with it have written to the breaker
    in between, in any order. *)
Inductive later (b : CircuitBreaker.t) : CircuitBreaker.t -> Prop :=
| later_now : later b b
| later_guard : forall b1 now b2,
    later b b1 -> CircuitBreaker.guard b1 now = inl b2 -> later b b2
| later_reset : forall b1, later b b1 -> later b (CircuitBreaker._reset b1)
| later_fail : forall b1 now,
    later b b1 -> later b (CircuitBreaker._fail b1 now).

(** *** The calls of [processTask] *)

(** Where a call of [processTask] stands. *)
Inductive Phase :=
| Waiting
    (* its request is in the queue of the manager *)
| Running
    (* it holds a slot; the breaker has let it pass and the service is
       awaited *)
| Settled (out : TaskResult + Error)
    (* it holds a slot; [CircuitBreaker.execute] has settled: the
       service answered or failed, or the breaker threw before calling
       it.  The rest of [executeTask] comes next *)
| Leaving (out : TaskResult + Error)
    (* it holds a slot; [executeTask] has settled.  The [finally] block
       of [_run] comes next *)
| Closing (out : TaskResult + Error)
    (* the promise of the manager has settled.  The rest of
       [processTask] comes next *)
| Thrown (e : Error)
    (* a replay: [processTask] has thrown again.  The handler of
       [recoverTasks] comes next *)
| Done (out : TaskResult + Error).

Record Call := {
  c_id : string;
  c_data : string;
  c_priority : Z;
  c_replay_of : option PendingTask;  (* the record, for a replay *)
  c_phase : Phase
}.

(** The system and the calls made so far, in the order they were made. *)
Record Config := { sys : t; calls : list Call }.

Definition holds_slot (ph : Phase) : bool :=
  match ph with
  | Running | Settled _ | Leaving _ => true
  | _ => false
  end.

Definition is_waiting (ph : Phase) : bool :=
  match ph with Waiting => true | _ => false end.

Definition has_left (ph : Phase) : bool :=
  match ph with
  | Closing _ | Thrown _ | Done _ => true
  | _ => false
  end.

Definition is_completed (ph : Phase) : bool :=
  match ph with Done (inl _) => true | _ => false end.

Definition find_call (cs : list Call) (id : string) : option Call :=
  find (fun c => String.eqb (c_id c) id) cs.

Definition with_phase (c : Call) (ph : Phase) : Call :=
  {| c_id := c_id c; c_data := c_data c; c_priority := c_priority c;
     c_replay_of := c_replay_of c; c_phase := ph |}.

Definition set_phase (cs : list Call) (id : string) (ph : Phase)
  : list Call :=
  map (fun c => if String.eqb (c_id c) id then with_phase c ph else c) cs.

(** The closure that a call hands to the manager, and its request. *)
Definition closure_of (c : Call) : TaskFn :=
  {| fn_taskId := c_id c; fn_taskData := c_data c |}.

Definition request_of (c : Call) : ConcurrencyManager.QueuedRequest TaskFn :=
  {| ConcurrencyManager.fn := closure_of c;
     ConcurrencyManager.priority := c_priority c |}.

(** A task is given a slot, at time [now]: [executeTask] up to its
    await, which is the test of the breaker (lines 156-160 and 62-70). *)
Definition grant (s : t) (now : Z) : t * Phase :=
  match CircuitBreaker.guard (circuitBreaker s) now with
  | inl b1 => (with_circuitBreaker s b1, Running)
  | inr e => (s, Settled (inr e))
  end.

(** [processTask] up to its await, under an identifier that no earlier
    call carries. *)
Definition begin (c : Config) (id data : string) (p : Z)
  (replay_of : option PendingTask) (now : Z) : option Config :=
  match find_call (calls c) id with
  | Some _ => None
  | None =>
      let (s1, adm) :=
        processTask_submit (sys c) id data p
          (match replay_of with Some _ => true | None => false end) in
      let (s2, ph) :=
        match adm with
        | ConcurrencyManager.Rejected e => (s1, Closing (inr e))
        | ConcurrencyManager.Enqueued => (s1, Waiting)
        | ConcurrencyManager.Started => grant s1 now
        end in
      Some {| sys := s2;
              calls := calls c ++
                       [{| c_id := id; c_data := data; c_priority := p;
                           c_replay_of := replay_of; c_phase := ph |}] |}
  end.

(** The pieces. *)
Inductive Piece :=
| Begin (id data : string) (p : Z) (now : Z)
    (* a caller calls [processTask(data, p)]; [id] is the identifier of
       line 113, [now] the clock if the breaker is consulted *)
| Replay (id : string) (task : PendingTask) (now : Z)
    (* a turn of the loop of [recoverTasks] *)
| Answer (id : string) (r : Run)
    (* the service of a running call answers or fails, as [r] says: the
       rest of [CircuitBreaker.execute] *)
| Account (id : string) (latency : Q)
    (* the rest of [executeTask] (lines 177-184) *)
| Release (id : string) (now : Z)
    (* the [finally] block of [_run]; the head of the queue, if any, is
       given the slot at once, at time [now] *)
| Close (id : string)
    (* the rest of [processTask] (lines 132-140) *)
| Handle (id : string)
    (* the handler that [recoverTasks] attached (lines 147-151) *).

Definition is_success {R : Type} (out : R + Error) : bool :=
  match out with inl _ => true | inr _ => false end.

(** One piece; [None] when it cannot take place. *)
Definition step (c : Config) (ev : Piece) : option Config :=
  match ev with
  | Begin id data p now => begin c id data p None now
  | Replay id task now =>
      begin c id (taskData task) (priority task) (Some task) now
  | Answer id r =>
      match find_call (calls c) id with
      | Some call =>
          match c_phase call with
          | Running =>
              let out := fst (service (closure_of call) r tt) in
              Some {| sys :=
                        with_circuitBreaker (sys c)
                          (settle (circuitBreaker (sys c)) (fail_time r)
                             out);
                      calls := set_phase (calls c) id (Settled out) |}
          | _ => None
          end
      | None => None
      end
  | Account id latency =>
      match find_call (calls c) id with
      | Some call =>
          match c_phase call with
          | Settled out =>
              Some {| sys := updateMetrics (sys c) latency (is_success out);
                      calls := set_phase (calls c) id (Leaving out) |}
          | _ => None
          end
      | None => None
      end
  | Release id now =>
      match find_call (calls c) id with
      | Some call =>
          match c_phase call with
          | Leaving out =>
              let (s1, next) := release (sys c) in
              let cs1 := set_phase (calls c) id (Closing out) in
              match next with
              | None => Some {| sys := s1; calls := cs1 |}
              | Some f =>
                  let (s2, ph) := grant s1 now in
                  Some {| sys := s2;
                          calls := set_phase cs1 (fn_taskId f) ph |}
              end
          | _ => None
          end
      | None => None
      end
  | Close id =>
      match find_call (calls c) id with
      | Some call =>
          match c_phase call with
          | Closing (inl res) =>
              Some {| sys := fst (processTask_then (sys c) id res);
                      calls := set_phase (calls c) id (Done (inl res)) |}
          | Closing (inr e) =>
              Some {| sys := fst (processTask_catch (sys c) id e);
                      calls :=
                        set_phase (calls c) id
                          (match c_replay_of call with
                           | Some _ => Thrown e
                           | None => Done (inr e)
                           end) |}
          | _ => None
          end
      | None => None
      end
  | Handle id =>
      match find_call (calls c) id with
      | Some call =>
          match c_phase call, c_replay_of call with
          | Thrown e, Some task =>
              Some {| sys := recovery_failed (sys c) task e;
                      calls := set_phase (calls c) id (Done (inr e)) |}
          | _, _ => None
          end
      | None => None
      end
  end.

(** A run of pieces. *)
Fixpoint run (c : Config) (evs : list Piece) : option Config :=
  match evs with
  | [] => Some c
  | ev :: evs' =>
      match step c ev with
      | Some c' => run c' evs'
      | None => None
      end
  end.

(** The pieces other than the first, seen from the call they move: in
    the system [s] the call [x] goes to the phase [ph] and leaves the
    system [s'].  A [Release] that finds a request in the queue moves
    two calls: the one that leaves, and the one that is given the slot. *)
Inductive move (s : t) (x : Call) : Phase -> t -> Prop :=
| move_answer : forall r,
    c_phase x = Running ->
    move s x (Settled (fst (service (closure_of x) r tt)))
      (with_circuitBreaker s
         (settle (circuitBreaker s) (fail_time r)
            (fst (service (closure_of x) r tt))))
| move_account : forall out latency,
    c_phase x = Settled out ->
    move s x (Leaving out) (updateMetrics s latency (is_success out))
| move_leave : forall out,
    c_phase x = Leaving out ->
    move s x (Closing out) (fst (release s))
| move_grant : forall now,
    c_phase x = Waiting ->
    move s x (snd (grant s now)) (fst (grant s now))
| move_complete : forall res,
    c_phase x = Closing (inl res) ->
    move s x (Done (inl res)) (fst (processTask_then s (c_id x) res))
| move_fail : forall e,
    c_phase x = Closing (inr e) ->
    move s x
      (match c_replay_of x with Some _ => Thrown e | None => Done (inr e) end)
      (fst (processTask_catch s (c_id x) e))
| move_handle : forall e task,
    c_phase x = Thrown e -> c_replay_of x = Some task ->
    move s x (Done (inr e)) (recovery_failed s task e).

(** No call yet. *)
Definition start (s : t) : Config := {| sys := s; calls := [] |}.

(** The manager has nothing running and nothing waiting. *)
Definition idle (s : t) : Prop :=
  ConcurrencyManager.activeCount (concurrencyManager s) = 0 /\
  ConcurrencyManager.queue (concurrencyManager s) = [].

(** The pieces of a first submission that no other call interrupts:
    [r] is what its execution reads from outside, [now'] the clock
    should its [finally] block start another task. *)
Definition alone (s : t) (id data : string) (p : Z) (r : Run) (now' : Z)
  : list Piece :=
  Begin id data p (guard_time r) ::
  match snd (processTask_submit s id data p false) with
  | ConcurrencyManager.Rejected _ => [Close id]
  | ConcurrencyManager.Enqueued => []
  | ConcurrencyManager.Started =>
      match CircuitBreaker.guard (circuitBreaker s) (guard_time r) with
      | inl _ => [Answer id r]
      | inr _ => []
      end ++ [Account id (latency r); Release id now'; Close id]
  end.

(** *** What is observed of a run *)

Definition record_of (c : Call) : PendingTask :=
  {| taskId := c_id c; taskData := c_data c; priority := c_priority c |}.

Definition is_first (c : Call) : bool :=
  match c_replay_of c with None => true | Some _ => false end.

(** The records of the first submissions, in the order of the calls. *)
Definition submitted (cs : list Call) : list PendingTask :=
  map record_of (filter is_first cs).

(** A call under the identifier [id] has succeeded. *)
Definition completed (cs : list Call) (id : string) : bool :=
  existsb (fun c => String.eqb (c_id c) id && is_completed (c_phase c)) cs.

Definition event_id (e : Emitted) : string :=
  match e with
  | taskQueued id _ _ => id
  | taskCompleted id _ => id
  | taskFailed id _ => id
  end.

(** The events about the task [id], in the order they were emitted. *)
Definition about (id : string) (l : list Emitted) : list Emitted :=
  filter (fun e => String.eqb (event_id e) id) l.

(** The events of a call, by its phase. *)
Definition events_of (c : Call) : list Emitted :=
  taskQueued (c_id c) (c_data c) (c_priority c) ::
  match c_phase c with
  | Done (inl res) => [taskCompleted (c_id c) res]
  | Done (inr e) | Thrown e => [taskFailed (c_id c) (message e)]
  | _ => []
  end.

(** How many calls are in a phase that [f] selects. *)
Definition count (f : Phase -> bool) (cs : list Call) : nat :=
  length (filter (fun c => f (c_phase c)) cs).

(** The requests of the calls that wait. *)
Definition waiting (cs : list Call)
  : list (ConcurrencyManager.QueuedRequest TaskFn) :=
  map request_of (filter (fun c => is_waiting (c_phase c)) cs).

(** The calls and the manager agree: no two calls under one identifier,
    the queue holds the requests of the calls that wait, and the slots
    taken are those of the calls between their admission and the
    [finally] block of their [_run]. *)
Definition well_formed (c : Config) : Prop :=
  NoDup (map c_id (calls c)) /\
  Permutation
    (ConcurrencyManager.queue (concurrencyManager (sys c)))
    (waiting (calls c)) /\
  ConcurrencyManager.activeCount (concurrencyManager (sys c))
  = Z.of_nat (count holds_slot (calls c)).

(** The lines that the handler of [recoverTasks] has written. *)
Definition recovery_failures (l : list LogEntry) : list LogEntry :=
  filter (fun e => match e with RecoveryFailed _ _ => true | _ => false end)
    l.

(** The line that a call accounts for: one for a replay that has failed
    and whose handler has run, under the identifier of the record. *)
Definition failed_of (c : Call) : list LogEntry :=
  match c_replay_of c, c_phase c with
  | Some task, Done (inr e) => [RecoveryFailed (taskId task) (message e)]
  | _, _ => []
  end.

Definition failed_replays (cs : list Call) : list LogEntry :=
  flat_map failed_of cs.

(** What is observed of a run that began with the system [s0]: the events
    about each task are those of its call; the store holds the records
    found at the start and those of the first submissions, without the
    records under the identifier of a call that has succeeded; the lines
    of the handler of [recoverTasks] are those of the replays that have
    failed. *)
Definition events_agree (s0 : t) (c : Config) : Prop :=
  forall id,
    about id (emitted (sys c)) =
    about id (emitted s0) ++
    match find_call (calls c) id with
    | Some call => events_of call
    | None => []
    end.

Definition store_agrees (s0 : t) (c : Config) : Prop :=
  pendingTasks (sys c) =
  filter (fun t => negb (completed (calls c) (taskId t)))
    (pendingTasks s0 ++ submitted (calls c)).

Definition console_agrees (s0 : t) (c : Config) : Prop :=
  Permutation (recovery_failures (console (sys c)))
    (recovery_failures (console s0) ++ failed_replays (calls c)).

Definition observed (s0 : t) (c : Config) : Prop :=
  events_agree s0 c /\ store_agrees s0 c /\ console_agrees s0 c.

(** The manager of [c] has the bounds of the manager of [s0]. *)
Definition same_bounds (s0 : t) (c : Config) : Prop :=
  ConcurrencyManager.maxConcurrent (concurrencyManager (sys c))
  = ConcurrencyManager.maxConcurrent (concurrencyManager s0) /\
  ConcurrencyManager.queueLimit (concurrencyManager (sys c))
  = ConcurrencyManager.queueLimit (concurrencyManager s0).

(** The file can be written, and holds the store. *)
Definition mirrored (c : Config) : Prop :=
  writable (disk (sys c)) = true /\ Observed.durable (sys c).

(** [recoverTasks] up to its loop (lines 143-145). *)
Definition announced (s : t) : t :=
  if (0 <? length (pendingTasks s))%nat
  then log s (Recovering (length (pendingTasks s)))
  else s.

(** The loop of [recoverTasks] over [tasks] as pieces, the [k]-th replay
    under the identifier [gen k]. *)
Fixpoint replay_pieces (gen : nat -> string) (k : nat) (now : Z)
  (tasks : list PendingTask) : list Piece :=
  match tasks with
  | [] => []
  | task :: rest => Replay (gen k) task now :: replay_pieces gen (S k) now rest
  end.

(** The call that a turn of that loop leaves behind. *)
Definition call_of (x : AsyncProcessingSystem.Replay) : Call :=
  {| c_id := replay_id x;
     c_data := taskData (record x);
     c_priority := priority (record x);
     c_replay_of := Some (record x);
     c_phase :=
       match admission x with
       | ConcurrencyManager.Started => Running
       | ConcurrencyManager.Enqueued => Waiting
       | ConcurrencyManager.Rejected e => Closing (inr e)
       end |}.

(** *** Fixtures *)

(** A system with one slot and one place in the queue, an empty store
    and nothing in flight. *)
Definition one_slot : t :=
  fst (new {| opt_maxConcurrent := Some 1; opt_queueLimit := Some 1;
              opt_failureThreshold := None; opt_recoveryTime := None |}
         0 0 Spec.empty_disk (fun _ => "task_0"%string)).

(** Two calls that overlap: A is given the slot, B waits; the service of
    A answers, A gives the slot to B and closes; the service of B fails
    and B closes. *)
Definition overlapping : list Piece :=
  [ Begin "A" "{}" 0 1; Begin "B" "{}" 0 2;
    Answer "A" Spec.good_run; Account "A" 700%Q; Release "A" 701;
    Close "A";
    Answer "B" Spec.bad_run; Account "B" 650%Q; Release "B" 1400;
    Close "B" ].

(** A system with two slots, and a run of it: five calls in a row fail
    and the breaker is OPEN until 5010; P is let through at 5011 as the
    probe and Q at 5012; the service of Q answers, then the service of P
    fails at 5013. *)
Definition two_slots : t :=
  fst (new {| opt_maxConcurrent := Some 2; opt_queueLimit := Some 1;
              opt_failureThreshold := None; opt_recoveryTime := None |}
         0 0 Spec.empty_disk (fun _ => "task_0"%string)).

Definition failing (id : string) : list Piece :=
  [ Begin id "{}" 0 1; Answer id Spec.bad_run; Account id 700%Q;
    Release id 11; Close id ].

Definition probe_overlapped : list Piece :=
  failing "F1" ++ failing "F2" ++ failing "F3" ++ failing "F4" ++
  failing "F5" ++
  [ Begin "P" "{}" 0 5011; Begin "Q" "{}" 0 5012;
    Answer "Q" Spec.good_run;
    Answer "P" {| guard_time := 5011; fail_time := 5013; latency := 700%Q;
                  service_fails := true; stamp := "" |} ].

(** Three records left by an earlier run of the program. *)
Definition three_records : list PendingTask :=
  [ {| taskId := "old_1"; taskData := "1"; priority := 0 |};
    {| taskId := "old_2"; taskData := "2"; priority := 0 |};
    {| taskId := "old_3"; taskData := "3"; priority := 2 |} ].

Definition numbered (k : nat) : string :=
  match k with
  | O => "new_0"
  | S O => "new_1"
  | S (S O) => "new_2"
  | _ => "new_3"
  end.

(** A system with one slot and one place in the queue, just before its
    constructor calls [recoverTasks]. *)
Definition restarted : t :=
  {| concurrencyManager := ConcurrencyManager.new TaskFn 1 1;
     circuitBreaker := CircuitBreaker.new None None 0;
     isProcessing := false;
     metrics := {| totalProcessed := 0; totalErrors := 0;
                   avgLatency := 0%Q; startTime := 0 |};
     pendingTasks := three_records;
     disk := {| file := Stored three_records; writable := true |};
     emitted := [];
     console := [] |}.

End Overlap.

(** * AdvancedObjectPoolManager
    (Performance Optimization y Profiling - Dia 5,
    AdvancedObjectPoolManager.ts) *)

Module ObjectPool.

(** A JavaScript [Map] with string keys, in insertion order: [set] on a
    key that is present replaces its value where it stands. *)
Fixpoint map_get {V : Type} (m : list (string * V)) (k : string)
  : option V :=
  match m with
  | [] => None
  | (k', v) :: m' => if String.eqb k' k then Some v else map_get m' k
  end.

Fixpoint map_set {V : Type} (m : list (string * V)) (k : string) (v : V)
  : list (string * V) :=
  match m with
  | [] => [(k, v)]
  | (k', v') :: m' =>
      if String.eqb k' k then (k, v) :: m' else (k', v') :: map_set m' k v
  end.

(** [x * 100] for the result of a division. *)
Definition percent (x : JS.Number) : JS.Number :=
  match x with
  | JS.Finite q => JS.Finite (q * 100)%Q
  | other => other
  end.

(** [Array.prototype.pop]: the array without its last element, and that
    element. *)
Definition pop {A : Type} (l : list A) : option (list A * A) :=
  match rev l with
  | [] => None
  | x :: r => Some (rev r, x)
  end.

Definition pool_not_found (name : string) : Error :=
  {| message := "Pool " ++ name ++ " not found" |}.

(** Reading a property of [undefined], and writing one. *)
Definition TypeError_read : Error :=
  {| message := "Cannot read properties of undefined" |}.

Definition TypeError_set : Error :=
  {| message := "Cannot set properties of undefined" |}.

Record Options := { opt_maxSize : option Z; opt_initialSize : option Z }.

Record PoolStats := {
  hitRate : JS.Number;
  memoryEfficiency : JS.Number;
  gcReduction : JS.Number
}.

Section WithObjects.
(** The pooled objects, and the world their factory acts on. *)
Variable Obj : Type.
Variable W : Type.

(** A pool.  [reset] changes the object it is given; it is kept as the
    function from the object to the object after the change. *)
Record Pool := {
  objects : list Obj;
  factory : W -> Obj * W;
  reset : option (Obj -> Obj);
  maxSize : Z;
  created : Z;
  acquired : Z;
  released : Z
}.

Record t := {
  pools : list (string * Pool);
  poolStats : list (string * PoolStats)
}.

Definition new : t := {| pools := []; poolStats := [] |}.

(** The loop of [createPool] (lines 19-22), for [n] more turns. *)
Fixpoint populate (n : nat) (objs : list Obj) (cr : Z)
  (f : W -> Obj * W) (w : W) : list Obj * Z * W :=
  match n with
  | 0%nat => (objs, cr, w)
  | S n' => let (o, w') := f w in populate n' (objs ++ [o]) (cr + 1) f w'
  end.

Definition createPool (m : t) (name : string) (f : W -> Obj * W)
  (rs : option (Obj -> Obj)) (options : Options) (w : W) : t * W :=
  let initialSize := JS.or_default (opt_initialSize options) 10 in
  let '(objs, cr, w') := populate (Z.to_nat initialSize) [] 0 f w in
  ({| pools :=
        map_set (pools m) name
          {| objects := objs; factory := f; reset := rs;
             maxSize := JS.or_default (opt_maxSize options) 100;
             created := cr; acquired := 0; released := 0 |};
      poolStats :=
        map_set (poolStats m) name
          {| hitRate := JS.Finite 0; memoryEfficiency := JS.Finite 0;
             gcReduction := JS.Finite 0 |} |},
   w').

Definition acquireObject (m : t) (poolName : string) (w : W)
  : (Obj + Error) * t * W :=
  match map_get (pools m) poolName with
  | None => (inr (pool_not_found poolName), m, w)
  | Some pool =>
      match pop (objects pool) with
      | Some (rest, obj) =>
          (inl obj,
           {| pools :=
                map_set (pools m) poolName
                  {| objects := rest; factory := factory pool;
                     reset := reset pool; maxSize := maxSize pool;
                     created := created pool;
                     acquired := acquired pool + 1;
                     released := released pool |};
              poolStats := poolStats m |},
           w)
      | None =>
          let (obj, w') := factory pool w in
          (inl obj,
           {| pools :=
                map_set (pools m) poolName
                  {| objects := objects pool; factory := factory pool;
                     reset := reset pool; maxSize := maxSize pool;
                     created := created pool + 1;
                     acquired := acquired pool + 1;
                     released := released pool |};
              poolStats := poolStats m |},
           w')
      end
  end.

Definition updatePoolStats (m : t) (poolName : string) : t + Error :=
  match map_get (pools m) poolName, map_get (poolStats m) poolName with
  | Some pool, Some _ =>
      inl {| pools := pools m;
             poolStats :=
               map_set (poolStats m) poolName
                 {| hitRate :=
                      percent (JS.div (released pool) (acquired pool));
                    memoryEfficiency :=
                      percent
                        (JS.div (Z.of_nat (length (objects pool)))
                           (created pool));
                    gcReduction :=
                      percent
                        (JS.div (released pool - created pool)
                           (released pool)) |} |}
  | Some _, None => inr TypeError_set
  | None, _ => inr TypeError_read
  end.

(** [releaseObject]: the manager afterwards, and the error thrown, if
    any. *)
Definition releaseObject (m : t) (poolName : string) (obj : Obj)
  : t * option Error :=
  match map_get (pools m) poolName with
  | None => (m, None)
  | Some pool =>
      let obj' := match reset pool with Some rs => rs obj | None => obj end in
      let m1 :=
        {| pools :=
             map_set (pools m) poolName
               {| objects :=
                    if Z.of_nat (length (objects pool)) <? maxSize pool
                    then objects pool ++ [obj'] else objects pool;
                  factory := factory pool; reset := reset pool;
                  maxSize := maxSize pool; created := created pool;
                  acquired := acquired pool;
                  released := released pool + 1 |};
           poolStats := poolStats m |} in
      match updatePoolStats m1 poolName with
      | inl m2 => (m2, None)
      | inr e => (m1, Some e)
      end
  end.

Record SystemStats := {
  totalPools : Z;
  totalObjects : Z;
  totalReuse : Z;
  overallEfficiency : JS.Number;
  pool_entries : list (string * PoolStats)
}.

Definition getSystemStats (m : t) : SystemStats :=
  let totalObjects :=
    fold_left (fun acc kv => acc + created (snd kv)) (pools m) 0 in
  let totalReuse :=
    fold_left (fun acc kv => acc + released (snd kv)) (pools m) 0 in
  {| totalPools := Z.of_nat (length (pools m));
     totalObjects := totalObjects;
     totalReuse := totalReuse;
     overallEfficiency := percent (JS.div totalReuse totalObjects);
     pool_entries := poolStats m |}.

(** Every pool has its entry in [poolStats]. *)
Definition consistent (m : t) : Prop :=
  forall name pool,
    map_get (pools m) name = Some pool ->
    map_get (poolStats m) name <> None.

End WithObjects.

Arguments objects {Obj W} _.
Arguments factory {Obj W} _.
Arguments reset {Obj W} _.
Arguments maxSize {Obj W} _.
Arguments created {Obj W} _.
Arguments acquired {Obj W} _.
Arguments released {Obj W} _.
Arguments pools {Obj W} _.
Arguments poolStats {Obj W} _.
Arguments populate {Obj W} n objs cr f w.
Arguments createPool {Obj W} m name f rs options w.
Arguments acquireObject {Obj W} m poolName w.
Arguments updatePoolStats {Obj W} m poolName.
Arguments releaseObject {Obj W} m poolName obj.
Arguments getSystemStats {Obj W} m.
Arguments consistent {Obj W} m.

(** A pool of two numbered objects with room for a third, whose reset
    sets an object to 0. *)
Definition small_pool : t nat nat :=
  fst (createPool (new nat nat) "buffers" (fun w => (w, S w))
         (Some (fun _ => 0%nat))
         {| opt_maxSize := Some 3; opt_initialSize := Some 2 |} 0%nat).

(** A pool created with three objects and a capacity of one. *)
Definition crowded_pool : t nat nat :=
  fst (createPool (new nat nat) "buffers" (fun w => (w, S w)) None
         {| opt_maxSize := Some 1; opt_initialSize := Some 3 |} 0%nat).

End ObjectPool.

(** * The generic processors
    (Generics Avanzados y Variance - Dia 4, src/index.ts and
    src/event.ts) *)

Module Processing.

Record ValidationResult := { isValid : bool; errors : list string }.

Record ProcessingSummary := {
  total : Z;
  successful : Z;
  failed : Z;
  duration : Z
}.

Section WithItems.
Variable T : Type.

Record ProcessingError := { item : T; error : string; code : string }.

Record ProcessingResult := {
  processed : list T;
  failures : list ProcessingError;  (* the field [errors] *)
  summary : ProcessingSummary
}.

(** A validator, a handler or a business rule is a function of the
    caller; it returns, or it throws (a rule or a handler: its promise is
    rejected). *)
Definition Validator := T -> ValidationResult + Error.
Definition Step := T -> T + Error.

(** The inner loop over the handlers, or over the business rules
    ([applyBusinessRules]): each one is given the item the one before
    returned. *)
Fixpoint apply_all (steps : list Step) (x : T) : T + Error :=
  match steps with
  | [] => inl x
  | st :: steps' =>
      match st x with
      | inl x' => apply_all steps' x'
      | inr e => inr e
      end
  end.

Definition validation_error (x : T) (v : ValidationResult)
  : ProcessingError :=
  {| item := x; error := String.concat ", " (errors v);
     code := "VALIDATION_ERROR" |}.

Definition summarize (n : nat) (ok : list T) (bad : list ProcessingError)
  (start finish : Z) : ProcessingResult :=
  {| processed := ok; failures := bad;
     summary := {| total := Z.of_nat n;
                   successful := Z.of_nat (length ok);
                   failed := Z.of_nat (length bad);
                   duration := finish - start |} |}.

(** *** EventProcessor (event.ts, lines 24-64) *)

(** The loop of [process] over the events that are left, with the two
    arrays as they stand.  Nothing is caught: what the validator or a
    handler throws ends the call. *)
Fixpoint event_loop (validator : Validator) (handlers : list Step)
  (events : list T) (ok : list T) (bad : list ProcessingError)
  : (list T * list ProcessingError) + Error :=
  match events with
  | [] => inl (ok, bad)
  | ev :: rest =>
      match validator ev with
      | inr e => inr e
      | inl v =>
          if isValid v then
            match apply_all handlers ev with
            | inl ev' => event_loop validator handlers rest (ok ++ [ev']) bad
            | inr e => inr e
            end
          else
            event_loop validator handlers rest ok
              (bad ++ [validation_error ev v])
      end
  end.

(** [process], started at time [start] and finished at time [finish]. *)
Definition event_process (validator : Validator) (handlers : list Step)
  (events : list T) (start finish : Z) : ProcessingResult + Error :=
  match event_loop validator handlers events [] [] with
  | inl (ok, bad) => inl (summarize (length events) ok bad start finish)
  | inr e => inr e
  end.

(** *** BaseDataProcessor (index.ts, lines 63-146) *)

(** What [validate] looks at in an entity: its [id], and whether
    [createdAt] and [updatedAt] are set. *)
Variable id_of : T -> string.
Variable has_createdAt : T -> bool.
Variable has_updatedAt : T -> bool.

Definition validate (validator : Validator) (x : T)
  : ValidationResult + Error :=
  let errs :=
    (if String.eqb (id_of x) "" then ["ID is required"%string] else [])
    ++ (if has_createdAt x then [] else ["Created date is required"%string])
    ++ (if has_updatedAt x then []
        else ["Updated date is required"%string]) in
  match validator x with
  | inr e => inr e
  | inl custom =>
      let errs' := if isValid custom then errs else errs ++ errors custom in
      inl {| isValid := (length errs' =? 0)%nat; errors := errs' |}
  end.

Definition processing_error (x : T) (e : Error) : ProcessingError :=
  {| item := x; error := message e; code := "PROCESSING_ERROR" |}.

(** The loop of [process]; whatever is thrown inside a turn is caught
    and reported for the item of that turn. *)
Fixpoint data_loop (validator : Validator) (rules : list Step)
  (data : list T) (ok : list T) (bad : list ProcessingError)
  : list T * list ProcessingError :=
  match data with
  | [] => (ok, bad)
  | x :: rest =>
      match validate validator x with
      | inr e =>
          data_loop validator rules rest ok (bad ++ [processing_error x e])
      | inl v =>
          if isValid v then
            match apply_all rules x with
            | inl x' => data_loop validator rules rest (ok ++ [x']) bad
            | inr e =>
                data_loop validator rules rest ok
                  (bad ++ [processing_error x e])
            end
          else
            data_loop validator rules rest ok
              (bad ++ [validation_error x v])
      end
  end.

Definition data_process (validator : Validator) (rules : list Step)
  (data : list T) (start finish : Z) : ProcessingResult :=
  let (ok, bad) := data_loop validator rules data [] [] in
  summarize (length data) ok bad start finish.

(** [transform] *)
Definition transform {U : Type} (data : list T) (transformer : T -> U)
  : list U :=
  map transformer data.

(** The items of a list that pass validation and all the steps, each as
    the steps leave it. *)
Fixpoint survivors (check : T -> ValidationResult + Error)
  (steps : list Step) (data : list T) : list T :=
  match data with
  | [] => []
  | x :: rest =>
      match check x with
      | inl v =>
          if isValid v then
            match apply_all steps x with
            | inl x' => x' :: survivors check steps rest
            | inr _ => survivors check steps rest
            end
          else survivors check steps rest
      | inr _ => survivors check steps rest
      end
  end.

(** The items of a list that do not. *)
Fixpoint casualties (check : T -> ValidationResult + Error)
  (steps : list Step) (data : list T) : list T :=
  match data with
  | [] => []
  | x :: rest =>
      match check x with
      | inl v =>
          if isValid v then
            match apply_all steps x with
            | inl _ => casualties check steps rest
            | inr _ => x :: casualties check steps rest
            end
          else x :: casualties check steps rest
      | inr _ => x :: casualties check steps rest
      end
  end.

End WithItems.

Arguments item {T} _.
Arguments error {T} _.
Arguments code {T} _.
Arguments processed {T} _.
Arguments failures {T} _.
Arguments summary {T} _.
Arguments apply_all {T} steps x.
Arguments validation_error {T} x v.
Arguments processing_error {T} x e.
Arguments summarize {T} n ok bad start finish.
Arguments event_loop {T} validator handlers events ok bad.
Arguments event_process {T} validator handlers events start finish.
Arguments validate {T} id_of has_createdAt has_updatedAt validator x.
Arguments data_loop {T} id_of has_createdAt has_updatedAt validator rules
  data ok bad.
Arguments data_process {T} id_of has_createdAt has_updatedAt validator rules
  data start finish.
Arguments survivors {T} check steps data.
Arguments casualties {T} check steps data.

(** A validator of numbers that refuses 0, and a step that adds one. *)
Definition nonzero : Validator nat :=
  fun n =>
    inl {| isValid := negb (n =? 0)%nat;
           errors := if (n =? 0)%nat then ["zero"%string] else [] |}.

Definition next : Step nat := fun n => inl (S n).

End Processing.

(** * Properties *)

(** ** The sort of the waiting queue *)

Section SortFacts.
Variable A : Type.
Variable cmp : A -> A -> Z.

Lemma insert_In (x y : A) (l : list A) :
  In y (JS.insert cmp x l) <-> y = x \/ In y l.
Proof.
  induction l as [|z l IH]; simpl.
  - intuition.
  - destruct (cmp x z <=? 0); simpl; [intuition|].
    rewrite IH. intuition.
Qed.

Lemma sort_In (y : A) (l : list A) : In y (JS.sort cmp l) <-> In y l.
Proof.
  induction l as [|x l IH]; simpl; [tauto|].
  rewrite insert_In, IH. intuition.
Qed.

Lemma insert_length (x : A) (l : list A) :
  length (JS.insert cmp x l) = S (length l).
Proof.
  induction l as [|z l IH]; simpl; [reflexivity|].
  destruct (cmp x z <=? 0); simpl; congruence.
Qed.

Lemma sort_length (l : list A) : length (JS.sort cmp l) = length l.
Proof.
  induction l as [|x l IH]; simpl; [reflexivity|].
  rewrite insert_length. congruence.
Qed.

Variable B : Type.
Variable key : A -> B.

Lemma insert_NoDup (x : A) (l : list A) :
  NoDup (map key (x :: l)) -> NoDup (map key (JS.insert cmp x l)).
Proof.
  induction l as [|z l IH]; simpl; intros H; [exact H|].
  destruct (cmp x z <=? 0); [exact H|].
  simpl. inversion H as [|? ? Hx Hrest]; subst.
  inversion Hrest as [|? ? Hz Hl]; subst.
  constructor.
  - intros Hin. apply in_map_iff in Hin. destruct Hin as [w [Hw Hin]].
    apply (proj1 (insert_In _ _ _)) in Hin. destruct Hin as [->|Hin].
    + apply Hx. left. congruence.
    + apply Hz. rewrite <- Hw. apply in_map. exact Hin.
  - apply IH. simpl. constructor; [|exact Hl].
    intros Hin. apply Hx. right. exact Hin.
Qed.

Lemma sort_NoDup (l : list A) :
  NoDup (map key l) -> NoDup (map key (JS.sort cmp l)).
Proof.
  induction l as [|x l IH]; simpl; intros H; [exact H|].
  inversion H as [|? ? Hx Hl]; subst.
  apply insert_NoDup. simpl. constructor; [|auto].
  intros Hin. apply Hx. apply in_map_iff in Hin.
  destruct Hin as [w [Hw Hin]]. apply (proj1 (sort_In _ _)) in Hin.
  rewrite <- Hw. apply in_map. exact Hin.
Qed.

End SortFacts.

(** ** The admission controller: bounds and admission *)

Section AdmissionFacts.
Import ConcurrencyManager.
Variable F : Type.
Implicit Types (m : t F) (f : F) (p : Z).

Lemma execute_cases m f p :
  (activeCount m < maxConcurrent m /\
   execute m f p = (_run_enter m, Started)) \/
  (maxConcurrent m <= activeCount m /\
   Z.of_nat (length (queue m)) < queueLimit m /\
   execute m f p =
     (with_queue m
        (JS.sort by_priority (queue m ++ [{| fn := f; priority := p |}])),
      Enqueued)) \/
  (maxConcurrent m <= activeCount m /\
   queueLimit m <= Z.of_nat (length (queue m)) /\
   execute m f p = (m, Rejected QueueFull)).
Proof.
  unfold execute.
  destruct (Z.leb_spec (maxConcurrent m) (activeCount m)) as [Ha|Ha].
  - destruct (Z.leb_spec (queueLimit m) (Z.of_nat (length (queue m))))
      as [Hq|Hq].
    + right. right. auto.
    + right. left. auto.
  - left. auto.
Qed.

Lemma enqueued_length m f p :
  length (JS.sort by_priority (queue m ++ [{| fn := f; priority := p |}]))
  = S (length (queue m)).
Proof.
  rewrite sort_length, length_app. simpl. lia.
Qed.

Lemma execute_bounded m f p :
  Spec.bounded m -> Spec.bounded (fst (execute m f p)).
Proof.
  intros [Ha Hq]. unfold Spec.bounded.
  destruct (execute_cases m f p) as [[H ->]|[[H [H' ->]]|[H [H' ->]]]];
    simpl; try rewrite enqueued_length; lia.
Qed.

Lemma finally_bounded m :
  Spec.bounded m -> Spec.bounded (fst (_run_finally m)).
Proof.
  intros [Ha Hq]. unfold Spec.bounded, _run_finally.
  destruct m as [mc ql ac q]. cbn [queue with_activeCount] in *.
  destruct q as [|next rest]; cbn [fst length] in *;
    unfold _run_enter, with_queue, with_activeCount;
    cbn [activeCount maxConcurrent queueLimit queue length] in *; lia.
Qed.

Lemma finally_keeps_count m next :
  snd (_run_finally m) = Some next ->
  activeCount (fst (_run_finally m)) = activeCount m /\
  exists r, queue m = r :: queue (fst (_run_finally m)) /\ fn r = next.
Proof.
  unfold _run_finally. simpl.
  destruct (queue m) as [|r rest] eqn:E; simpl; [discriminate|].
  intros H. injection H as <-. split; [lia|]. exists r. auto.
Qed.

Lemma submit_all_started m reqs :
  Z.of_nat (length reqs) <= maxConcurrent m - activeCount m ->
  submit_all m reqs =
    (with_activeCount m (activeCount m + Z.of_nat (length reqs)),
     repeat Started (length reqs)).
Proof.
  revert m. induction reqs as [|[f p] reqs IH]; intros m H.
  - simpl. destruct m; unfold with_activeCount; simpl.
    rewrite Z.add_0_r. reflexivity.
  - cbn [submit_all]. cbn [length] in H.
    destruct (execute_cases m f p) as [[Hc ->]|[[Hc _]|[Hc _]]];
      try lia.
    rewrite IH by (simpl; lia).
    cbn [length]. rewrite Nat2Z.inj_succ.
    unfold with_activeCount, _run_enter. simpl.
    f_equal. f_equal. lia.
Qed.

Lemma submit_all_enqueued m reqs :
  maxConcurrent m <= activeCount m ->
  Z.of_nat (length (queue m) + length reqs) <= queueLimit m ->
  exists q,
    submit_all m reqs = (with_queue m q, repeat Enqueued (length reqs)) /\
    length q = (length (queue m) + length reqs)%nat.
Proof.
  revert m. induction reqs as [|[f p] reqs IH]; intros m Ha Hq.
  - exists (queue m). simpl. split; [destruct m; reflexivity|lia].
  - cbn [submit_all]. cbn [length] in Hq.
    destruct (execute_cases m f p) as [[Hc _]|[[_ [_ ->]]|[_ [Hc _]]]];
      try lia.
    set (q1 := JS.sort by_priority
                 (queue m ++ [{| fn := f; priority := p |}])).
    assert (L1 : length q1 = S (length (queue m)))
      by apply enqueued_length.
    destruct (IH (with_queue m q1)) as [q [E L]]; simpl; try lia.
    exists q. rewrite E. simpl in L. split; [reflexivity|lia].
Qed.

Lemma submit_all_app m reqs1 reqs2 :
  submit_all m (reqs1 ++ reqs2) =
    (fst (submit_all (fst (submit_all m reqs1)) reqs2),
     snd (submit_all m reqs1) ++
     snd (submit_all (fst (submit_all m reqs1)) reqs2)).
Proof.
  revert m. induction reqs1 as [|[f p] reqs1 IH]; intros m; simpl.
  - destruct (submit_all m reqs2); reflexivity.
  - destruct (execute m f p) as [m1 a]. rewrite IH.
    destruct (submit_all m1 reqs1) as [m2 l]. simpl.
    reflexivity.
Qed.

(** With [C] slots and room for [Q] waiters, a burst of [C + Q + 1]
    submissions starts [C] operations, enqueues [Q] and rejects the last
    one. *)
Lemma burst_outcome (C Q : nat) (running waiting : list (F * Z))
  (last : F * Z) :
  length running = C -> length waiting = Q ->
  snd (submit_all (new F (Z.of_nat C) (Z.of_nat Q))
         (running ++ waiting ++ [last]))
  = repeat Started C ++ repeat Enqueued Q ++ [Rejected QueueFull].
Proof.
  intros HC HQ.
  rewrite submit_all_app.
  rewrite (submit_all_started (new F (Z.of_nat C) (Z.of_nat Q)) running)
    by (simpl; lia).
  cbn [fst snd]. rewrite HC. f_equal.
  rewrite submit_all_app.
  set (m1 := with_activeCount _ _).
  destruct (submit_all_enqueued m1 waiting) as [q [E L]];
    [simpl; lia | simpl; lia |].
  rewrite E. cbn [fst snd]. rewrite HQ. f_equal.
  destruct last as [f p]. cbn [submit_all].
  destruct (execute_cases (with_queue m1 q) f p)
    as [[Hc _]|[[_ [Hc _]]|[_ [_ ->]]]]; simpl in *; try lia.
  reflexivity.
Qed.

End AdmissionFacts.

(** ** The admission controller: the order of service *)

Lemma NoDup_snoc (A : Type) (l : list A) (x : A) :
  NoDup l -> ~ In x l -> NoDup (l ++ [x]).
Proof.
  induction l as [|y l IH]; simpl; intros Hd Hx.
  - constructor; [simpl; tauto|constructor].
  - inversion Hd as [|? ? Hy Hl]; subst. constructor.
    + rewrite in_app_iff. simpl. intuition congruence.
    + apply IH; tauto.
Qed.

Section OrderFacts.
Import ConcurrencyManager.
Implicit Types (a b x y : QueuedRequest nat) (q : list (QueuedRequest nat)).

Lemma served_before_irrefl a : ~ Spec.served_before a a.
Proof. unfold Spec.served_before. lia. Qed.

Lemma served_before_asym a b :
  Spec.served_before a b -> ~ Spec.served_before b a.
Proof. unfold Spec.served_before. lia. Qed.

(** Putting [x] into a queue in service order keeps it so, when [x]
    arrived before every entry of its own priority. *)
Lemma insert_ordered x q :
  StronglySorted Spec.served_before q ->
  Forall (Spec.arrived_before x) q ->
  StronglySorted Spec.served_before (JS.insert by_priority x q).
Proof.
  induction q as [|y q IH]; intros Hs Hx; simpl.
  - constructor; constructor.
  - inversion Hs as [|? ? Hq Hy]; subst.
    inversion Hx as [|? ? Hxy Hxq]; subst.
    unfold by_priority at 1.
    destruct (Z.leb_spec (priority y - priority x) 0) as [Hle|Hgt].
    + constructor; [exact Hs|].
      assert (Hfirst : Spec.served_before x y).
      { unfold Spec.served_before, Spec.arrived_before in *. lia. }
      constructor; [exact Hfirst|].
      rewrite Forall_forall in *. intros z Hz.
      specialize (Hy z Hz). specialize (Hxq z Hz).
      unfold Spec.served_before, Spec.arrived_before in *. lia.
    + constructor; [apply IH; assumption|].
      rewrite Forall_forall in *. intros z Hz.
      apply (proj1 (insert_In _ _ _ _ _)) in Hz. destruct Hz as [->|Hz].
      * unfold Spec.served_before. lia.
      * apply Hy. exact Hz.
Qed.

(** A stable sort by priority puts a list in service order, when equal
    priorities stand in it in the order of arrival. *)
Lemma sort_ordered q :
  StronglySorted Spec.arrived_before q ->
  StronglySorted Spec.served_before (JS.sort by_priority q).
Proof.
  induction q as [|x q IH]; intros Hs; simpl.
  - constructor.
  - inversion Hs as [|? ? Hq Hx]; subst.
    apply insert_ordered; [auto|].
    rewrite Forall_forall in *. intros z Hz.
    apply Hx. apply (proj1 (sort_In _ by_priority z q)). exact Hz.
Qed.

Lemma push_arrival_order q x :
  StronglySorted Spec.served_before q ->
  Forall (fun r => (fn r < fn x)%nat) q ->
  StronglySorted Spec.arrived_before (q ++ [x]).
Proof.
  induction q as [|y q IH]; intros Hs Hx; simpl.
  - constructor; constructor.
  - inversion Hs as [|? ? Hq Hy]; subst.
    inversion Hx as [|? ? Hyx Hqx]; subst.
    constructor; [auto|].
    rewrite Forall_forall in *. intros z Hz.
    apply in_app_or in Hz. destruct Hz as [Hz|[<-|[]]].
    + specialize (Hy z Hz).
      unfold Spec.served_before, Spec.arrived_before in *. lia.
    + unfold Spec.arrived_before. lia.
Qed.

(** The queue stays in service order along a history. *)
Lemma step_queue_ok (m : t nat) n e :
  Spec.queue_ok m n ->
  Spec.queue_ok (fst (fst (step m n e))) (snd (fst (step m n e))).
Proof.
  intros (Hs & Hn & Hd). destruct e as [p|]; unfold step.
  - destruct (execute_cases nat m n p)
      as [[_ ->]|[[_ [_ ->]]|[_ [_ ->]]]]; cbn [fst snd].
    + repeat split; auto.
      eapply Forall_impl; [|exact Hn]. simpl. intros; lia.
    + unfold Spec.queue_ok. cbn [queue with_queue].
      set (x := {| fn := n; priority := p |}).
      repeat split.
      * apply sort_ordered. apply push_arrival_order; auto.
      * rewrite Forall_forall in *. intros z Hz.
        apply (proj1 (sort_In _ _ _ _)) in Hz.
        apply in_app_or in Hz. destruct Hz as [Hz|[<-|[]]].
        -- specialize (Hn z Hz). lia.
        -- simpl. lia.
      * apply sort_NoDup. rewrite map_app. simpl.
        apply NoDup_snoc; [exact Hd|].
        intros Hin. apply in_map_iff in Hin.
        destruct Hin as [w [Hw Hin]].
        rewrite Forall_forall in Hn. specialize (Hn w Hin). lia.
    + repeat split; auto.
      eapply Forall_impl; [|exact Hn]. simpl. intros; lia.
  - destruct (0 <? activeCount m); [|repeat split; auto].
    unfold _run_finally. cbn [queue with_activeCount].
    destruct (queue m) as [|h tl] eqn:E; cbn [fst snd].
    + unfold Spec.queue_ok. cbn [queue with_activeCount].
      rewrite E. repeat split; auto.
    + unfold Spec.queue_ok. cbn [queue _run_enter with_activeCount with_queue].
      inversion Hs; inversion Hn; inversion Hd; subst.
      repeat split; auto.
Qed.

Lemma after_queue_ok evs : forall (m : t nat) n,
  Spec.queue_ok m n ->
  Spec.queue_ok (fst (after m n evs)) (snd (after m n evs)).
Proof.
  induction evs as [|e evs IH]; intros m n H; simpl; [exact H|].
  pose proof (step_queue_ok m n e H) as H1.
  destruct (step m n e) as [[m' n'] g]. apply IH. exact H1.
Qed.

Lemma new_queue_ok C Q : Spec.queue_ok (new nat C Q) 0.
Proof.
  repeat split; simpl; constructor.
Qed.

(** Two requests wait in a queue in service order: the one to be served
    first is granted its slot first, whatever happens next. *)
Lemma grants_in_service_order evs : forall (m : t nat) n a b,
  Spec.queue_ok m n ->
  In a (queue m) -> In b (queue m) -> Spec.served_before a b ->
  forall l1 l2, grants m n evs = l1 ++ fn b :: l2 -> In (fn a) l1.
Proof.
  induction evs as [|e evs IH]; intros m n a b Hok Ha Hb Hab l1 l2 Hg.
  - simpl in Hg. destruct l1; discriminate.
  - cbn [grants] in Hg.
    pose proof (step_queue_ok m n e Hok) as Hok'.
    destruct Hok as (Hs & Hn & Hd).
    assert (Hbn : (fn b < n)%nat).
    { rewrite Forall_forall in Hn. apply Hn. exact Hb. }
    destruct e as [p|]; unfold step in *.
    + destruct (execute_cases nat m n p)
        as [[_ E]|[[_ [_ E]]|[_ [_ E]]]]; rewrite E in *; cbn [fst snd] in *.
      * destruct l1 as [|g l1]; simpl in Hg; injection Hg as Hh Hg.
        -- lia.
        -- right. eapply IH; eauto.
      * simpl in Hg. eapply IH; eauto; cbn [queue with_queue];
          apply (proj2 (sort_In _ _ _ _)); apply in_or_app; auto.
      * simpl in Hg. eapply IH; eauto.
    + destruct (0 <? activeCount m); [|simpl in Hg; eapply IH; eauto].
      unfold _run_finally in *. cbn [queue with_activeCount] in *.
      destruct (queue m) as [|h tl] eqn:E; [destruct Ha|].
      cbn [fst snd] in *.
      inversion Hs as [|? ? Htl Hh]; subst.
      inversion Hd as [|? ? Hnotin Hdtl]; subst.
      rewrite Forall_forall in Hh.
      assert (Hfresh : forall c, In c tl -> fn c <> fn h).
      { intros c Hc Heq. apply Hnotin. rewrite <- Heq.
        apply in_map. exact Hc. }
      destruct l1 as [|g l1]; simpl in Hg; injection Hg as Hh' Hg.
      * destruct Hb as [<-|Hb].
        -- destruct Ha as [<-|Ha].
           ++ exfalso. eapply served_before_irrefl; eauto.
           ++ exfalso. eapply served_before_asym; eauto.
        -- exfalso. eapply Hfresh; eauto.
      * subst g. destruct Ha as [<-|Ha]; [left; reflexivity|].
        destruct Hb as [<-|Hb].
        -- exfalso. eapply served_before_asym; eauto.
        -- right. eapply IH; eauto.
Qed.

End OrderFacts.

(** ** The admission controller: the claims *)

Section AdmissionClaims.
Import ConcurrencyManager.

(** C7. A submission is rejected with QueueFull exactly when no slot is
    free and the waiting queue already holds [queueLimit] entries (the
    queue never holds more, which is the hypothesis); no other error
    comes from the controller.  With a free slot the operation starts at
    once; with no free slot and room in the queue the request is enqueued.
    On a fresh controller with [C] slots and room for [Q] waiters, a burst
    of [C + Q + 1] submissions starts [C] operations, enqueues [Q] and
    rejects the last one with QueueFull. *)
Theorem queue_full_iff (F : Type) (m : t F) (f : F) (p : Z) :
  Z.of_nat (length (queue m)) <= queueLimit m ->
  (snd (execute m f p) = Rejected QueueFull <->
   maxConcurrent m <= activeCount m /\
   Z.of_nat (length (queue m)) = queueLimit m) /\
  (forall e, snd (execute m f p) = Rejected e -> e = QueueFull) /\
  (activeCount m < maxConcurrent m ->
   execute m f p = (_run_enter m, Started)) /\
  (maxConcurrent m <= activeCount m ->
   Z.of_nat (length (queue m)) < queueLimit m ->
   snd (execute m f p) = Enqueued /\
   In {| fn := f; priority := p |} (queue (fst (execute m f p))) /\
   activeCount (fst (execute m f p)) = activeCount m) /\
  (forall (C Q : nat) (running waiting : list (F * Z)) (last : F * Z),
     length running = C -> length waiting = Q ->
     snd (submit_all (new F (Z.of_nat C) (Z.of_nat Q))
            (running ++ waiting ++ [last]))
     = repeat Started C ++ repeat Enqueued Q ++ [Rejected QueueFull]).
Proof.
  intros Hinv.
  destruct (execute_cases F m f p)
    as [[Hc E]|[[Hc [Hq E]]|[Hc [Hq E]]]]; rewrite E; cbn [fst snd].
  - repeat split; try discriminate; try lia.
    apply burst_outcome.
  - repeat split; try discriminate; try lia.
    + apply (proj2 (sort_In _ _ _ _)). apply in_or_app. simpl. auto.
    + apply burst_outcome.
  - repeat split; try lia; try congruence.
    apply burst_outcome.
Qed.

Lemma queue_full_iff_witness :
  snd (execute
         {| maxConcurrent := 2; queueLimit := 1; activeCount := 2;
            queue := [{| fn := 2%nat; priority := 5 |}] |} 3%nat 0)
  = Rejected QueueFull.
Proof.
  apply (proj1 (queue_full_iff nat
           {| maxConcurrent := 2; queueLimit := 1; activeCount := 2;
              queue := [{| fn := 2%nat; priority := 5 |}] |} 3%nat 0
           ltac:(simpl; lia))).
  simpl. lia.
Defined.

(** C10. Each operation of the controller keeps both bounds,
    [activeCount <= maxConcurrent] and [queue.length <= queueLimit]: a
    submission and the release of a slot.  A request is enqueued only when
    the queue holds fewer than [queueLimit] entries; an operation is
    started by a submission only when a slot is free, and otherwise only
    by a release, which hands the released slot to the head of the
    queue. *)
Theorem bounds_preserved (F : Type) (m : t F) :
  Spec.bounded m ->
  (forall f p, Spec.bounded (fst (execute m f p))) /\
  Spec.bounded (fst (_run_finally m)) /\
  (forall f p, snd (execute m f p) = Enqueued ->
     Z.of_nat (length (queue m)) < queueLimit m) /\
  (forall f p, snd (execute m f p) = Started ->
     activeCount m < maxConcurrent m) /\
  (forall next, snd (_run_finally m) = Some next ->
     activeCount (fst (_run_finally m)) = activeCount m /\
     exists r, queue m = r :: queue (fst (_run_finally m)) /\ fn r = next).
Proof.
  intros Hb. split; [|split; [|split; [|split]]].
  - intros f p. apply execute_bounded; exact Hb.
  - apply finally_bounded; exact Hb.
  - intros f p.
    destruct (execute_cases F m f p)
      as [[Hc ->]|[[Hc [Hq ->]]|[Hc [Hq ->]]]]; cbn [snd];
      intros; try discriminate; lia.
  - intros f p.
    destruct (execute_cases F m f p)
      as [[Hc ->]|[[Hc [Hq ->]]|[Hc [Hq ->]]]]; cbn [snd];
      intros; try discriminate; lia.
  - apply finally_keeps_count.
Qed.

Lemma bounds_preserved_witness :
  Spec.bounded
    (fst (execute
            {| maxConcurrent := 1; queueLimit := 1; activeCount := 1;
               queue := @nil (QueuedRequest nat) |} 7%nat 3)).
Proof.
  apply (proj1 (bounds_preserved nat
           {| maxConcurrent := 1; queueLimit := 1; activeCount := 1;
              queue := [] |}
           ltac:(unfold Spec.bounded; simpl; lia))).
Defined.

(** Both bounds hold all along a history of a controller built with at
    least one slot and a queue limit that is not negative. *)
Lemma history_bounded (C Q : Z) (evs : list Event) :
  1 <= C -> 0 <= Q -> Spec.bounded (fst (after (new nat C Q) 0 evs)).
Proof.
  intros HC HQ.
  assert (H0 : Spec.bounded (new nat C Q))
    by (unfold Spec.bounded; simpl; lia).
  revert H0. generalize (new nat C Q) as m, 0%nat as n.
  induction evs as [|e evs IH]; intros m n Hb; simpl; [exact Hb|].
  assert (Hstep : Spec.bounded (fst (fst (step m n e)))).
  { destruct e as [p|]; unfold step.
    - pose proof (execute_bounded nat m n p Hb) as H.
      destruct (execute m n p) as [m' [| |e]]; exact H.
    - destruct (0 <? activeCount m); [|exact Hb].
      pose proof (finally_bounded nat m Hb) as H.
      destruct (_run_finally m) as [m' [next|]]; exact H. }
  destruct (step m n e) as [[m' n'] g]. apply IH. exact Hstep.
Qed.

(** C5. Two requests wait in the queue at the same time, after any
    history of a fresh controller.  If the first has the strictly higher
    priority, whichever arrived first, or if both have the same priority
    and the first arrived earlier, then whatever happens next the second
    is not granted a slot before the first: wherever the second appears
    among the grants, the first appears earlier. *)
Theorem priority_then_fifo
  (C Q : Z) (before later : list Event) (m : t nat) (n : nat)
  (a b : QueuedRequest nat) :
  after (new nat C Q) 0 before = (m, n) ->
  In a (queue m) -> In b (queue m) ->
  priority b < priority a \/
  (priority a = priority b /\ (fn a < fn b)%nat) ->
  forall l1 l2, grants m n later = l1 ++ fn b :: l2 -> In (fn a) l1.
Proof.
  intros Hreach Ha Hb Hab.
  pose proof (after_queue_ok before _ _ (new_queue_ok C Q)) as Hok.
  rewrite Hreach in Hok. cbn [fst snd] in Hok.
  apply (grants_in_service_order later m n a b Hok Ha Hb Hab).
Qed.

Lemma priority_then_fifo_witness :
  grants
    (fst (after (new nat 1 2) 0 [Submit 0; Submit 0; Submit 5])) 3
    [Finish; Finish] = [2%nat; 1%nat] /\
  In 2%nat [2%nat].
Proof.
  split; [reflexivity|].
  apply (priority_then_fifo 1 2 [Submit 0; Submit 0; Submit 5]
           [Finish; Finish]
           (fst (after (new nat 1 2) 0 [Submit 0; Submit 0; Submit 5]))
           3%nat
           {| fn := 2%nat; priority := 5 |}
           {| fn := 1%nat; priority := 0 |}
           eq_refl
           (or_introl eq_refl)
           (or_intror (or_introl eq_refl))
           (or_introl eq_refl)
           [2%nat] [] eq_refl).
Defined.

End AdmissionClaims.

(** ** The circuit breaker *)

Section BreakerFacts.
Import CircuitBreaker.
Variable W : Type.
Variable R : Type.
Implicit Types (b : t) (op : Operation W R) (w : W).

Ltac breaker_cases :=
  unfold Spec.breaker_ok, _fail, _reset, with_state in *;
  cbn [failureThreshold recoveryTime failures state nextAttempt] in *;
  repeat match goal with
  | |- context [?x <=? ?y] => destruct (Z.leb_spec x y)
  | |- context [?x <? ?y] => destruct (Z.ltb_spec x y)
  end;
  cbn [failureThreshold recoveryTime failures state nextAttempt] in *.

Lemma guard_cases b now :
  (state b = OPEN /\ now <= nextAttempt b /\ guard b now = inr CircuitOpen) \/
  (state b = OPEN /\ nextAttempt b < now /\
   guard b now = inl (with_state b HALF_OPEN)) \/
  (state b <> OPEN /\ guard b now = inl b).
Proof.
  unfold guard. destruct (state b) eqn:E.
  - right. right. split; [discriminate|reflexivity].
  - destruct (Z.ltb_spec (nextAttempt b) now); [right; left|left]; auto.
  - right. right. split; [discriminate|reflexivity].
Qed.

Lemma reset_ok b : Spec.breaker_ok (_reset b).
Proof. breaker_cases. repeat split; intros; try lia; congruence. Qed.

Lemma fail_ok b now : Spec.breaker_ok b -> Spec.breaker_ok (_fail b now).
Proof.
  intros (H0 & Hopen & Hclosed). breaker_cases.
  - repeat split; intros; try lia; congruence.
  - split; [lia|split].
    + intros Hs. specialize (Hopen Hs). lia.
    + intros; lia.
Qed.

Lemma guard_ok b now b' :
  Spec.breaker_ok b -> guard b now = inl b' -> Spec.breaker_ok b'.
Proof.
  intros Hok Hg.
  destruct (guard_cases b now) as [[_ [_ E]]|[[Ho [_ E]]|[_ E]]];
    rewrite E in Hg; try discriminate; injection Hg as <-; [|exact Hok].
  destruct Hok as (H0 & Hopen & Hclosed). breaker_cases.
  repeat split; intros; try lia; try congruence.
  apply Hopen. congruence.
Qed.

Lemma reachable_ok b : reachable b -> Spec.breaker_ok b.
Proof.
  induction 1 as [th rt now|b now b' _ IH Hg|b _ _|b now _ IH].
  - unfold Spec.breaker_ok, new; simpl.
    repeat split; intros; try lia; congruence.
  - eapply guard_ok; eauto.
  - apply reset_ok.
  - apply fail_ok; exact IH.
Qed.

Lemma execute_reachable b now now' op w :
  reachable b -> reachable (fst (fst (execute b now now' op w))).
Proof.
  intros Hr. unfold execute.
  destruct (guard b now) as [b1|e] eqn:Hg; [|exact Hr].
  assert (Hr1 : reachable b1) by (eapply reach_guard; eauto).
  destruct (op w) as [[r|err] w']; cbn [fst].
  - apply reach_reset; exact Hr1.
  - apply reach_fail; exact Hr1.
Qed.

Lemma execute_threshold b now now' op w :
  failureThreshold (fst (fst (execute b now now' op w)))
  = failureThreshold b.
Proof.
  unfold execute.
  destruct (guard_cases b now) as [[_ [_ E]]|[[_ [_ E]]|[_ E]]];
    rewrite E; [reflexivity| |];
    destruct (op w) as [[r|err] w']; cbn [fst];
    unfold _fail, _reset, with_state; simpl;
    try destruct (_ <=? _); reflexivity.
Qed.

(** A call whose operation throws leaves a sound breaker OPEN, or leaves
    a CLOSED breaker CLOSED with one failure more. *)
Lemma failing_call b now now' op w :
  Spec.breaker_ok b -> always_fails op ->
  let b' := fst (fst (execute b now now' op w)) in
  state b' = OPEN \/
  (state b' = CLOSED /\ state b = CLOSED /\ failures b' = failures b + 1).
Proof.
  intros (H0 & Hopen & Hclosed) Hf. unfold execute.
  destruct (Hf w) as [e [w' Hop]].
  destruct (guard_cases b now) as [[Ho [_ E]]|[[Ho [_ E]]|[Hn E]]];
    rewrite E; cbn [fst].
  - left. exact Ho.
  - rewrite Hop. cbn [fst]. left.
    specialize (Hopen ltac:(congruence)). breaker_cases; [reflexivity|lia].
  - rewrite Hop. cbn [fst].
    destruct (state b) eqn:Es; try congruence.
    + breaker_cases; [left; reflexivity|right].
      rewrite Es. auto.
    + left. specialize (Hopen ltac:(congruence)).
      breaker_cases; [reflexivity|lia].
Qed.

Lemma failing_calls_stay_open (calls : list (Call W R)) : forall b w,
  Spec.breaker_ok b -> state b = OPEN ->
  Forall (fun c => always_fails (operation c)) calls ->
  state (fst (execute_all b w calls)) = OPEN.
Proof.
  induction calls as [|c calls IH]; intros b w Hok Ho Hall;
    cbn [execute_all]; [exact Ho|].
  inversion Hall as [|? ? Hc Hrest]; subst.
  pose proof (failing_call b (at_time c) (fail_time c) (operation c) w
                Hok Hc) as Hstep.
  assert (Hok' : Spec.breaker_ok
            (fst (fst (execute b (at_time c) (fail_time c) (operation c) w)))).
  { unfold execute.
    destruct (guard b (at_time c)) as [b1|e] eqn:Hg; [|exact Hok].
    pose proof (guard_ok _ _ _ Hok Hg).
    destruct (operation c w) as [[r|err] w']; cbn [fst];
      [apply reset_ok|apply fail_ok; assumption]. }
  destruct (execute b (at_time c) (fail_time c) (operation c) w)
    as [[b' w'] out]. cbn [fst] in *.
  apply IH; auto.
  destruct Hstep as [H|[_ [H _]]]; [exact H|congruence].
Qed.

Lemma execute_ok b now now' op w :
  Spec.breaker_ok b ->
  Spec.breaker_ok (fst (fst (execute b now now' op w))).
Proof.
  intros Hok. unfold execute.
  destruct (guard b now) as [b1|e] eqn:Hg; [|exact Hok].
  pose proof (guard_ok _ _ _ Hok Hg).
  destruct (op w) as [[r|err] w']; cbn [fst];
    [apply reset_ok|apply fail_ok; assumption].
Qed.

Lemma execute_all_ok (calls : list (Call W R)) : forall b w,
  Spec.breaker_ok b ->
  Spec.breaker_ok (fst (execute_all b w calls)) /\
  failureThreshold (fst (execute_all b w calls)) = failureThreshold b.
Proof.
  induction calls as [|c calls IH]; intros b w Hok; cbn [execute_all];
    [auto|].
  pose proof (execute_ok b (at_time c) (fail_time c) (operation c) w Hok)
    as Hok'.
  pose proof (execute_threshold b (at_time c) (fail_time c) (operation c) w)
    as Hth.
  destruct (execute b (at_time c) (fail_time c) (operation c) w)
    as [[b' w'] out]. cbn [fst] in *.
  destruct (IH b' w' Hok') as [H1 H2]. split; [exact H1|congruence].
Qed.

(** A run of failing calls: the breaker ends OPEN, or it was CLOSED all
    along and counted every one of them. *)
Lemma failing_calls (calls : list (Call W R)) : forall b w,
  Spec.breaker_ok b -> calls <> [] ->
  Forall (fun c => always_fails (operation c)) calls ->
  let b' := fst (execute_all b w calls) in
  state b' = OPEN \/
  (state b' = CLOSED /\
   failures b' = failures b + Z.of_nat (length calls)).
Proof.
  induction calls as [|c calls IH]; intros b w Hok Hne Hall;
    [congruence|].
  inversion Hall as [|? ? Hc Hrest]; subst.
  cbn [execute_all length].
  pose proof (failing_call b (at_time c) (fail_time c) (operation c) w
                Hok Hc) as Hstep.
  pose proof (execute_ok b (at_time c) (fail_time c) (operation c) w Hok)
    as Hok'.
  destruct (execute b (at_time c) (fail_time c) (operation c) w)
    as [[b1 w1] out]. cbn [fst] in *.
  destruct Hstep as [Ho|(Hc1 & Hc0 & Hf1)].
  - left. apply failing_calls_stay_open; auto.
  - destruct calls as [|c2 calls2].
    + cbn [execute_all fst length]. right. split; [exact Hc1|lia].
    + destruct (IH b1 w1 Hok' ltac:(discriminate) Hrest) as [H|[H1 H2]];
        [left; exact H|right].
      split; [exact H1|]. rewrite H2, Hf1.
      rewrite (Nat2Z.inj_succ (length (c2 :: calls2))). lia.
Qed.

Lemma threshold_failures_open b w (calls : list (Call W R)) :
  Spec.breaker_ok b -> 1 <= failureThreshold b ->
  Forall (fun c => always_fails (operation c)) calls ->
  Z.of_nat (length calls) = failureThreshold b ->
  state (fst (execute_all b w calls)) = OPEN.
Proof.
  intros Hok Hth Hall Hlen.
  assert (Hne : calls <> [])
    by (destruct calls; simpl in *; [lia|discriminate]).
  destruct (failing_calls calls b w Hok Hne Hall) as [H|[Hc Hf]];
    [exact H|exfalso].
  destruct (execute_all_ok calls b w Hok) as [(H0 & _ & Hclosed) Hsame].
  destruct Hok as (Hb0 & _).
  rewrite Hsame in Hclosed. specialize (Hclosed Hth Hc). lia.
Qed.

(** The same without the assumption that calls do not overlap: however
    the calls are interleaved, once [_fail] has run with no [_reset] in
    between as often as it takes the counter to reach the threshold
    ([failureThreshold] times at most, the counter being at least 0), the
    state is OPEN. *)
Lemma fails_in_a_row_open (times : list Z) : forall b,
  times <> [] ->
  failureThreshold b <= failures b + Z.of_nat (length times) ->
  state (fold_left _fail times b) = OPEN /\
  failures (fold_left _fail times b) = failures b + Z.of_nat (length times).
Proof.
  induction times as [|now times IH]; intros b Hne Hlen; [congruence|].
  cbn [fold_left length] in *. rewrite Nat2Z.inj_succ in *.
  assert (Hf : failures (_fail b now) = failures b + 1 /\
               failureThreshold (_fail b now) = failureThreshold b).
  { unfold _fail. destruct (_ <=? _); auto. }
  destruct Hf as [Hf Hth].
  destruct times as [|now2 times2].
  - cbn [fold_left length] in *. unfold _fail.
    destruct (Z.leb_spec (failureThreshold b) (failures b + 1));
      cbn [state failures]; [split; [reflexivity|lia]|lia].
  - destruct (IH (_fail b now)) as [I1 I2];
      [discriminate|rewrite Hth, Hf; lia|].
    split; [exact I1|]. rewrite I2, Hf. lia.
Qed.

Lemma open_rejects b now now' op w :
  state b = OPEN -> now <= nextAttempt b ->
  execute b now now' op w = (b, w, inr CircuitOpen).
Proof.
  intros Ho Hn. unfold execute, guard. rewrite Ho.
  destruct (Z.ltb_spec (nextAttempt b) now); [lia|reflexivity].
Qed.

End BreakerFacts.

Section BreakerClaims.
Import CircuitBreaker.

(** C4. On a breaker with a threshold of at least one, [failureThreshold]
    calls in a row whose operation fails leave the state OPEN.  A call
    made while the breaker is OPEN and the clock has not passed
    [nextAttempt] fails with CircuitOpen; the world of the operation is as
    before, so the operation was not called, and the breaker is as
    before, failure counter included. *)
Theorem open_after_threshold_then_rejects (W R : Type) :
  (forall (b : t) (w : W) (calls : list (Call W R)),
     reachable b -> 1 <= failureThreshold b ->
     Forall (fun c => always_fails (operation c)) calls ->
     Z.of_nat (length calls) = failureThreshold b ->
     state (fst (execute_all b w calls)) = OPEN) /\
  (forall (b : t) (now now' : Z) (op : Operation W R) (w : W),
     state b = OPEN -> now <= nextAttempt b ->
     execute b now now' op w = (b, w, inr CircuitOpen)).
Proof.
  split.
  - intros b w calls Hr. apply threshold_failures_open.
    apply reachable_ok. exact Hr.
  - intros b now now' op w. apply open_rejects.
Qed.

Lemma counted_failure_fails : always_fails Spec.counted_failure.
Proof. intros w. exists ExternalServiceError, (S w). reflexivity. Defined.

Lemma open_after_threshold_then_rejects_witness :
  state
    (fst (execute_all (new (Some 2) (Some 100) 0) 0%nat
            [ {| at_time := 1; fail_time := 2;
                 operation := Spec.counted_failure |};
              {| at_time := 3; fail_time := 4;
                 operation := Spec.counted_failure |} ])) = OPEN /\
  execute
    {| failureThreshold := 2; recoveryTime := 100; failures := 2;
       state := OPEN; nextAttempt := 104 |} 54 55 Spec.counted_failure 2%nat
  = ({| failureThreshold := 2; recoveryTime := 100; failures := 2;
        state := OPEN; nextAttempt := 104 |}, 2%nat, inr CircuitOpen).
Proof.
  split.
  - apply (proj1 (open_after_threshold_then_rejects nat unit)).
    + apply reach_new.
    + simpl. lia.
    + repeat constructor; exact counted_failure_fails.
    + reflexivity.
  - apply (proj2 (open_after_threshold_then_rejects nat unit)).
    + reflexivity.
    + simpl. lia.
Defined.

Lemma guard_fields b now b1 :
  guard b now = inl b1 ->
  failures b1 = failures b /\ recoveryTime b1 = recoveryTime b /\
  failureThreshold b1 = failureThreshold b.
Proof.
  intros Hg.
  destruct (guard_cases b now) as [[_ [_ E]]|[[_ [_ E]]|[_ E]]];
    rewrite E in Hg; try discriminate; injection Hg as <-; auto.
Qed.

(** After the recovery time an OPEN breaker lets the next call through as
    the probe, in state HALF_OPEN. *)
Lemma probe_after_recovery b now :
  state b = OPEN -> nextAttempt b < now ->
  guard b now = inl (with_state b HALF_OPEN).
Proof.
  intros Ho Hn. unfold guard. rewrite Ho.
  destruct (Z.ltb_spec (nextAttempt b) now); [reflexivity|lia].
Qed.

End BreakerClaims.

(** ** The processing system *)

Section SystemFacts.
Import TaskStorage AsyncProcessingSystem.
Implicit Types (s : t) (id data : string) (p : Z) (r : Run).

Lemma holds_record_app tasks tasks' id :
  Spec.holds_record (tasks ++ tasks') id <->
  Spec.holds_record tasks id \/ Spec.holds_record tasks' id.
Proof.
  unfold Spec.holds_record. split.
  - intros [x [Hin Hid]]. apply in_app_or in Hin.
    destruct Hin; [left|right]; exists x; auto.
  - intros [[x [Hin Hid]]|[x [Hin Hid]]]; exists x;
      (split; [apply in_or_app; auto|exact Hid]).
Qed.

(** What a replay changes before it is suspended: one event, and the
    manager. *)
Lemma submit_recovered s id data p :
  let s' := fst (processTask_submit s id data p true) in
  pendingTasks s' = pendingTasks s /\ disk s' = disk s /\
  metrics s' = metrics s /\ circuitBreaker s' = circuitBreaker s /\
  console s' = console s /\
  emitted s' = emitted s ++ [taskQueued id data p] /\
  ConcurrencyManager.maxConcurrent (concurrencyManager s')
  = ConcurrencyManager.maxConcurrent (concurrencyManager s) /\
  ConcurrencyManager.queueLimit (concurrencyManager s')
  = ConcurrencyManager.queueLimit (concurrencyManager s).
Proof.
  unfold processTask_submit. cbn [emit concurrencyManager].
  destruct (execute_cases TaskFn (concurrencyManager s)
              {| fn_taskId := id; fn_taskData := data |} p)
    as [[_ ->]|[[_ [_ ->]]|[_ [_ ->]]]]; cbn; repeat split.
Qed.

(** What a first submission changes before it is suspended: the record is
    added to the store and written to the file. *)
Lemma submit_fresh s id data p :
  let s' := fst (processTask_submit s id data p false) in
  let task := {| taskId := id; taskData := data; priority := p |} in
  pendingTasks s' = pendingTasks s ++ [task] /\
  (writable (disk s) = true ->
   file (disk s') = Stored (pendingTasks s ++ [task])) /\
  emitted s' = emitted s ++ [taskQueued id data p].
Proof.
  unfold processTask_submit, store, saveTasks.
  destruct (writable (disk s)) eqn:Hw; cbn [emit concurrencyManager];
    destruct (execute_cases TaskFn (concurrencyManager s)
                {| fn_taskId := id; fn_taskData := data |} p)
      as [[_ ->]|[[_ [_ ->]]|[_ [_ ->]]]]; cbn; repeat split;
    intros; congruence.
Qed.

Lemma filter_drops_id tasks id :
  ~ Spec.holds_record
      (filter (fun t => negb (String.eqb (taskId t) id)) tasks) id.
Proof.
  intros [x [Hin Hid]]. apply filter_In in Hin. destruct Hin as [_ Hneq].
  rewrite Hid, String.eqb_refl in Hneq. discriminate.
Qed.

Lemma filter_keeps_other tasks id x :
  In x tasks -> taskId x <> id ->
  In x (filter (fun t => negb (String.eqb (taskId t) id)) tasks).
Proof.
  intros Hin Hneq. apply filter_In. split; [exact Hin|].
  apply (proj2 (String.eqb_neq _ _)) in Hneq. rewrite Hneq. reflexivity.
Qed.

(** The success branch of [processTask]: every record carrying the
    identifier of this call leaves the store, the store is written,
    [taskCompleted] is emitted and the result is returned. *)
Lemma then_removes_own_record s id res :
  let s' := fst (processTask_then s id res) in
  ~ Spec.holds_record (pendingTasks s') id /\
  (writable (disk s) = true -> file (disk s') = Stored (pendingTasks s')) /\
  emitted s' = emitted s ++ [taskCompleted id res] /\
  snd (processTask_then s id res) = res.
Proof.
  unfold processTask_then, store, saveTasks.
  destruct (writable (disk s)) eqn:Hw; cbn; repeat split;
    try apply filter_drops_id; intros; congruence.
Qed.

(** The same branch keeps every record with another identifier: the one
    a replay was started from among them. *)
Lemma then_keeps_other_records s id res x :
  In x (pendingTasks s) -> taskId x <> id ->
  In x (pendingTasks (fst (processTask_then s id res))).
Proof.
  intros Hin Hneq. unfold processTask_then, store.
  destruct (saveTasks (disk s) _) as [d l]. cbn.
  apply filter_keeps_other; assumption.
Qed.

Lemma replay_all_spec tasks : forall s gen k,
  let s' := fst (replay_all s gen k tasks) in
  let replays := snd (replay_all s gen k tasks) in
  map record replays = tasks /\
  map replay_id replays = map gen (seq k (length tasks)) /\
  pendingTasks s' = pendingTasks s /\ disk s' = disk s /\
  metrics s' = metrics s /\ circuitBreaker s' = circuitBreaker s /\
  console s' = console s /\
  emitted s' =
    emitted s ++
    map (fun kt => taskQueued (gen (fst kt)) (taskData (snd kt))
                     (priority (snd kt)))
      (combine (seq k (length tasks)) tasks) /\
  ConcurrencyManager.maxConcurrent (concurrencyManager s')
  = ConcurrencyManager.maxConcurrent (concurrencyManager s) /\
  ConcurrencyManager.queueLimit (concurrencyManager s')
  = ConcurrencyManager.queueLimit (concurrencyManager s).
Proof.
  induction tasks as [|task tasks IH]; intros s gen k; cbn [replay_all].
  - cbn. rewrite app_nil_r. repeat split.
  - pose proof (submit_recovered s (gen k) (taskData task) (priority task))
      as Hsub.
    destruct (processTask_submit s (gen k) (taskData task) (priority task)
                true) as [s1 a].
    cbn [fst] in Hsub.
    destruct Hsub as (H1 & H2 & H3 & H4 & H5 & H6 & H7 & H8).
    specialize (IH s1 gen (S k)).
    destruct (replay_all s1 gen (S k) tasks) as [s2 l].
    cbn [fst snd] in *.
    destruct IH as (I1 & I2 & I3 & I4 & I5 & I6 & I7 & I8 & I9 & I10).
    cbn [map length seq combine fst snd record replay_id].
    rewrite I1, I2, I3, I4, I5, I6, I7, I8, I9, I10, H6.
    rewrite <- app_assoc. cbn [app].
    repeat split; congruence.
Qed.

Lemma recoverTasks_spec s gen :
  let s' := fst (recoverTasks s gen) in
  let replays := snd (recoverTasks s gen) in
  map record replays = pendingTasks s /\
  pendingTasks s' = pendingTasks s /\ disk s' = disk s /\
  metrics s' = metrics s /\ circuitBreaker s' = circuitBreaker s /\
  emitted s' =
    emitted s ++
    map (fun kt => taskQueued (gen (fst kt)) (taskData (snd kt))
                     (priority (snd kt)))
      (combine (seq 0 (length (pendingTasks s))) (pendingTasks s)) /\
  ConcurrencyManager.maxConcurrent (concurrencyManager s')
  = ConcurrencyManager.maxConcurrent (concurrencyManager s) /\
  ConcurrencyManager.queueLimit (concurrencyManager s')
  = ConcurrencyManager.queueLimit (concurrencyManager s).
Proof.
  unfold recoverTasks.
  set (s1 := if (0 <? length (pendingTasks s))%nat
             then log s (Recovering (length (pendingTasks s))) else s).
  assert (Hp : pendingTasks s1 = pendingTasks s /\ disk s1 = disk s /\
               metrics s1 = metrics s /\
               circuitBreaker s1 = circuitBreaker s /\
               emitted s1 = emitted s /\
               concurrencyManager s1 = concurrencyManager s).
  { unfold s1. destruct (0 <? length (pendingTasks s))%nat; cbn;
      repeat split. }
  destruct Hp as (P1 & P2 & P3 & P4 & P5 & P6).
  pose proof (replay_all_spec (pendingTasks s1) s1 gen 0%nat) as H.
  cbv zeta in H.
  destruct H as (I1 & I2 & I3 & I4 & I5 & I6 & I7 & I8 & I9 & I10).
  cbv zeta. rewrite I1, I3, I4, I5, I6, I8, I9, I10.
  rewrite P1, P2, P3, P4, P5, P6. repeat split.
Qed.

Lemma new_spec options now now' d gen :
  let s := fst (new options now now' d gen) in
  circuitBreaker s = CircuitBreaker.new None None now /\
  metrics s = {| totalProcessed := 0; totalErrors := 0;
                 avgLatency := 0%Q; startTime := now' |} /\
  pendingTasks s = fst (loadTasks d) /\
  map record (snd (new options now now' d gen)) = fst (loadTasks d) /\
  ConcurrencyManager.maxConcurrent (concurrencyManager s)
  = JS.or_default (opt_maxConcurrent options) 10 /\
  ConcurrencyManager.queueLimit (concurrencyManager s)
  = JS.or_default (opt_queueLimit options) 1000.
Proof.
  unfold new. destruct (loadTasks d) as [tasks l]. cbn [fst].
  match goal with
  | |- context [recoverTasks ?s0 gen] =>
      pose proof (recoverTasks_spec s0 gen) as H
  end.
  cbv zeta in H. destruct H as (I1 & I2 & I3 & I4 & I5 & I6 & I7 & I8).
  cbv zeta. rewrite I1, I2, I4, I5, I7, I8. repeat split.
Qed.

End SystemFacts.

Section SystemClaims.
Import TaskStorage AsyncProcessingSystem.

(** C1, as the code has it.  A first submission that finds no free slot
    and a full queue is rejected with QueueFull: [processTask] emits
    [taskQueued] and [taskFailed], throws the error to the submitter and
    leaves the manager as it was.  The record of the task, stored and
    written to the file before admission was tried, is still in the
    store. *)
Theorem queue_full_keeps_record (s : t) (id data : string) (p : Z)
  (r : Run) :
  ConcurrencyManager.maxConcurrent (concurrencyManager s)
    <= ConcurrencyManager.activeCount (concurrencyManager s) ->
  ConcurrencyManager.queueLimit (concurrencyManager s)
    <= Z.of_nat (length (ConcurrencyManager.queue (concurrencyManager s))) ->
  let s' := fst (fst (processTask s id data p false r)) in
  let task := {| taskId := id; taskData := data; priority := p |} in
  snd (fst (processTask s id data p false r)) = Some (inr QueueFull) /\
  snd (processTask s id data p false r) = None /\
  pendingTasks s' = pendingTasks s ++ [task] /\
  Spec.holds_record (pendingTasks s') id /\
  (writable (disk s) = true -> file (disk s') = Stored (pendingTasks s')) /\
  emitted s' =
    emitted s ++ [taskQueued id data p; taskFailed id (message QueueFull)] /\
  concurrencyManager s' = concurrencyManager s.
Proof.
  intros Hc Hq.
  unfold processTask, processTask_submit, store, saveTasks.
  destruct (writable (disk s)) eqn:Hw; cbn [emit concurrencyManager];
    destruct (execute_cases TaskFn (concurrencyManager s)
                {| fn_taskId := id; fn_taskData := data |} p)
      as [[H _]|[[_ [H _]]|[_ [_ ->]]]]; try lia;
    cbn; rewrite <- app_assoc; cbn;
    (repeat split; try congruence;
     apply holds_record_app; right; eexists; split;
     [left; reflexivity|reflexivity]).
Qed.

Lemma queue_full_keeps_record_witness :
  Spec.holds_record
    (pendingTasks
       (fst (fst (processTask
          {| concurrencyManager :=
               {| ConcurrencyManager.maxConcurrent := 1;
                  ConcurrencyManager.queueLimit := 0;
                  ConcurrencyManager.activeCount := 1;
                  ConcurrencyManager.queue := [] |};
             circuitBreaker := CircuitBreaker.new None None 0;
             isProcessing := false;
             metrics := {| totalProcessed := 0; totalErrors := 0;
                           avgLatency := 0%Q; startTime := 0 |};
             pendingTasks := [];
             disk := Spec.empty_disk;
             emitted := [];
             console := [] |}
          "task_9" "{}" 0 false Spec.good_run))))
    "task_9".
Proof.
  refine (proj1 (proj2 (proj2 (proj2
    (queue_full_keeps_record _ "task_9" "{}" 0 Spec.good_run _ _))))).
  - simpl. lia.
  - simpl. lia.
Defined.

(** C1 fails as stated: with one slot taken and the one place in the
    queue taken, the third submission is rejected with QueueFull, and its
    record is in the store after [processTask] has thrown. *)
Lemma queue_full_record_persisted :
  let s0 :=
    fst (new {| opt_maxConcurrent := Some 1; opt_queueLimit := Some 1;
                opt_failureThreshold := None; opt_recoveryTime := None |}
           0 0 Spec.empty_disk (fun _ => "task_0"%string)) in
  let s1 := fst (processTask_submit s0 "task_1" "{}" 0 false) in
  let s2 := fst (processTask_submit s1 "task_2" "{}" 0 false) in
  let call := processTask s2 "task_3" "{}" 0 false Spec.good_run in
  ~ (snd (fst call) = Some (inr QueueFull) ->
     ~ Spec.holds_record (pendingTasks (fst (fst call))) "task_3").
Proof.
  cbv zeta. intros H. apply H; [reflexivity|].
  exists {| taskId := "task_3"; taskData := "{}"; priority := 0 |}.
  split; [|reflexivity]. vm_compute. auto.
Qed.

(** C2, at a recovery replay.  The store holds the record "task_old" at
    startup; the constructor replays it, the replay is given the fresh
    identifier "task_new" and a slot, and its execution succeeds.
    [processTask] returns the result and emits [taskCompleted], and the
    record that was replayed is still in the store and in the file. *)
Theorem recovered_record_survives_success :
  let start := new no_options 0 0 Spec.old_disk (fun _ => "task_new"%string) in
  let done :=
    run_to_completion (fst start)
      {| fn_taskId := "task_new"; fn_taskData := "{}" |} Spec.good_run in
  let s' := fst (fst done) in
  map admission (snd start) = [ConcurrencyManager.Started] /\
  map record (snd start) = [Spec.old_task] /\
  snd (fst done) =
    inl {| r_taskId := "task_new"; processedData := "Processed: {}";
           timestamp := "2024-01-01T00:00:00.000Z" |} /\
  In (taskCompleted "task_new"
        {| r_taskId := "task_new"; processedData := "Processed: {}";
           timestamp := "2024-01-01T00:00:00.000Z" |}) (emitted s') /\
  pendingTasks s' = [Spec.old_task] /\
  file (disk s') = Stored [Spec.old_task] /\
  Spec.holds_record (pendingTasks s') "task_old".
Proof.
  cbv zeta. repeat split; try reflexivity.
  - vm_compute. auto.
  - exists Spec.old_task. split; [vm_compute; auto|reflexivity].
Qed.

(** C3, on a system in which no task has completed or failed: the error
    rate that [getSystemMetrics] reports right after construction is NaN,
    the value of [0 / 0]. *)
Theorem error_rate_of_idle_system (options : Options) (now now' : Z)
  (d : Disk) (gen : nat -> string) (at_time : Z) :
  errorRate (getSystemMetrics (fst (new options now now' d gen)) at_time)
  = JS.NaN.
Proof.
  destruct (new_spec options now now' d gen) as (_ & Hm & _).
  unfold getSystemMetrics. cbn [errorRate]. rewrite Hm. reflexivity.
Qed.

(** C8, as the code has it.  Whatever options the system is built with,
    its breaker is the one built by [new CircuitBreaker()]: the threshold
    is 5 and the recovery time 5000 ms.  The options that are read are
    [maxConcurrent] and [queueLimit], with defaults 10 and 1000. *)
Theorem breaker_uses_defaults (options : Options) (now now' : Z)
  (d : Disk) (gen : nat -> string) :
  let s := fst (new options now now' d gen) in
  circuitBreaker s = CircuitBreaker.new None None now /\
  CircuitBreaker.failureThreshold (circuitBreaker s) = 5 /\
  CircuitBreaker.recoveryTime (circuitBreaker s) = 5000 /\
  ConcurrencyManager.maxConcurrent (concurrencyManager s)
  = JS.or_default (opt_maxConcurrent options) 10 /\
  ConcurrencyManager.queueLimit (concurrencyManager s)
  = JS.or_default (opt_queueLimit options) 1000.
Proof.
  destruct (new_spec options now now' d gen)
    as (Hb & _ & _ & _ & Hc & Hq).
  cbv zeta. rewrite Hb. repeat split; assumption.
Qed.

(** C8 fails as stated: built with [failureThreshold: 2] and
    [recoveryTime: 100], the system has a breaker whose threshold is not
    2, and which is not OPEN after two executions in a row have failed. *)
Lemma configured_threshold_ignored :
  let s :=
    fst (new {| opt_maxConcurrent := None; opt_queueLimit := None;
                opt_failureThreshold := Some 2;
                opt_recoveryTime := Some 100 |}
           0 0 Spec.empty_disk (fun _ => "task_0"%string)) in
  let s1 :=
    fst (executeTask s {| fn_taskId := "task_1"; fn_taskData := "{}" |}
           Spec.bad_run) in
  let s2 :=
    fst (executeTask s1 {| fn_taskId := "task_2"; fn_taskData := "{}" |}
           Spec.bad_run) in
  ~ (CircuitBreaker.failureThreshold (circuitBreaker s) = 2 /\
     CircuitBreaker.recoveryTime (circuitBreaker s) = 100 /\
     CircuitBreaker.state (circuitBreaker s2) = CircuitBreaker.OPEN).
Proof.
  cbv zeta. intros (H & _). vm_compute in H. discriminate.
Qed.

End SystemClaims.

(** * Further properties *)

(** ** The admission controller along a history *)

Section HistoryFacts.
Import ConcurrencyManager.

(** What one event does to the manager. *)
Lemma step_cases (m : t nat) (n : nat) (e : Event) :
  (exists p, e = Submit p /\ activeCount m < maxConcurrent m /\
     execute m n p = (_run_enter m, Started) /\
     step m n e = (_run_enter m, S n, [n])) \/
  (exists p, e = Submit p /\ maxConcurrent m <= activeCount m /\
     Z.of_nat (length (queue m)) < queueLimit m /\
     snd (execute m n p) = Enqueued /\
     step m n e =
       (with_queue m
          (JS.sort by_priority (queue m ++ [{| fn := n; priority := p |}])),
        S n, [])) \/
  (exists p, e = Submit p /\ maxConcurrent m <= activeCount m /\
     queueLimit m <= Z.of_nat (length (queue m)) /\
     snd (execute m n p) = Rejected QueueFull /\
     step m n e = (m, S n, [])) \/
  (e = Finish /\ activeCount m <= 0 /\ step m n e = (m, n, [])) \/
  (e = Finish /\ 0 < activeCount m /\ queue m = [] /\
     step m n e = (with_activeCount m (activeCount m - 1), n, [])) \/
  (exists h tl, e = Finish /\ 0 < activeCount m /\ queue m = h :: tl /\
     step m n e =
       (_run_enter (with_queue (with_activeCount m (activeCount m - 1)) tl),
        n, [fn h])).
Proof.
  destruct e as [p|]; unfold step.
  - destruct (execute_cases nat m n p)
      as [[Hc E]|[[Hc [Hq E]]|[Hc [Hq E]]]]; rewrite E.
    + left. exists p. repeat split; auto.
    + right. left. exists p.
      repeat split; auto; rewrite E; reflexivity.
    + right. right. left. exists p.
      repeat split; auto; rewrite E; reflexivity.
  - destruct (Z.ltb_spec 0 (activeCount m)) as [Ha|Ha].
    + unfold _run_finally. cbn [queue with_activeCount].
      destruct (queue m) as [|h tl] eqn:E.
      * do 4 right. left. repeat split; auto.
      * do 5 right. exists h, tl. repeat split; auto.
    + do 3 right. left. repeat split; auto.
Qed.

Lemma after_invariant (P : t nat -> nat -> Prop) :
  (forall m n e, P m n ->
     P (fst (fst (step m n e))) (snd (fst (step m n e)))) ->
  forall evs m n, P m n -> P (fst (after m n evs)) (snd (after m n evs)).
Proof.
  intros Hstep. induction evs as [|e evs IH]; intros m n H; simpl;
    [exact H|].
  specialize (Hstep m n e H).
  destruct (step m n e) as [[m' n'] g]. apply IH. exact Hstep.
Qed.

Lemma sort_Permutation (A : Type) (cmp : A -> A -> Z) (l : list A) :
  Permutation (JS.sort cmp l) l.
Proof.
  assert (Hins : forall x l', Permutation (JS.insert cmp x l') (x :: l')).
  { intros x l'. induction l' as [|y l' IH]; simpl; [reflexivity|].
    destruct (cmp x y <=? 0); [reflexivity|].
    rewrite IH. apply perm_swap. }
  induction l as [|x l IH]; simpl; [reflexivity|].
  rewrite Hins. apply perm_skip. exact IH.
Qed.

(** X1. No request waits while a slot is free: in every state that a
    fresh controller reaches, a queue that is not empty comes with all
    slots taken. *)
Theorem no_waiter_while_slot_free (C Q : Z) (evs : list Event) :
  queue (fst (after (new nat C Q) 0 evs)) <> [] ->
  maxConcurrent (fst (after (new nat C Q) 0 evs))
  <= activeCount (fst (after (new nat C Q) 0 evs)).
Proof.
  apply (after_invariant
           (fun m _ => queue m <> [] -> maxConcurrent m <= activeCount m)).
  - intros m n e H.
    destruct (step_cases m n e)
      as [(p & _ & Hc & _ & ->)|[(p & _ & Hc & _ & _ & ->)|
          [(p & _ & _ & _ & _ & ->)|[(_ & _ & ->)|
          [(_ & _ & Hq & ->)|(h & tl & _ & _ & Hq & ->)]]]]];
      cbn [fst snd queue maxConcurrent activeCount _run_enter with_queue
           with_activeCount]; intros Hne; try (apply H; exact Hne);
      try lia.
    + specialize (H Hne). lia.
    + congruence.
    + assert (Hm : queue m <> []) by (rewrite Hq; discriminate).
      specialize (H Hm). lia.
  - simpl. congruence.
Qed.

Lemma no_waiter_while_slot_free_witness :
  maxConcurrent (fst (after (new nat 1 2) 0 [Submit 0; Submit 3]))
  <= activeCount (fst (after (new nat 1 2) 0 [Submit 0; Submit 3])).
Proof.
  apply (no_waiter_while_slot_free 1 2 [Submit 0; Submit 3]).
  vm_compute. discriminate.
Defined.

Lemma accepted_conserved evs : forall (m : t nat) n,
  Permutation
    (grants m n evs ++ map fn (queue (fst (after m n evs))))
    (map fn (queue m) ++ Observed.accepted m n evs).
Proof.
  induction evs as [|e evs IH]; intros m n.
  - simpl. rewrite app_nil_r. reflexivity.
  - cbn [grants after Observed.accepted].
    destruct (step_cases m n e)
      as [(p & -> & _ & Ex & ->)|[(p & -> & _ & _ & Ex & ->)|
          [(p & -> & _ & _ & Ex & ->)|[(-> & _ & ->)|
          [(-> & _ & Hq & ->)|(h & tl & -> & _ & Hq & ->)]]]]];
      try rewrite Ex; cbn [fst snd]; cbv iota beta;
      rewrite <- app_assoc; rewrite IH;
      cbn [queue _run_enter with_queue with_activeCount app].
    + apply Permutation_middle.
    + rewrite (Permutation_map fn (sort_Permutation _ by_priority _)).
      rewrite map_app. cbn [map fn]. rewrite <- app_assoc. reflexivity.
    + reflexivity.
    + reflexivity.
    + reflexivity.
    + rewrite Hq. reflexivity.
Qed.

Lemma step_arrival (m : t nat) (n : nat) (e : Event) :
  (n <= snd (fst (step m n e)))%nat.
Proof.
  destruct (step_cases m n e)
    as [(p & _ & _ & _ & ->)|[(p & _ & _ & _ & _ & ->)|
        [(p & _ & _ & _ & _ & ->)|[(_ & _ & ->)|
        [(_ & _ & _ & ->)|(h & tl & _ & _ & _ & ->)]]]]];
    cbn [fst snd]; lia.
Qed.

Lemma step_submit_arrival (m : t nat) (n : nat) (p : Z) :
  snd (fst (step m n (Submit p))) = S n.
Proof.
  destruct (step_cases m n (Submit p))
    as [(q & _ & _ & _ & ->)|[(q & _ & _ & _ & _ & ->)|
        [(q & _ & _ & _ & _ & ->)|[(H & _)|
        [(H & _)|(h & tl & H & _)]]]]];
    try discriminate; reflexivity.
Qed.

Lemma accepted_later evs : forall (m : t nat) n x,
  In x (Observed.accepted m n evs) -> (n <= x)%nat.
Proof.
  induction evs as [|e evs IH]; intros m n x; cbn [Observed.accepted];
    [intros []|].
  pose proof (IH (fst (fst (step m n e))) (snd (fst (step m n e))) x)
    as IH'.
  pose proof (step_arrival m n e) as Hn.
  destruct e as [p|].
  - pose proof (step_submit_arrival m n p) as Hs.
    destruct (step m n (Submit p)) as [[m' n'] g]. cbn [fst snd] in *.
    destruct (snd (execute m n p)); simpl;
      intros H; repeat destruct H as [H|H]; try lia;
      specialize (IH' H); lia.
  - destruct (step m n Finish) as [[m' n'] g]. cbn [fst snd] in *.
    intros H. specialize (IH' H). lia.
Qed.

Lemma accepted_NoDup evs : forall (m : t nat) n,
  NoDup (Observed.accepted m n evs).
Proof.
  induction evs as [|e evs IH]; intros m n; cbn [Observed.accepted];
    [constructor|].
  pose proof (IH (fst (fst (step m n e))) (snd (fst (step m n e)))) as IH'.
  pose proof (accepted_later evs (fst (fst (step m n e)))
                (snd (fst (step m n e))) n) as Hl.
  destruct e as [p|].
  - pose proof (step_submit_arrival m n p) as Hs.
    destruct (step m n (Submit p)) as [[m' n'] g]. cbn [fst snd] in *.
    destruct (snd (execute m n p)); try exact IH';
      constructor; try exact IH'; intros H; specialize (Hl H); lia.
  - destruct (step m n Finish) as [[m' n'] g]. exact IH'.
Qed.

(** X2. The controller neither loses nor repeats a request: along every
    history of a fresh controller, the requests granted a slot so far
    together with those still waiting are the submissions that were not
    rejected, each of them once. *)
Theorem accepted_granted_or_waiting (C Q : Z) (evs : list Event) :
  Permutation
    (grants (new nat C Q) 0 evs
     ++ map fn (queue (fst (after (new nat C Q) 0 evs))))
    (Observed.accepted (new nat C Q) 0 evs) /\
  NoDup
    (grants (new nat C Q) 0 evs
     ++ map fn (queue (fst (after (new nat C Q) 0 evs)))).
Proof.
  pose proof (accepted_conserved evs (new nat C Q) 0%nat) as H.
  cbn [new queue map app] in H. split; [exact H|].
  eapply Permutation_NoDup; [symmetry; exact H|].
  apply accepted_NoDup.
Qed.

Lemma no_rejection_with_room evs : forall (m : t nat) n,
  activeCount m + Z.of_nat (length (queue m))
  + Z.of_nat (Observed.submissions evs)
  <= maxConcurrent m + queueLimit m ->
  Observed.rejected m n evs = [].
Proof.
  induction evs as [|e evs IH]; intros m n Hroom;
    cbn [Observed.rejected Observed.submissions] in *; [reflexivity|].
  specialize (IH (fst (fst (step m n e))) (snd (fst (step m n e)))).
  destruct (step_cases m n e)
    as [(p & -> & Hc & Ex & Es)|[(p & -> & Hc & Hq & Ex & Es)|
        [(p & -> & Hc & Hq & Ex & Es)|[(-> & Ha & Es)|
        [(-> & Ha & Hq & Es)|(h & tl & -> & Ha & Hq & Es)]]]]];
    rewrite Es in *; try rewrite Ex; cbn [fst snd] in *;
    try rewrite Nat2Z.inj_succ in Hroom; try lia; apply IH;
    cbn [queue maxConcurrent queueLimit activeCount _run_enter with_queue
         with_activeCount]; try rewrite enqueued_length;
    try rewrite Hq in *; cbn [length] in *;
    try rewrite Nat2Z.inj_succ in *; lia.
Qed.

(** X3. Back-pressure sets in only beyond the capacity: a fresh
    controller rejects no submission of a history that holds at most
    [maxConcurrent + queueLimit] submissions, whatever finishes in
    between. *)
Theorem no_rejection_within_capacity (C Q : Z) (evs : list Event) :
  Z.of_nat (Observed.submissions evs) <= C + Q ->
  Observed.rejected (new nat C Q) 0 evs = [].
Proof.
  intros H. apply no_rejection_with_room. simpl. lia.
Qed.

Lemma no_rejection_within_capacity_witness :
  Observed.rejected (new nat 1 1) 0 [Submit 0; Submit 4; Finish] = [].
Proof.
  apply (no_rejection_within_capacity 1 1 [Submit 0; Submit 4; Finish]).
  simpl. lia.
Defined.

End HistoryFacts.

(** ** The circuit breaker: further properties *)

Section BreakerMore.
Import CircuitBreaker.

(** X4. A breaker with a threshold of at least one is CLOSED exactly when
    it has counted fewer failures than the threshold, and its counter is
    never negative; this holds however the calls overlap. *)
Theorem closed_iff_below_threshold (b : t) :
  reachable b -> 1 <= failureThreshold b ->
  (state b = CLOSED <-> failures b < failureThreshold b) /\
  0 <= failures b.
Proof.
  intros Hr Hth. destruct (reachable_ok b Hr) as (H0 & Hopen & Hclosed).
  split; [|exact H0]. split.
  - apply Hclosed. exact Hth.
  - intros Hlt. destruct (state b) eqn:E; [reflexivity| |];
      specialize (Hopen ltac:(discriminate)); lia.
Qed.

Lemma closed_iff_below_threshold_witness :
  state (_fail (new (Some 2) None 0) 7) = CLOSED <->
  failures (_fail (new (Some 2) None 0) 7)
  < failureThreshold (_fail (new (Some 2) None 0) 7).
Proof.
  apply (closed_iff_below_threshold (_fail (new (Some 2) None 0) 7)).
  - apply reach_fail. apply reach_new.
  - simpl. lia.
Defined.

(** X5. The breaker does not open early.  From a CLOSED breaker, a run of
    failing calls that keeps the counter below the threshold leaves it
    CLOSED: every call ran its operation, every failure was counted, and
    [nextAttempt] was not touched. *)
Theorem closed_below_threshold (W R : Type) (calls : list (Call W R)) :
  forall (b : t) (w : W),
  state b = CLOSED ->
  Forall (fun c => always_fails (operation c)) calls ->
  failures b + Z.of_nat (length calls) < failureThreshold b ->
  state (fst (execute_all b w calls)) = CLOSED /\
  failures (fst (execute_all b w calls))
  = failures b + Z.of_nat (length calls) /\
  nextAttempt (fst (execute_all b w calls)) = nextAttempt b /\
  snd (execute_all b w calls) = Observed.invoke_all calls w.
Proof.
  induction calls as [|c calls IH]; intros b w Hc Hall Hlt.
  - cbn. repeat split; auto. lia.
  - inversion Hall as [|? ? Hf Hrest]; subst.
    cbn [length] in Hlt. rewrite Nat2Z.inj_succ in Hlt.
    cbn [execute_all Observed.invoke_all fold_left length].
    destruct (Hf w) as [e [w' Hop]].
    unfold execute, guard. rewrite Hc, Hop.
    assert (Hfail : _fail b (fail_time c) =
              {| failureThreshold := failureThreshold b;
                 recoveryTime := recoveryTime b;
                 failures := failures b + 1; state := CLOSED;
                 nextAttempt := nextAttempt b |}).
    { unfold _fail.
      destruct (Z.leb_spec (failureThreshold b) (failures b + 1));
        [lia|rewrite Hc; reflexivity]. }
    rewrite Hfail.
    match goal with
    | |- context [execute_all ?b1 w' calls] =>
        destruct (IH b1 w' eq_refl Hrest) as (I1 & I2 & I3 & I4);
          [cbn; lia|]
    end.
    rewrite I1, I2, I3, I4. cbn [failures nextAttempt snd].
    rewrite Nat2Z.inj_succ. repeat split; try lia; reflexivity.
Qed.

Lemma closed_below_threshold_witness :
  state
    (fst (execute_all (new None None 0) 0%nat
            [ {| at_time := 1; fail_time := 2;
                 operation := Spec.counted_failure |};
              {| at_time := 3; fail_time := 4;
                 operation := Spec.counted_failure |} ])) = CLOSED /\
  snd (execute_all (new None None 0) 0%nat
         [ {| at_time := 1; fail_time := 2;
              operation := Spec.counted_failure |};
           {| at_time := 3; fail_time := 4;
              operation := Spec.counted_failure |} ]) = 2%nat.
Proof.
  destruct (closed_below_threshold nat unit
              [ {| at_time := 1; fail_time := 2;
                   operation := Spec.counted_failure |};
                {| at_time := 3; fail_time := 4;
                   operation := Spec.counted_failure |} ]
              (new None None 0) 0%nat eq_refl
              ltac:(repeat constructor; exact counted_failure_fails)
              ltac:(simpl; lia)) as (H1 & _ & _ & H4).
  split; [exact H1|exact H4].
Defined.

(** X6. After a call that succeeded, one failure alone opens the breaker
    only if the threshold is at most one: the failure counter is 1, the
    breaker stays CLOSED when the threshold is above one, and otherwise
    it is OPEN until [recoveryTime] after the failure. *)
Theorem single_failure_after_success (W R : Type) (b : t)
  (now1 now1' now2 now2' : Z) (op1 op2 : Operation W R) (w : W) (r : R) :
  snd (execute b now1 now1' op1 w) = inl r ->
  always_fails op2 ->
  let b1 := fst (fst (execute b now1 now1' op1 w)) in
  let w1 := snd (fst (execute b now1 now1' op1 w)) in
  let b2 := fst (fst (execute b1 now2 now2' op2 w1)) in
  state b1 = CLOSED /\ failures b1 = 0 /\
  failures b2 = 1 /\
  (1 < failureThreshold b -> state b2 = CLOSED) /\
  (failureThreshold b <= 1 ->
   state b2 = OPEN /\ nextAttempt b2 = now2' + recoveryTime b).
Proof.
  intros Hok Hf. cbv zeta.
  assert (H1 : exists w1 b0,
             guard b now1 = inl b0 /\
             execute b now1 now1' op1 w = (_reset b0, w1, inl r)).
  { unfold execute in *. destruct (guard b now1) as [b0|e];
      [|discriminate].
    destruct (op1 w) as [[r0|e] w1]; [|discriminate].
    cbn in Hok. injection Hok as ->. eauto. }
  destruct H1 as (w1 & b0 & Hg & E). rewrite E. cbn [fst snd].
  destruct (guard_fields b now1 b0 Hg) as (_ & Hrt & Hth).
  destruct (Hf w1) as [e [w2 Hop]].
  unfold execute, guard. cbn [state _reset]. rewrite Hop. cbn [fst].
  unfold _fail. cbn [failures failureThreshold recoveryTime state
                       nextAttempt _reset].
  rewrite Hth, Hrt.
  destruct (Z.leb_spec (failureThreshold b) (0 + 1));
    cbn [failures state nextAttempt]; repeat split; intros; try lia;
    reflexivity.
Qed.

Lemma single_failure_after_success_witness :
  state
    (fst (fst (execute
       (fst (fst (execute (new None None 0) 1 1
                    (fun w : nat => (@inl unit Error tt, S w)) 0%nat)))
       2 3 Spec.counted_failure 1%nat))) = CLOSED.
Proof.
  refine (proj1 (proj2 (proj2 (proj2
    (single_failure_after_success nat unit (new None None 0) 1 1 2 3
       (fun w : nat => (@inl unit Error tt, S w)) Spec.counted_failure
       0%nat tt eq_refl counted_failure_fails)))) _).
  simpl. lia.
Defined.

(** X7. The half-open state is not limited to one probe.  Once the call
    that follows the recovery time has set the breaker to HALF_OPEN, every
    call made before that probe settles passes the test as well, at
    whatever time; if two such calls fail, both failures are counted and
    the breaker is OPEN until [recoveryTime] after the second. *)
Theorem overlapping_probes (b : t) (now1 now2 t1 t2 : Z) :
  reachable b -> state b = OPEN -> nextAttempt b < now1 ->
  let b1 := with_state b HALF_OPEN in
  guard b now1 = inl b1 /\ guard b1 now2 = inl b1 /\
  failures (_fail (_fail b1 t1) t2) = failures b + 2 /\
  state (_fail (_fail b1 t1) t2) = OPEN /\
  nextAttempt (_fail (_fail b1 t1) t2) = t2 + recoveryTime b.
Proof.
  intros Hr Ho Hn. cbv zeta.
  destruct (reachable_ok b Hr) as (H0 & Hopen & _).
  specialize (Hopen ltac:(congruence)).
  split; [apply probe_after_recovery; assumption|].
  split; [reflexivity|].
  unfold _fail, with_state.
  cbn [failures failureThreshold recoveryTime state nextAttempt].
  destruct (Z.leb_spec (failureThreshold b) (failures b + 1)); [|lia].
  cbn [failures failureThreshold recoveryTime state nextAttempt].
  destruct (Z.leb_spec (failureThreshold b) (failures b + 1 + 1)); [|lia].
  cbn [failures failureThreshold recoveryTime state nextAttempt].
  repeat split; lia.
Qed.

Lemma overlapping_probes_witness :
  guard
    (with_state
       {| failureThreshold := 1; recoveryTime := 100; failures := 1;
          state := OPEN; nextAttempt := 105 |} HALF_OPEN) 0
  = inl (with_state
           {| failureThreshold := 1; recoveryTime := 100; failures := 1;
              state := OPEN; nextAttempt := 105 |} HALF_OPEN).
Proof.
  refine (proj1 (proj2
    (overlapping_probes
       {| failureThreshold := 1; recoveryTime := 100; failures := 1;
          state := OPEN; nextAttempt := 105 |} 200 0 201 202 _ eq_refl _))).
  - apply (reach_fail (new (Some 1) (Some 100) 0) 5). apply reach_new.
  - simpl. lia.
Defined.

End BreakerMore.

(** ** The admission controller: a burst of any length *)

Section BurstFacts.
Import ConcurrencyManager.
Variable F : Type.

(** X8. A burst of [N] submissions with nothing finishing in between:
    the first ones are started, as many as there are free slots; the next
    ones are enqueued, as many as the queue has room for; all the others
    are rejected with QueueFull. *)
Theorem burst_profile (reqs : list (F * Z)) : forall (m : t F),
  let N := length reqs in
  let free := Z.to_nat (maxConcurrent m - activeCount m) in
  let room := Z.to_nat (queueLimit m - Z.of_nat (length (queue m))) in
  let a := Nat.min N free in
  let b := Nat.min (N - a) room in
  snd (submit_all m reqs)
  = repeat Started a ++ repeat Enqueued b
    ++ repeat (Rejected QueueFull) (N - a - b).
Proof.
  induction reqs as [|[f p] reqs IH]; intros m; cbv zeta.
  - reflexivity.
  - cbn [submit_all length].
    destruct (execute_cases F m f p)
      as [[Hc E]|[[Hc [Hq E]]|[Hc [Hq E]]]]; rewrite E;
      specialize (IH (fst (execute m f p))); rewrite E in IH;
      cbv zeta in IH; cbn [fst] in IH;
      match goal with
      | |- context [submit_all ?m1 reqs] =>
          destruct (submit_all m1 reqs) as [m2 l]
      end; cbn [snd] in *; rewrite IH; clear IH;
      cbn [queue maxConcurrent queueLimit activeCount _run_enter with_queue
           with_activeCount]; try rewrite enqueued_length.
    + set (n := length reqs).
      replace (Z.to_nat (maxConcurrent m - activeCount m))
        with (S (Z.to_nat (maxConcurrent m - (activeCount m + 1))))
        by lia.
      set (fr := Z.to_nat (maxConcurrent m - (activeCount m + 1))).
      set (rm := Z.to_nat (queueLimit m - Z.of_nat (length (queue m)))).
      replace (Nat.min (S n) (S fr)) with (S (Nat.min n fr)) by lia.
      cbn [repeat app Nat.sub]. reflexivity.
    + set (n := length reqs).
      replace (Z.to_nat (maxConcurrent m - activeCount m)) with 0%nat
        by lia.
      replace (Z.to_nat (queueLimit m - Z.of_nat (length (queue m))))
        with (S (Z.to_nat
                   (queueLimit m - Z.of_nat (S (length (queue m))))))
        by lia.
      set (rm := Z.to_nat (queueLimit m - Z.of_nat (S (length (queue m))))).
      rewrite !Nat.min_0_r, !Nat.sub_0_r.
      replace (Nat.min (S n) (S rm)) with (S (Nat.min n rm)) by lia.
      cbn [repeat app Nat.sub]. reflexivity.
    + set (n := length reqs).
      replace (Z.to_nat (maxConcurrent m - activeCount m)) with 0%nat
        by lia.
      replace (Z.to_nat (queueLimit m - Z.of_nat (length (queue m))))
        with 0%nat by lia.
      rewrite !Nat.min_0_r, !Nat.sub_0_r. cbn [repeat app]. reflexivity.
Qed.

End BurstFacts.

(** ** The processing system: further properties *)

Section SystemMore.
Import TaskStorage AsyncProcessingSystem.
Implicit Types (s : t) (id data : string) (p : Z) (r : Run).

Lemma service_result (b : CircuitBreaker.t) (f : TaskFn) r b' w res :
  CircuitBreaker.execute b (guard_time r) (fail_time r) (service f r) tt
  = (b', w, inl res) ->
  res = {| r_taskId := fn_taskId f;
           processedData := "Processed: " ++ fn_taskData f;
           timestamp := stamp r |} /\
  service_fails r = false /\
  CircuitBreaker.state b' = CircuitBreaker.CLOSED /\
  CircuitBreaker.failures b' = 0.
Proof.
  unfold CircuitBreaker.execute, service.
  destruct (CircuitBreaker.guard b (guard_time r)) as [b1|e];
    [|discriminate].
  destruct (service_fails r); [discriminate|].
  intros H. injection H as <- _ <-. repeat split.
Qed.

Lemma service_error (b : CircuitBreaker.t) (f : TaskFn) r b' w e :
  CircuitBreaker.execute b (guard_time r) (fail_time r) (service f r) tt
  = (b', w, inr e) ->
  (e = CircuitOpen /\ b' = b /\
   CircuitBreaker.state b = CircuitBreaker.OPEN /\
   guard_time r <= CircuitBreaker.nextAttempt b) \/
  (e = ExternalServiceError /\ service_fails r = true).
Proof.
  unfold CircuitBreaker.execute, service.
  destruct (guard_cases b (guard_time r))
    as [[Ho [Hn E]]|[[Ho [Hn E]]|[Hn E]]]; rewrite E.
  - intros H. injection H as <- _ <-. left. auto.
  - destruct (service_fails r); [|discriminate].
    intros H. injection H as _ _ <-. right. auto.
  - destruct (service_fails r); [|discriminate].
    intros H. injection H as _ _ <-. right. auto.
Qed.

(** X9. Every execution of a task is counted once in the metrics: a
    success adds one to [totalProcessed], a failure adds one to
    [totalErrors], and the store, the manager and the events are left
    alone.  A call turned away by the OPEN breaker is counted as an
    error too, although the service was not called and the breaker did
    not change. *)
Theorem executeTask_counts_once (s : t) (f : TaskFn) (r : Run) :
  let s' := fst (executeTask s f r) in
  pendingTasks s' = pendingTasks s /\
  concurrencyManager s' = concurrencyManager s /\
  emitted s' = emitted s /\ disk s' = disk s /\
  match snd (executeTask s f r) with
  | inl res =>
      totalProcessed (metrics s') = totalProcessed (metrics s) + 1 /\
      totalErrors (metrics s') = totalErrors (metrics s) /\
      res = {| r_taskId := fn_taskId f;
               processedData := "Processed: " ++ fn_taskData f;
               timestamp := stamp r |}
  | inr e =>
      totalProcessed (metrics s') = totalProcessed (metrics s) /\
      totalErrors (metrics s') = totalErrors (metrics s) + 1 /\
      (e = CircuitOpen \/ e = ExternalServiceError)
  end /\
  (CircuitBreaker.state (circuitBreaker s) = CircuitBreaker.OPEN ->
   guard_time r <= CircuitBreaker.nextAttempt (circuitBreaker s) ->
   snd (executeTask s f r) = inr CircuitOpen /\
   circuitBreaker s' = circuitBreaker s /\
   totalErrors (metrics s') = totalErrors (metrics s) + 1).
Proof.
  cbv zeta. unfold executeTask.
  destruct (CircuitBreaker.execute (circuitBreaker s) (guard_time r)
              (fail_time r) (service f r) tt) as [[b w] [res|e]] eqn:E.
  - destruct (service_result _ _ _ _ _ _ E) as (Hres & _).
    cbn. repeat split; try assumption; exfalso;
      match goal with
      | Ho : CircuitBreaker.state _ = CircuitBreaker.OPEN, Hn : _ <= _ |- _ =>
          rewrite (open_rejects unit TaskResult _ _ _ _ _ Ho Hn) in E
      end; discriminate.
  - pose proof (service_error _ _ _ _ _ _ E) as He.
    cbn. repeat split; try tauto;
      match goal with
      | Ho : CircuitBreaker.state _ = CircuitBreaker.OPEN, Hn : _ <= _ |- _ =>
          rewrite (open_rejects unit TaskResult _ _ _ _ _ Ho Hn) in E
      end; congruence.
Qed.

Lemma executeTask_frame s (f : TaskFn) r :
  pendingTasks (fst (executeTask s f r)) = pendingTasks s /\
  concurrencyManager (fst (executeTask s f r)) = concurrencyManager s /\
  emitted (fst (executeTask s f r)) = emitted s /\
  disk (fst (executeTask s f r)) = disk s.
Proof.
  destruct (executeTask_counts_once s f r) as (H1 & H2 & H3 & H4 & _).
  auto.
Qed.

(** What a task that holds a slot leaves behind when it settles. *)
Lemma run_to_completion_shape s (f : TaskFn) r :
  let s' := fst (fst (run_to_completion s f r)) in
  concurrencyManager s'
  = fst (ConcurrencyManager._run_finally (concurrencyManager s)) /\
  snd (run_to_completion s f r)
  = snd (ConcurrencyManager._run_finally (concurrencyManager s)) /\
  match snd (fst (run_to_completion s f r)) with
  | inl res =>
      snd (executeTask s f r) = inl res /\
      pendingTasks s' =
        filter (fun t => negb (String.eqb (taskId t) (fn_taskId f)))
          (pendingTasks s) /\
      disk s' = fst (saveTasks (disk s) (pendingTasks s')) /\
      emitted s' = emitted s ++ [taskCompleted (fn_taskId f) res]
  | inr e =>
      snd (executeTask s f r) = inr e /\
      pendingTasks s' = pendingTasks s /\ disk s' = disk s /\
      emitted s' = emitted s ++ [taskFailed (fn_taskId f) (message e)]
  end.
Proof.
  cbv zeta. unfold run_to_completion.
  destruct (executeTask_frame s f r) as (F1 & F2 & F3 & F4).
  destruct (executeTask s f r) as [s1 out]. cbn [fst snd] in *.
  destruct s1 as [cm cb ip me pt dk em co]. cbn in F1, F2, F3, F4. subst.
  unfold release. cbn [concurrencyManager].
  destruct (ConcurrencyManager._run_finally (concurrencyManager s))
    as [m next].
  destruct out as [res|e].
  - unfold processTask_then, store, with_concurrencyManager.
    cbn [pendingTasks disk].
    destruct (saveTasks (disk s) _) as [d l] eqn:Es. cbn.
    rewrite Es. repeat split.
  - cbn. repeat split.
Qed.

(** What a call of [processTask] leaves behind, by its outcome. *)
Lemma processTask_shape s id data p (isRecovered : bool) r :
  let s' := fst (fst (processTask s id data p isRecovered r)) in
  let task := {| taskId := id; taskData := data; priority := p |} in
  let s0 :=
    if isRecovered then s else store s (pendingTasks s ++ [task]) in
  match snd (fst (processTask s id data p isRecovered r)) with
  | None =>
      pendingTasks s' = pendingTasks s0 /\ disk s' = disk s0 /\
      emitted s' = emitted s ++ [taskQueued id data p]
  | Some (inl res) =>
      pendingTasks s' =
        filter (fun t => negb (String.eqb (taskId t) id))
          (pendingTasks s0) /\
      disk s' = fst (saveTasks (disk s0) (pendingTasks s')) /\
      emitted s' =
        emitted s ++ [taskQueued id data p; taskCompleted id res] /\
      res = {| r_taskId := id; processedData := "Processed: " ++ data;
               timestamp := stamp r |}
  | Some (inr e) =>
      pendingTasks s' = pendingTasks s0 /\ disk s' = disk s0 /\
      emitted s' =
        emitted s ++ [taskQueued id data p; taskFailed id (message e)]
  end.
Proof.
  cbv zeta. unfold processTask, processTask_submit.
  set (s0 := if isRecovered then s
             else store s (pendingTasks s ++
                    [{| taskId := id; taskData := data; priority := p |}])).
  assert (He : emitted s0 = emitted s).
  { unfold s0, store. destruct isRecovered; [reflexivity|].
    destruct (saveTasks _ _); reflexivity. }
  destruct (execute_cases TaskFn
              (concurrencyManager (emit s0 (taskQueued id data p)))
              {| fn_taskId := id; fn_taskData := data |} p)
    as [[_ ->]|[[_ [_ ->]]|[_ [_ ->]]]].
  - match goal with
    | |- context [run_to_completion ?s1 ?f r] =>
        pose proof (run_to_completion_shape s1 f r) as H;
        pose proof (executeTask_counts_once s1 f r) as Hx;
        destruct (run_to_completion s1 f r) as [[s2 out] next]
    end.
    cbv zeta in H, Hx. cbn [fst snd] in *.
    destruct H as (_ & _ & H). destruct Hx as (_ & _ & _ & _ & Hx & _).
    destruct out as [res|e].
    + destruct H as (Hout & H1 & H2 & H3). rewrite Hout in Hx.
      destruct Hx as (_ & _ & Hres).
      cbn in H1, H2, H3 |- *. rewrite H1, H3, He, <- app_assoc.
      rewrite H1 in H2. repeat split; assumption.
    + destruct H as (_ & H1 & H2 & H3).
      cbn in H1, H2, H3 |- *. rewrite H1, H2, H3, He, <- app_assoc.
      repeat split.
  - cbn. rewrite He. repeat split.
  - cbn. rewrite He, <- app_assoc. repeat split.
Qed.

Lemma store_pendingTasks s tasks : pendingTasks (store s tasks) = tasks.
Proof. unfold store. destruct (saveTasks _ _). reflexivity. Qed.

Lemma store_disk s tasks :
  disk (store s tasks) = fst (saveTasks (disk s) tasks).
Proof. unfold store. destruct (saveTasks _ _). reflexivity. Qed.

Lemma filter_fresh (tasks : list PendingTask) id data p :
  ~ Spec.holds_record tasks id ->
  filter (fun t => negb (String.eqb (taskId t) id))
    (tasks ++ [{| taskId := id; taskData := data; priority := p |}])
  = tasks.
Proof.
  intros Hfresh. rewrite filter_app. cbn.
  rewrite String.eqb_refl. cbn. rewrite app_nil_r.
  apply forallb_filter_id. apply forallb_forall. intros x Hx.
  destruct (String.eqb_spec (taskId x) id) as [Heq|Hneq];
    [|reflexivity].
  exfalso. apply Hfresh. exists x. auto.
Qed.

Lemma saveTasks_writable (d : Disk) (tasks : list PendingTask) :
  writable d = true ->
  saveTasks d tasks = ({| file := Stored tasks; writable := true |}, []).
Proof. intros H. unfold saveTasks. rewrite H. reflexivity. Qed.

Lemma store_durable s tasks :
  writable (disk s) = true ->
  Observed.durable (store s tasks) /\ writable (disk (store s tasks)) = true.
Proof.
  intros Hw. unfold Observed.durable.
  rewrite store_pendingTasks, store_disk, saveTasks_writable by exact Hw.
  split; reflexivity.
Qed.

(** X14. The file mirrors the store.  The constructor leaves the system
    holding exactly the records that a restart would load; with a
    writable file this stays so across every call of [processTask] and
    across the settling of every task that was queued, so that a restart
    replays the tasks not yet completed and no others. *)
Theorem store_mirrors_file :
  (forall options now now' d gen,
     Observed.durable (fst (new options now now' d gen))) /\
  (forall s id data p (isRecovered : bool) r,
     writable (disk s) = true -> Observed.durable s ->
     Observed.durable (fst (fst (processTask s id data p isRecovered r))) /\
     writable (disk (fst (fst (processTask s id data p isRecovered r))))
     = true) /\
  (forall s (f : TaskFn) r,
     writable (disk s) = true -> Observed.durable s ->
     Observed.durable (fst (fst (run_to_completion s f r))) /\
     writable (disk (fst (fst (run_to_completion s f r)))) = true).
Proof.
  split; [|split].
  - intros options now now' d gen. unfold new, Observed.durable.
    destruct (loadTasks d) as [tasks l] eqn:El.
    match goal with
    | |- context [recoverTasks ?s0 gen] =>
        destruct (recoverTasks_spec s0 gen) as (_ & H2 & H3 & _)
    end.
    rewrite H2, H3. cbn. rewrite El. reflexivity.
  - intros s id data p isRecovered r Hw Hd.
    pose proof (processTask_shape s id data p isRecovered r) as H.
    cbv zeta in H.
    set (s0 := if isRecovered then s else store s _) in H.
    assert (H0 : Observed.durable s0 /\ writable (disk s0) = true).
    { unfold s0. destruct isRecovered; [auto|].
      apply store_durable; exact Hw. }
    destruct H0 as [Hd0 Hw0]. unfold Observed.durable in *.
    destruct (snd (fst (processTask s id data p isRecovered r)))
      as [[res|e]|].
    + destruct H as (H1 & H2 & _). rewrite H2.
      rewrite saveTasks_writable by exact Hw0. cbn. auto.
    + destruct H as (H1 & H2 & _). rewrite H1, H2. auto.
    + destruct H as (H1 & H2 & _). rewrite H1, H2. auto.
  - intros s f r Hw Hd.
    pose proof (run_to_completion_shape s f r) as H. cbv zeta in H.
    destruct H as (_ & _ & H). unfold Observed.durable in *.
    destruct (snd (fst (run_to_completion s f r))) as [res|e].
    + destruct H as (_ & H1 & H2 & _). rewrite H2.
      rewrite saveTasks_writable by exact Hw. cbn. auto.
    + destruct H as (_ & H1 & H2 & _). rewrite H1, H2. auto.
Qed.

Lemma store_mirrors_file_witness :
  Observed.durable
    (fst (fst (processTask
       (fst (new no_options 0 0 Spec.old_disk (fun _ => "task_0"%string)))
       "task_1" "{}" 0 false Spec.bad_run))).
Proof.
  refine (proj1 (proj1 (proj2 store_mirrors_file)
    (fst (new no_options 0 0 Spec.old_disk (fun _ => "task_0"%string)))
    "task_1"%string "{}"%string 0 false Spec.bad_run eq_refl _)).
  apply (proj1 store_mirrors_file).
Defined.

(** X15. Once a task has completed or failed, the error rate that
    [getSystemMetrics] reports is a number: the share of the failures
    among the tasks counted, between 0 and 1. *)
Theorem error_rate_is_share s (now : Z) :
  0 <= totalProcessed (metrics s) -> 0 <= totalErrors (metrics s) ->
  0 < totalProcessed (metrics s) + totalErrors (metrics s) ->
  exists q : Q,
    errorRate (getSystemMetrics s now) = JS.Finite q /\
    (q == inject_Z (totalErrors (metrics s))
          / inject_Z (totalProcessed (metrics s) + totalErrors (metrics s)))%Q
    /\ (0 <= q)%Q /\ (q <= 1)%Q.
Proof.
  intros Hp He Hs. unfold getSystemMetrics. cbn [errorRate].
  remember (totalErrors (metrics s)) as te eqn:Ete.
  remember (totalProcessed (metrics s) + te) as d eqn:Ed.
  assert (Hle : te <= d) by lia. clear Ete Ed Hp.
  destruct d as [|dp|dp]; try lia.
  unfold JS.div. cbn.
  eexists. split; [reflexivity|].
  rewrite Z.mul_1_r.
  split; [|split].
  - unfold Qeq, Qdiv, Qmult, Qinv, inject_Z. cbn. lia.
  - unfold Qle. cbn. lia.
  - unfold Qle. cbn. lia.
Qed.

Lemma error_rate_is_share_witness :
  exists q : Q,
    errorRate
      (getSystemMetrics
         (fst (executeTask
            (fst (new no_options 0 0 Spec.empty_disk
                    (fun _ => "task_0"%string)))
            {| fn_taskId := "task_1"; fn_taskData := "{}" |} Spec.bad_run))
         1000)
    = JS.Finite q /\ (q <= 1)%Q.
Proof.
  destruct (error_rate_is_share
              (fst (executeTask
                 (fst (new no_options 0 0 Spec.empty_disk
                         (fun _ => "task_0"%string)))
                 {| fn_taskId := "task_1"; fn_taskData := "{}" |}
                 Spec.bad_run))
              1000
              ltac:(vm_compute; discriminate)
              ltac:(vm_compute; discriminate)
              ltac:(vm_compute; reflexivity)) as (q & H1 & _ & _ & H4).
  exists q. split; assumption.
Defined.

Lemma replay_all_admissions tasks : forall s gen k,
  map admission (snd (replay_all s gen k tasks))
  = snd (ConcurrencyManager.submit_all (concurrencyManager s)
           (Observed.replay_requests gen k tasks)).
Proof.
  induction tasks as [|task tasks IH]; intros s gen k;
    cbn [replay_all Observed.replay_requests
         ConcurrencyManager.submit_all]; [reflexivity|].
  unfold processTask_submit. cbn [emit concurrencyManager].
  destruct (ConcurrencyManager.execute (concurrencyManager s) _ _)
    as [m a].
  match goal with
  | |- context [replay_all ?s1 gen (S k) tasks] =>
      specialize (IH s1 gen (S k));
      destruct (replay_all s1 gen (S k) tasks) as [s2 l]
  end.
  cbn [concurrencyManager with_concurrencyManager] in IH.
  destruct (ConcurrencyManager.submit_all m _) as [m2 l2].
  cbn [snd map admission] in *. rewrite IH. reflexivity.
Qed.

Lemma replay_requests_length gen tasks : forall k,
  length (Observed.replay_requests gen k tasks) = length tasks.
Proof.
  induction tasks as [|task tasks IH]; intros k; cbn;
    [reflexivity|rewrite IH; reflexivity].
Qed.

(** X16. Startup under overload.  Of the [N] records found at startup,
    the first [maxConcurrent] replays are started, the next [queueLimit]
    are enqueued, and every further one is rejected with QueueFull. *)
Theorem startup_overload (options : Options) (now now' : Z)
  (tasks : list PendingTask) (w : bool) (gen : nat -> string) :
  let N := length tasks in
  let C := Z.to_nat (JS.or_default (opt_maxConcurrent options) 10) in
  let Q := Z.to_nat (JS.or_default (opt_queueLimit options) 1000) in
  let a := Nat.min N C in
  let b := Nat.min (N - a) Q in
  map admission
    (snd (new options now now' {| file := Stored tasks; writable := w |}
            gen))
  = repeat ConcurrencyManager.Started a
    ++ repeat ConcurrencyManager.Enqueued b
    ++ repeat (ConcurrencyManager.Rejected QueueFull) (N - a - b).
Proof.
  cbv zeta. unfold new, loadTasks. cbn [file]. unfold recoverTasks.
  cbn [pendingTasks].
  match goal with
  | |- context [replay_all ?s1 gen 0%nat ?ts] =>
      assert (Hts : ts = tasks)
        by (destruct (0 <? length tasks)%nat; reflexivity);
      assert (Hcm : concurrencyManager s1 =
                ConcurrencyManager.new TaskFn
                  (JS.or_default (opt_maxConcurrent options) 10)
                  (JS.or_default (opt_queueLimit options) 1000))
        by (destruct (0 <? length tasks)%nat; reflexivity);
      rewrite Hts, (replay_all_admissions tasks s1 gen 0%nat), Hcm
  end.
  rewrite (burst_profile TaskFn). cbv zeta.
  rewrite replay_requests_length. cbn.
  rewrite !Z.sub_0_r. reflexivity.
Qed.

Ltac same_memory_start :=
  match goal with
  | H : Observed.same_memory ?a ?b |- _ =>
      destruct a, b; destruct H as (? & ? & ? & ? & ?); cbn in *; subst
  end.

Lemma submit_sim s s2 id data p (isRecovered : bool) :
  Observed.same_memory s s2 ->
  Observed.same_memory (fst (processTask_submit s id data p isRecovered))
    (fst (processTask_submit s2 id data p isRecovered)) /\
  snd (processTask_submit s id data p isRecovered)
  = snd (processTask_submit s2 id data p isRecovered).
Proof.
  intros H. same_memory_start.
  unfold processTask_submit, store, saveTasks. cbn.
  destruct isRecovered;
    repeat match goal with
    | |- context [writable ?x] => destruct (writable x)
    end; cbn;
    destruct (ConcurrencyManager.execute _ _ p) as [m a];
    repeat split.
Qed.

Lemma executeTask_sim s s2 (f : TaskFn) r :
  Observed.same_memory s s2 ->
  Observed.same_memory (fst (executeTask s f r)) (fst (executeTask s2 f r))
  /\ snd (executeTask s f r) = snd (executeTask s2 f r).
Proof.
  intros H. same_memory_start. unfold executeTask. cbn.
  destruct (CircuitBreaker.execute _ _ _ _ tt) as [[b u] [res|e]];
    repeat split.
Qed.

Lemma release_sim s s2 :
  Observed.same_memory s s2 ->
  Observed.same_memory (fst (release s)) (fst (release s2)) /\
  snd (release s) = snd (release s2).
Proof.
  intros H. same_memory_start. unfold release. cbn.
  destruct (ConcurrencyManager._run_finally _) as [m next]; repeat split.
Qed.

Lemma then_sim s s2 id res :
  Observed.same_memory s s2 ->
  Observed.same_memory (fst (processTask_then s id res))
    (fst (processTask_then s2 id res)).
Proof.
  intros H. same_memory_start.
  unfold processTask_then, store, saveTasks. cbn.
  repeat match goal with
  | |- context [writable ?x] => destruct (writable x)
  end; repeat split.
Qed.

Lemma catch_sim s s2 id e :
  Observed.same_memory s s2 ->
  Observed.same_memory (fst (processTask_catch s id e))
    (fst (processTask_catch s2 id e)).
Proof. intros H. same_memory_start. repeat split. Qed.

Lemma run_to_completion_sim s s2 (f : TaskFn) r :
  Observed.same_memory s s2 ->
  Observed.same_memory (fst (fst (run_to_completion s f r)))
    (fst (fst (run_to_completion s2 f r))) /\
  snd (fst (run_to_completion s f r))
  = snd (fst (run_to_completion s2 f r)) /\
  snd (run_to_completion s f r) = snd (run_to_completion s2 f r).
Proof.
  intros H. unfold run_to_completion.
  destruct (executeTask_sim s s2 f r H) as [H1 Ho].
  destruct (executeTask s f r) as [a out], (executeTask s2 f r) as [a2 out2].
  cbn [fst snd] in *. subst out2.
  destruct (release_sim a a2 H1) as [H2 Hn].
  destruct (release a) as [c next], (release a2) as [c2 next2].
  cbn [fst snd] in *. subst next2.
  destruct out as [res|e].
  - pose proof (then_sim c c2 (fn_taskId f) res H2) as H3.
    unfold processTask_then in *. cbn [fst snd] in *. auto.
  - pose proof (catch_sim c c2 (fn_taskId f) e H2) as H3.
    unfold processTask_catch in *. cbn [fst snd] in *. auto.
Qed.

Lemma processTask_sim s s2 id data p (isRecovered : bool) r :
  Observed.same_memory s s2 ->
  snd (fst (processTask s id data p isRecovered r))
  = snd (fst (processTask s2 id data p isRecovered r)) /\
  snd (processTask s id data p isRecovered r)
  = snd (processTask s2 id data p isRecovered r) /\
  Observed.same_memory (fst (fst (processTask s id data p isRecovered r)))
    (fst (fst (processTask s2 id data p isRecovered r))).
Proof.
  intros H. unfold processTask.
  destruct (submit_sim s s2 id data p isRecovered H) as [H1 Ha].
  destruct (processTask_submit s id data p isRecovered) as [a adm],
           (processTask_submit s2 id data p isRecovered) as [a2 adm2].
  cbn [fst snd] in *. subst adm2.
  destruct adm as [| |e].
  - destruct (run_to_completion_sim a a2
                {| fn_taskId := id; fn_taskData := data |} r H1)
      as (H2 & Ho & Hn).
    destruct (run_to_completion a _ r) as [[c out] next],
             (run_to_completion a2 _ r) as [[c2 out2] next2].
    cbn [fst snd] in *. subst. auto.
  - cbn. auto.
  - pose proof (catch_sim a a2 id e H1) as H3.
    unfold processTask_catch in *. cbn [fst snd] in *. auto.
Qed.

(** X17. A file that cannot be written never fails a task.  Over any
    other disk [processTask] returns the same outcome, starts the same
    next task and leaves the same store, events, manager, breaker and
    metrics in memory; over a disk that is not writable the file is left
    as it was. *)
Theorem write_failure_only_logged s (d : Disk) id data p
  (isRecovered : bool) r :
  let run := processTask s id data p isRecovered r in
  let run' := processTask (Observed.with_disk s d) id data p isRecovered r in
  snd (fst run') = snd (fst run) /\ snd run' = snd run /\
  pendingTasks (fst (fst run')) = pendingTasks (fst (fst run)) /\
  emitted (fst (fst run')) = emitted (fst (fst run)) /\
  concurrencyManager (fst (fst run'))
  = concurrencyManager (fst (fst run)) /\
  circuitBreaker (fst (fst run')) = circuitBreaker (fst (fst run)) /\
  metrics (fst (fst run')) = metrics (fst (fst run)) /\
  (writable d = false -> disk (fst (fst run')) = d).
Proof.
  cbv zeta.
  assert (Hsim : Observed.same_memory (Observed.with_disk s d) s)
    by (repeat split).
  destruct (processTask_sim _ _ id data p isRecovered r Hsim)
    as (H1 & H2 & Hc & Hb & Hm & Hp & He).
  repeat split; try assumption.
  intros Hw.
  pose proof (processTask_shape (Observed.with_disk s d) id data p
                isRecovered r) as H.
  cbv zeta in H.
  assert (Hsave : forall tasks, fst (saveTasks d tasks) = d).
  { intros tasks. unfold saveTasks. rewrite Hw. reflexivity. }
  assert (H0 : disk (if isRecovered then Observed.with_disk s d
                     else store (Observed.with_disk s d)
                            (pendingTasks (Observed.with_disk s d) ++
                             [{| taskId := id; taskData := data;
                                 priority := p |}])) = d).
  { destruct isRecovered; [reflexivity|]. rewrite store_disk. apply Hsave. }
  destruct (snd (fst (processTask (Observed.with_disk s d) id data p
                        isRecovered r))) as [[res|e]|].
  - destruct H as (_ & H & _). rewrite H, H0. apply Hsave.
  - destruct H as (_ & H & _). rewrite H. exact H0.
  - destruct H as (_ & H & _). rewrite H. exact H0.
Qed.

End SystemMore.

(** ** The object pool manager *)

Section PoolFacts.
Import ObjectPool.
Variable Obj : Type.
Variable W : Type.
Implicit Types (m : t Obj W) (pool : Pool Obj W) (name : string).

Lemma map_get_set_same (V : Type) (l : list (string * V)) k (v : V) :
  map_get (map_set l k v) k = Some v.
Proof.
  induction l as [|[k' v'] l IH]; cbn.
  - rewrite String.eqb_refl. reflexivity.
  - destruct (String.eqb_spec k' k) as [->|Hne]; cbn.
    + rewrite String.eqb_refl. reflexivity.
    + apply (proj2 (String.eqb_neq _ _)) in Hne. rewrite Hne. exact IH.
Qed.

Lemma map_get_set_other (V : Type) (l : list (string * V)) k k' (v : V) :
  k <> k' -> map_get (map_set l k v) k' = map_get l k'.
Proof.
  intros Hne. induction l as [|[k2 v2] l IH]; cbn.
  - apply (proj2 (String.eqb_neq _ _)) in Hne. rewrite Hne. reflexivity.
  - destruct (String.eqb_spec k2 k) as [->|Hne2]; cbn.
    + apply (proj2 (String.eqb_neq _ _)) in Hne. rewrite Hne. reflexivity.
    + destruct (String.eqb k2 k'); [reflexivity|exact IH].
Qed.

Lemma map_get_set_present (V : Type) (l : list (string * V)) k k' (v : V) :
  map_get l k' <> None -> map_get (map_set l k v) k' <> None.
Proof.
  intros H. destruct (String.eqb_spec k k') as [->|Hne].
  - rewrite map_get_set_same. discriminate.
  - rewrite map_get_set_other by exact Hne. exact H.
Qed.

Lemma pop_snoc (A : Type) (l : list A) (x : A) : pop (l ++ [x]) = Some (l, x).
Proof. unfold pop. rewrite rev_app_distr. cbn. rewrite rev_involutive. reflexivity. Qed.



Lemma release_cases m name pool (obj : Obj) :
  map_get (pools m) name = Some pool ->
  map_get (poolStats m) name <> None ->
  exists stats,
    releaseObject m name obj =
      ({| pools :=
            map_set (pools m) name
              {| objects :=
                   if Z.of_nat (length (objects pool)) <? maxSize pool
                   then objects pool ++
                        [match reset pool with
                         | Some rs => rs obj
                         | None => obj
                         end]
                   else objects pool;
                 factory := factory pool; reset := reset pool;
                 maxSize := maxSize pool; created := created pool;
                 acquired := acquired pool;
                 released := released pool + 1 |};
          poolStats := map_set (poolStats m) name stats |}, None).
Proof.
  intros Hp Hs. unfold releaseObject, updatePoolStats. rewrite Hp.
  cbn [pools poolStats]. rewrite map_get_set_same.
  destruct (map_get (poolStats m) name) as [st|]; [|congruence].
  eexists. reflexivity.
Qed.

(** X20. Released objects are reused, last in first out.  While the pool
    is below its capacity, an object that is released is the one the next
    [acquireObject] returns, after its reset; the factory is not called,
    and the objects of the pool are those from before the release. *)
Theorem release_then_acquire m name pool (obj : Obj) (w : W) :
  map_get (pools m) name = Some pool ->
  map_get (poolStats m) name <> None ->
  Z.of_nat (length (objects pool)) < maxSize pool ->
  let m1 := fst (releaseObject m name obj) in
  let obj' :=
    match reset pool with Some rs => rs obj | None => obj end in
  snd (releaseObject m name obj) = None /\
  fst (fst (acquireObject m1 name w)) = inl obj' /\
  snd (acquireObject m1 name w) = w /\
  exists pool',
    map_get (pools (snd (fst (acquireObject m1 name w)))) name
    = Some pool' /\
    objects pool' = objects pool /\ created pool' = created pool /\
    acquired pool' = acquired pool + 1 /\
    released pool' = released pool + 1.
Proof.
  intros Hp Hs Hroom. cbv zeta.
  destruct (release_cases m name pool obj Hp Hs) as [stats ->].
  cbn [fst snd]. split; [reflexivity|].
  destruct (Z.ltb_spec (Z.of_nat (length (objects pool))) (maxSize pool));
    [|lia].
  unfold acquireObject. cbn [pools poolStats].
  rewrite map_get_set_same. cbn [objects]. rewrite pop_snoc.
  cbn [fst snd pools]. repeat split.
  eexists. rewrite map_get_set_same. split; [reflexivity|].
  cbn. repeat split.
Qed.

(** X21. The capacity is kept on release.  A release never makes the
    pool longer than the larger of its length and [maxSize]; at or above
    the capacity the object is dropped and the objects of the pool stay
    as they are, while the release is counted all the same. *)
Theorem release_respects_capacity m name pool (obj : Obj) :
  map_get (pools m) name = Some pool ->
  map_get (poolStats m) name <> None ->
  exists pool',
    map_get (pools (fst (releaseObject m name obj))) name = Some pool' /\
    Z.of_nat (length (objects pool'))
    <= Z.max (Z.of_nat (length (objects pool))) (maxSize pool) /\
    (maxSize pool <= Z.of_nat (length (objects pool)) ->
     objects pool' = objects pool) /\
    released pool' = released pool + 1 /\
    maxSize pool' = maxSize pool /\ created pool' = created pool.
Proof.
  intros Hp Hs.
  destruct (release_cases m name pool obj Hp Hs) as [stats ->].
  cbn [fst pools]. eexists. rewrite map_get_set_same.
  split; [reflexivity|]. cbn [objects released maxSize created].
  destruct (Z.ltb_spec (Z.of_nat (length (objects pool))) (maxSize pool)).
  - rewrite length_app. cbn [length]. repeat split; try lia.
  - repeat split; try lia.
Qed.

(** X22. The two maps stay in step: a manager built by the constructor
    and changed by [createPool], [acquireObject] and [releaseObject] has a
    statistics entry for every pool, and so [releaseObject] never
    throws. *)
Theorem pools_have_stats m :
  consistent m ->
  (forall name (obj : Obj), snd (releaseObject m name obj) = None) /\
  (forall name (obj : Obj), consistent (fst (releaseObject m name obj))) /\
  (forall name (w : W), consistent (snd (fst (acquireObject m name w)))) /\
  (forall name f rs options (w : W),
     consistent (fst (createPool m name f rs options w))) /\
  consistent (new Obj W).
Proof.
  intros Hc. split; [|split; [|split; [|split]]].
  - intros name obj. unfold releaseObject.
    destruct (map_get (pools m) name) as [pool|] eqn:Hp; [|reflexivity].
    destruct (release_cases m name pool obj Hp (Hc name pool Hp))
      as [stats E].
    unfold releaseObject in E. rewrite Hp in E. rewrite E. reflexivity.
  - intros name obj.
    destruct (map_get (pools m) name) as [pool|] eqn:Hp.
    + destruct (release_cases m name pool obj Hp (Hc name pool Hp))
        as [stats ->].
      cbn [fst]. intros k pl. cbn [pools poolStats].
      destruct (String.eqb_spec name k) as [->|Hne].
      * rewrite !map_get_set_same. intros _. discriminate.
      * rewrite !map_get_set_other by exact Hne. apply Hc.
    + unfold releaseObject. rewrite Hp. exact Hc.
  - intros name w. unfold acquireObject.
    destruct (map_get (pools m) name) as [pool|] eqn:Hp; [|exact Hc].
    destruct (pop (objects pool)) as [[rest o]|]; [|destruct (factory pool w)];
      cbn [fst snd]; intros k pl; cbn [pools poolStats];
      (destruct (String.eqb_spec name k) as [->|Hne];
       [intros _; exact (Hc k pool Hp)
       |rewrite map_get_set_other by exact Hne; apply Hc]).
  - intros name f rs options w. unfold createPool.
    destruct (populate _ [] 0 f w) as [[objs cr] w'].
    cbn [fst]. intros k pl. cbn [pools poolStats].
    destruct (String.eqb_spec name k) as [->|Hne].
    + rewrite !map_get_set_same. intros _. discriminate.
    + rewrite !map_get_set_other by exact Hne. apply Hc.
  - intros k pl H. discriminate.
Qed.

End PoolFacts.

Section PoolWitnesses.
Import ObjectPool.

Lemma release_then_acquire_witness :
  fst (fst (acquireObject (fst (releaseObject small_pool "buffers" 7%nat))
              "buffers" 2%nat)) = inl 0%nat.
Proof.
  refine (proj1 (proj2
    (release_then_acquire nat nat small_pool "buffers"%string _ 7%nat 2%nat
       eq_refl _ _))).
  - cbn. discriminate.
  - cbn. lia.
Defined.

Lemma release_respects_capacity_witness :
  exists pool',
    map_get (pools (fst (releaseObject crowded_pool "buffers" 9%nat)))
      "buffers" = Some pool' /\
    objects pool' = [0%nat; 1%nat; 2%nat].
Proof.
  destruct (release_respects_capacity nat nat crowded_pool "buffers"%string
              _ 9%nat eq_refl ltac:(cbn; discriminate))
    as (pool' & H1 & _ & H3 & _).
  exists pool'. split; [exact H1|]. apply H3. cbn. lia.
Defined.

Lemma pools_have_stats_witness :
  snd (releaseObject small_pool "buffers" 3%nat) = None.
Proof.
  assert (Hnew : consistent (new nat nat))
    by (intros k pl H; discriminate).
  assert (Hc : consistent small_pool).
  { unfold small_pool.
    apply (proj1 (proj2 (proj2 (proj2
             (pools_have_stats nat nat (new nat nat) Hnew))))). }
  apply (proj1 (pools_have_stats nat nat small_pool Hc)).
Defined.

End PoolWitnesses.

(** ** The admission controller: who gets the released slot *)

Section ReleaseFacts.
Import ConcurrencyManager.

(** X23. When an operation finishes while requests wait, the slot goes
    to the head of the queue, and along every history of a fresh
    controller that head is the best waiter: every other waiting request
    has a lower priority, or the same priority and a later arrival. *)
Theorem release_serves_best (C Q : Z) (evs : list Event)
  (h : QueuedRequest nat) (tl : list (QueuedRequest nat)) :
  queue (fst (after (new nat C Q) 0 evs)) = h :: tl ->
  0 < activeCount (fst (after (new nat C Q) 0 evs)) ->
  let m := fst (after (new nat C Q) 0 evs) in
  let n := snd (after (new nat C Q) 0 evs) in
  grants m n [Finish] = [fn h] /\
  queue (fst (after m n [Finish])) = tl /\
  activeCount (fst (after m n [Finish])) = activeCount m /\
  Forall (Spec.served_before h) tl.
Proof.
  intros Hq Ha. cbv zeta.
  pose proof (after_queue_ok evs _ _ (new_queue_ok C Q)) as (Hs & _).
  rewrite Hq in Hs. inversion Hs as [|? ? _ Hbest]; subst.
  cbn [grants after step].
  destruct (Z.ltb_spec 0 (activeCount (fst (after (new nat C Q) 0 evs))));
    [|lia].
  unfold _run_finally. cbn [queue with_activeCount]. rewrite Hq.
  cbn. repeat split; [lia|exact Hbest].
Qed.

Lemma release_serves_best_witness :
  grants (fst (after (new nat 1 2) 0 [Submit 0; Submit 0; Submit 5]))
    (snd (after (new nat 1 2) 0 [Submit 0; Submit 0; Submit 5])) [Finish]
  = [2%nat].
Proof.
  refine (proj1
    (release_serves_best 1 2 [Submit 0; Submit 0; Submit 5]
       {| fn := 2%nat; priority := 5 |} [{| fn := 1%nat; priority := 0 |}]
       eq_refl _)).
  vm_compute. reflexivity.
Defined.

End ReleaseFacts.

(** ** The generic processors *)

Section ProcessingFacts.
Import Processing.
Variable T : Type.
Implicit Types (validator : Validator T) (steps : list (Step T)).

Lemma survivors_casualties (check : T -> ValidationResult + Error) steps
  (data : list T) :
  (length (survivors check steps data)
   + length (casualties check steps data))%nat = length data.
Proof.
  induction data as [|x rest IH]; cbn; [reflexivity|].
  destruct (check x) as [v|e]; [destruct (isValid v);
    [destruct (apply_all steps x)|]|]; cbn; lia.
Qed.

Lemma event_loop_spec validator steps (events : list T) :
  forall ok bad ok' bad',
  event_loop validator steps events ok bad = inl (ok', bad') ->
  ok' = ok ++ survivors validator steps events /\
  map item bad' = map item bad ++ casualties validator steps events /\
  (Forall (fun e => code e = "VALIDATION_ERROR"%string) bad ->
   Forall (fun e => code e = "VALIDATION_ERROR"%string) bad').
Proof.
  induction events as [|ev rest IH]; intros ok bad ok' bad' H;
    cbn [event_loop survivors casualties] in *.
  - injection H as <- <-. rewrite !app_nil_r. auto.
  - destruct (validator ev) as [v|e]; [|discriminate].
    destruct (isValid v).
    + destruct (apply_all steps ev) as [ev'|e]; [|discriminate].
      destruct (IH _ _ _ _ H) as (H1 & H2 & H3).
      rewrite H1, <- app_assoc. auto.
    + destruct (IH _ _ _ _ H) as (H1 & H2 & H3).
      rewrite H2, map_app, <- app_assoc. cbn. repeat split; auto.
      intros Hb. apply H3. apply Forall_app. split; [exact Hb|].
      repeat constructor.
Qed.

(** X24. [EventProcessor.process], when it returns: every event is in
    exactly one of the two lists, in the order of the input.  [processed]
    holds the valid events as the handlers leave them, [errors] the
    invalid ones, each with the code VALIDATION_ERROR, and the summary
    counts them: total = successful + failed. *)
Theorem event_process_partition validator steps (events : list T)
  (start finish : Z) (res : ProcessingResult T) :
  event_process validator steps events start finish = inl res ->
  processed res = survivors validator steps events /\
  map item (failures res) = casualties validator steps events /\
  Forall (fun e => code e = "VALIDATION_ERROR"%string) (failures res) /\
  total (summary res) = Z.of_nat (length events) /\
  successful (summary res) = Z.of_nat (length (processed res)) /\
  failed (summary res) = Z.of_nat (length (failures res)) /\
  successful (summary res) + failed (summary res) = total (summary res) /\
  duration (summary res) = finish - start.
Proof.
  unfold event_process.
  destruct (event_loop validator steps events [] []) as [[ok bad]|e] eqn:E;
    [|discriminate].
  intros H. injection H as <-.
  destruct (event_loop_spec _ _ _ _ _ _ _ E) as (H1 & H2 & H3).
  cbn in H1, H2 |- *. subst ok.
  pose proof (survivors_casualties validator steps events) as Hlen.
  rewrite <- H2, length_map in Hlen.
  repeat split; auto; lia.
Qed.

Variable id_of : T -> string.
Variable has_createdAt : T -> bool.
Variable has_updatedAt : T -> bool.

Lemma data_loop_spec validator steps (data : list T) :
  forall ok bad,
  fst (data_loop id_of has_createdAt has_updatedAt validator steps data
         ok bad)
  = ok ++ survivors (validate id_of has_createdAt has_updatedAt validator)
            steps data /\
  map item
    (snd (data_loop id_of has_createdAt has_updatedAt validator steps data
            ok bad))
  = map item bad
    ++ casualties (validate id_of has_createdAt has_updatedAt validator)
         steps data /\
  (Forall (fun e => code e = "VALIDATION_ERROR"%string \/
                    code e = "PROCESSING_ERROR"%string) bad ->
   Forall (fun e => code e = "VALIDATION_ERROR"%string \/
                    code e = "PROCESSING_ERROR"%string)
     (snd (data_loop id_of has_createdAt has_updatedAt validator steps data
             ok bad))).
Proof.
  induction data as [|x rest IH]; intros ok bad;
    cbn [data_loop survivors casualties].
  - cbn. rewrite !app_nil_r. auto.
  - destruct (validate id_of has_createdAt has_updatedAt validator x)
      as [v|e]; [destruct (isValid v);
        [destruct (apply_all steps x) as [x'|e]|]|];
      match goal with
      | |- context [data_loop _ _ _ _ _ rest ?a ?b] =>
          destruct (IH a b) as (H1 & H2 & H3)
      end;
      rewrite H1, H2; try rewrite map_app; rewrite <- ?app_assoc; cbn;
      (repeat split; auto; intros Hb; apply H3;
       try (apply Forall_app; split;
            [exact Hb|apply Forall_cons; [cbn; auto|apply Forall_nil]]);
       auto).
Qed.

(** X25. [BaseDataProcessor.process] reports every item once: it is in
    [processed], as the business rules leave it, when it is valid and no
    rule throws, and otherwise in [errors] with the code VALIDATION_ERROR
    or PROCESSING_ERROR; both lists keep the order of the input, and the
    summary has total = successful + failed. *)
Theorem data_process_partition validator steps (data : list T)
  (start finish : Z) :
  let res :=
    data_process id_of has_createdAt has_updatedAt validator steps data
      start finish in
  let check := validate id_of has_createdAt has_updatedAt validator in
  processed res = survivors check steps data /\
  map item (failures res) = casualties check steps data /\
  Forall (fun e => code e = "VALIDATION_ERROR"%string \/
                   code e = "PROCESSING_ERROR"%string) (failures res) /\
  total (summary res) = Z.of_nat (length data) /\
  successful (summary res) + failed (summary res) = total (summary res).
Proof.
  cbv zeta. unfold data_process.
  destruct (data_loop_spec validator steps data [] []) as (H1 & H2 & H3).
  destruct (data_loop id_of has_createdAt has_updatedAt validator steps data
              [] []) as [ok bad].
  cbn in H1, H2, H3 |- *. subst ok.
  pose proof (survivors_casualties
                (validate id_of has_createdAt has_updatedAt validator)
                steps data) as Hlen.
  rewrite <- H2, length_map in Hlen.
  repeat split; auto; lia.
Qed.

(** X26. What [validate] decides.  An entity is valid exactly when its
    [id] is not empty, [createdAt] and [updatedAt] are set, and the custom
    validator either accepts it or rejects it without a message: the
    verdict is taken from the number of messages, not from [isValid] of
    the custom validator. *)
Theorem validate_verdict validator (x : T) (custom : ValidationResult) :
  validator x = inl custom ->
  exists v,
    validate id_of has_createdAt has_updatedAt validator x = inl v /\
    (isValid v = true <->
     id_of x <> ""%string /\ has_createdAt x = true /\
     has_updatedAt x = true /\
     (isValid custom = true \/ errors custom = [])).
Proof.
  intros Hc. unfold validate. rewrite Hc. eexists. split; [reflexivity|].
  cbn [isValid].
  destruct (String.eqb_spec (id_of x) "") as [Hid|Hid],
           (has_createdAt x), (has_updatedAt x), (isValid custom);
    cbn; try rewrite ?length_app; cbn;
    try (split; [discriminate|intros (H1 & H2 & H3 & H4);
                 congruence || (destruct H4; congruence) ||
                 (exfalso; auto)]);
    try (split; [intros _; repeat split; auto|reflexivity]);
    destruct (errors custom) as [|m ms]; cbn;
    (split; [try discriminate; intros _; repeat split; auto
            |intros (H1 & H2 & H3 & [H4|H4]);
             try reflexivity; try discriminate; congruence]).
Qed.

End ProcessingFacts.

Section ProcessingWitnesses.
Import Processing.

Lemma event_process_partition_witness :
  processed
    (summarize 2 [4%nat]
       [validation_error 0%nat
          {| isValid := false; errors := ["zero"%string] |}] 0 1)
  = survivors nonzero [next] [0%nat; 3%nat].
Proof.
  apply (proj1 (event_process_partition nat nonzero [next] [0%nat; 3%nat]
                  0 1 _ eq_refl)).
Defined.

Lemma validate_verdict_witness :
  exists v,
    validate (fun _ : nat => "id"%string) (fun _ => true) (fun _ => true)
      nonzero 3%nat = inl v /\
    isValid v = true.
Proof.
  destruct (validate_verdict nat (fun _ : nat => "id"%string)
              (fun _ => true) (fun _ => true) nonzero 3%nat _ eq_refl)
    as (v & H1 & H2).
  exists v. split; [exact H1|]. apply H2. cbn.
  repeat split; auto. discriminate.
Defined.

End ProcessingWitnesses.

(** ** The breaker under calls that overlap *)

Section OverlapBreaker.
Import CircuitBreaker Overlap.
Implicit Types (b : CircuitBreaker.t) (now : Z).

(** The one-step [execute] is [enter] followed by [settle] on the breaker
    that [enter] left: no other call has written to it in between. *)
Lemma execute_enter_settle (W R : Type) b now now' (op : Operation W R)
  (w : W) :
  execute b now now' op w =
  match enter b now op w with
  | inl (b1, w', out) => (settle b1 now' out, w', out)
  | inr e => (b, w, inr e)
  end.
Proof.
  unfold execute, enter. destruct (guard b now) as [b1|e]; [|reflexivity].
  destruct (op w) as [[r|e] w']; reflexivity.
Qed.

Lemma later_reachable b b' : reachable b -> later b b' -> reachable b'.
Proof.
  intros Hr. induction 1 as [|b1 now b2 _ IH Hg|b1 _ IH|b1 now _ IH].
  - exact Hr.
  - exact (reach_guard b1 now b2 IH Hg).
  - exact (reach_reset b1 IH).
  - exact (reach_fail b1 now IH).
Qed.

(** The calls never write to the two parameters of the breaker. *)
Lemma later_parameters b b' :
  later b b' ->
  failureThreshold b' = failureThreshold b /\
  recoveryTime b' = recoveryTime b.
Proof.
  induction 1 as [|b1 now b2 _ IH Hg|b1 _ IH|b1 now _ IH].
  - auto.
  - destruct (guard_fields b1 now b2 Hg) as (_ & Hrt & Hth).
    rewrite Hrt, Hth. exact IH.
  - exact IH.
  - unfold _fail.
    destruct (failureThreshold b1 <=? failures b1 + 1); exact IH.
Qed.

Lemma tripped_reachable : reachable tripped.
Proof.
  unfold tripped. cbn [fold_left].
  repeat apply reach_fail. apply reach_new.
Qed.

End OverlapBreaker.

Section OverlapBreakerClaims.
Import CircuitBreaker Overlap.

(** C6, as the code has it.  A call that passes the test at the head of [execute]
    with the breaker HALF_OPEN (the probe) calls the wrapped operation.
    When the operation settles, the breaker [b2] is what the calls that
    overlap with the probe have made of it.  If the operation succeeded,
    the breaker becomes CLOSED with no failures.  If it failed, the
    failure counter of [b2] is incremented; the breaker becomes OPEN with
    [nextAttempt] set to the time of the failure plus [recoveryTime] if
    [b2] is not CLOSED, which is the case when no call has written to
    the breaker since the probe began; if [b2] is CLOSED, because a call
    that overlaps has succeeded, and the counter stays below the
    threshold, the breaker stays CLOSED with [nextAttempt] as it was. *)
Theorem half_open_probe_settles (W R : Type) (b b1 b2 : t) (now now' : Z)
  (op : Operation W R) (w : W) :
  reachable b -> guard b now = inl b1 -> state b1 = HALF_OPEN ->
  later b1 b2 ->
  let b' := settle b2 now' (fst (op w)) in
  enter b now op w = inl (b1, snd (op w), fst (op w)) /\
  match fst (op w) with
  | inl _ => state b' = CLOSED /\ failures b' = 0
  | inr _ =>
      failures b' = failures b2 + 1 /\
      (state b2 <> CLOSED ->
       state b' = OPEN /\ nextAttempt b' = now' + recoveryTime b) /\
      (state b2 = CLOSED -> failures b2 + 1 < failureThreshold b ->
       state b' = CLOSED /\ nextAttempt b' = nextAttempt b2) /\
      (b2 = b1 ->
       state b' = OPEN /\ failures b' = failures b + 1 /\
       nextAttempt b' = now' + recoveryTime b)
  end.
Proof.
  intros Hr Hg Hh Hl b'.
  assert (Hr1 : reachable b1) by exact (reach_guard b now b1 Hr Hg).
  pose proof (reachable_ok b2 (later_reachable b1 b2 Hr1 Hl))
    as (_ & Hopen & _).
  destruct (later_parameters b1 b2 Hl) as (Hth & Hrt).
  destruct (guard_fields b now b1 Hg) as (Hf1 & Hrt1 & Hth1).
  split.
  - unfold enter. rewrite Hg. destruct (op w); reflexivity.
  - subst b'. destruct (fst (op w)) as [r|e]; cbn [settle].
    + split; reflexivity.
    + assert (Hopen' : state b2 <> CLOSED ->
                state (_fail b2 now') = OPEN /\
                nextAttempt (_fail b2 now') = now' + recoveryTime b).
      { intros Hs. specialize (Hopen Hs). unfold _fail.
        destruct (Z.leb_spec (failureThreshold b2) (failures b2 + 1));
          [|lia].
        cbn [state nextAttempt]. rewrite Hrt, Hrt1. auto. }
      split; [|split; [exact Hopen'|split]].
      * unfold _fail.
        destruct (failureThreshold b2 <=? failures b2 + 1); reflexivity.
      * intros Hs Hlt. unfold _fail.
        destruct (Z.leb_spec (failureThreshold b2) (failures b2 + 1));
          [lia|].
        cbn [state nextAttempt]. auto.
      * intros ->. destruct Hopen' as (Hs & Hn); [congruence|].
        split; [exact Hs|split; [|exact Hn]].
        unfold _fail.
        destruct (failureThreshold b1 <=? failures b1 + 1);
          cbn [failures]; lia.
Qed.

Lemma half_open_probe_settles_witness :
  let b1 := with_state tripped HALF_OPEN in
  state (settle (_reset b1) 5008
           (fst (Spec.counted_failure 0%nat))) = CLOSED /\
  nextAttempt (settle (_reset b1) 5008
                 (fst (Spec.counted_failure 0%nat))) = 5005.
Proof.
  pose proof (half_open_probe_settles nat unit tripped
                (with_state tripped HALF_OPEN)
                (_reset (with_state tripped HALF_OPEN)) 5006 5008
                Spec.counted_failure 0%nat
                tripped_reachable eq_refl eq_refl
                (later_reset _ _ (later_now _))) as H.
  cbv zeta in H. destruct H as (_ & H).
  cbn [fst Spec.counted_failure] in H.
  destruct H as (_ & _ & H & _).
  destruct H as (Hs & Hn); [reflexivity|vm_compute; reflexivity|].
  split; [exact Hs|exact Hn].
Defined.

(** C6 fails as stated.  The breaker of a system built at time 0 is OPEN
    until 5005.  A call at 5006 is let through as the probe and the
    breaker is HALF_OPEN; while its operation is awaited, a second call
    at 5007 is let through as well.  The second call succeeds; then the
    probe fails, at 5008.  The failure counter goes from 0 to 1, the
    breaker is CLOSED, and [nextAttempt] is still 5005. *)
Lemma failed_probe_leaves_closed :
  let b1 := with_state tripped HALF_OPEN in
  let b2 := settle b1 5007 (inl tt : unit + Error) in
  let b3 := settle b2 5008 (inr ExternalServiceError : unit + Error) in
  reachable tripped /\
  guard tripped 5006 = inl b1 /\ state b1 = HALF_OPEN /\
  guard b1 5007 = inl b1 /\
  failures b3 = 1 /\ state b3 = CLOSED /\ nextAttempt b3 = 5005 /\
  ~ (state b3 = OPEN /\ nextAttempt b3 = 5008 + recoveryTime b1).
Proof.
  cbv zeta. split; [exact tripped_reachable|].
  repeat (split; [reflexivity|]).
  intros (H & _). vm_compute in H. discriminate.
Qed.

End OverlapBreakerClaims.

(** ** Calls of [processTask] that overlap *)

Section OverlapFacts.
Import TaskStorage AsyncProcessingSystem Overlap.
Implicit Types (c : Config) (cs : list Call) (call : Call) (id : string)
  (ph : Phase) (s : t).

Lemma run_invariant (P : Config -> Prop) :
  (forall c ev c', P c -> step c ev = Some c' -> P c') ->
  forall evs c c', P c -> run c evs = Some c' -> P c'.
Proof.
  intros Hstep. induction evs as [|ev evs IH]; intros c c' HP Hrun.
  - injection Hrun as <-. exact HP.
  - cbn [run] in Hrun. destruct (step c ev) as [c1|] eqn:E; [|discriminate].
    exact (IH c1 c' (Hstep c ev c1 HP E) Hrun).
Qed.

Lemma run_app c evs1 evs2 :
  run c (evs1 ++ evs2) =
  match run c evs1 with Some c1 => run c1 evs2 | None => None end.
Proof.
  revert c. induction evs1 as [|ev evs1 IH]; intros c; [reflexivity|].
  cbn [app run]. destruct (step c ev); [apply IH|reflexivity].
Qed.

Lemma set_phase_ids cs id ph : map c_id (set_phase cs id ph) = map c_id cs.
Proof.
  unfold set_phase. rewrite map_map. apply map_ext.
  intros call. destruct (String.eqb (c_id call) id); reflexivity.
Qed.

Lemma set_phase_other cs id ph :
  ~ In id (map c_id cs) -> set_phase cs id ph = cs.
Proof.
  induction cs as [|call cs IH]; intros Hn; [reflexivity|].
  cbn [set_phase map] in *. fold (set_phase cs id ph).
  destruct (String.eqb_spec (c_id call) id) as [E|_].
  - exfalso. apply Hn. left. exact E.
  - rewrite IH; [reflexivity|]. intros Hin. apply Hn. right. exact Hin.
Qed.

Lemma find_call_none cs id :
  find_call cs id = None <-> ~ In id (map c_id cs).
Proof.
  unfold find_call. induction cs as [|call cs IH]; cbn [find map In].
  - tauto.
  - destruct (String.eqb_spec (c_id call) id) as [E|N].
    + split; [discriminate|]. intros H. exfalso. apply H. left. exact E.
    + rewrite IH. tauto.
Qed.

Lemma find_call_split cs id call :
  find_call cs id = Some call -> NoDup (map c_id cs) ->
  exists l1 l2,
    cs = l1 ++ call :: l2 /\ c_id call = id /\
    ~ In id (map c_id l1) /\ ~ In id (map c_id l2) /\
    forall ph, set_phase cs id ph = l1 ++ with_phase call ph :: l2.
Proof.
  unfold find_call.
  induction cs as [|x cs IH]; cbn [find map]; intros Hf Hnd; [discriminate|].
  inversion Hnd as [|? ? Hx Hnd']; subst.
  destruct (String.eqb_spec (c_id x) id) as [E|N].
  - injection Hf as <-. exists [], cs. cbn [app map In].
    repeat split; auto.
    + rewrite <- E. exact Hx.
    + intros ph. cbn [set_phase map]. fold (set_phase cs id ph).
      rewrite (proj2 (String.eqb_eq _ _) E).
      rewrite set_phase_other; [reflexivity|]. rewrite <- E. exact Hx.
  - destruct (IH Hf Hnd') as (l1 & l2 & -> & Hid & Hn1 & Hn2 & Hset).
    exists (x :: l1), l2. cbn [app map In]. repeat split; auto.
    + intros [E|Hin]; auto.
    + intros ph. cbn [set_phase map]. fold (set_phase (l1 ++ call :: l2) id ph).
      rewrite (proj2 (String.eqb_neq _ _) N). rewrite Hset. reflexivity.
Qed.

Lemma In_find_call cs call :
  NoDup (map c_id cs) -> In call cs -> find_call cs (c_id call) = Some call.
Proof.
  unfold find_call.
  induction cs as [|x cs IH]; cbn [find map In]; intros Hnd Hin; [tauto|].
  inversion Hnd as [|? ? Hx Hnd']; subst.
  destruct Hin as [->|Hin].
  - rewrite String.eqb_refl. reflexivity.
  - destruct (String.eqb_spec (c_id x) (c_id call)) as [E|N].
    + exfalso. apply Hx. rewrite E. apply in_map. exact Hin.
    + apply IH; assumption.
Qed.

(** How the observations read on a list of calls cut at one call. *)
Lemma waiting_app l1 l2 : waiting (l1 ++ l2) = waiting l1 ++ waiting l2.
Proof. unfold waiting. rewrite filter_app, map_app. reflexivity. Qed.

Lemma waiting_cons call l :
  waiting (call :: l) =
  (if is_waiting (c_phase call) then [request_of call] else []) ++ waiting l.
Proof.
  unfold waiting. cbn [filter].
  destruct (is_waiting (c_phase call)); reflexivity.
Qed.

Lemma count_app f l1 l2 : count f (l1 ++ l2) = (count f l1 + count f l2)%nat.
Proof. unfold count. rewrite filter_app, length_app. reflexivity. Qed.

Lemma count_cons f call l :
  count f (call :: l) =
  ((if f (c_phase call) then 1 else 0) + count f l)%nat.
Proof.
  unfold count. cbn [filter]. destruct (f (c_phase call)); reflexivity.
Qed.

Lemma request_of_with_phase call ph :
  request_of (with_phase call ph) = request_of call.
Proof. reflexivity. Qed.

End OverlapFacts.

Section OverlapInvariant.
Import TaskStorage AsyncProcessingSystem Overlap.
Implicit Types (c : Config) (cs : list Call) (call : Call) (id : string)
  (ph : Phase) (s : t).

Lemma store_concurrencyManager s tasks :
  concurrencyManager (store s tasks) = concurrencyManager s.
Proof. unfold store. destruct (saveTasks _ _). reflexivity. Qed.

Lemma store_emitted s tasks : emitted (store s tasks) = emitted s.
Proof. unfold store. destruct (saveTasks _ _). reflexivity. Qed.

Lemma store_circuitBreaker s tasks :
  circuitBreaker (store s tasks) = circuitBreaker s.
Proof. unfold store. destruct (saveTasks _ _). reflexivity. Qed.

Lemma store_metrics s tasks : metrics (store s tasks) = metrics s.
Proof. unfold store. destruct (saveTasks _ _). reflexivity. Qed.

Lemma store_console s tasks :
  recovery_failures (console (store s tasks)) = recovery_failures (console s).
Proof.
  unfold store, saveTasks, recovery_failures.
  destruct (writable (disk s)); cbn [console]; rewrite filter_app; cbn;
    rewrite app_nil_r; reflexivity.
Qed.

(** What [grant] and the first piece of [processTask] change. *)
Lemma grant_cases s now :
  (exists b1, CircuitBreaker.guard (circuitBreaker s) now = inl b1 /\
     grant s now = (with_circuitBreaker s b1, Running)) \/
  (exists e, CircuitBreaker.guard (circuitBreaker s) now = inr e /\
     grant s now = (s, Settled (inr e))).
Proof.
  unfold grant. destruct (CircuitBreaker.guard _ _) as [b1|e]; eauto.
Qed.

Lemma grant_frame s now :
  let s' := fst (grant s now) in
  concurrencyManager s' = concurrencyManager s /\
  metrics s' = metrics s /\ pendingTasks s' = pendingTasks s /\
  disk s' = disk s /\ emitted s' = emitted s /\ console s' = console s /\
  holds_slot (snd (grant s now)) = true.
Proof.
  destruct (grant_cases s now) as [(b1 & _ & ->)|(e & _ & ->)];
    cbn; repeat split.
Qed.

Lemma submit_manager s id data p isRecovered :
  (concurrencyManager (fst (processTask_submit s id data p isRecovered)),
   snd (processTask_submit s id data p isRecovered))
  = ConcurrencyManager.execute (concurrencyManager s)
      {| fn_taskId := id; fn_taskData := data |} p.
Proof.
  unfold processTask_submit. cbn [emit concurrencyManager].
  assert (E : concurrencyManager (if isRecovered then s
               else store s (pendingTasks s ++
                 [{| taskId := id; taskData := data; priority := p |}]))
              = concurrencyManager s).
  { destruct isRecovered; [reflexivity|apply store_concurrencyManager]. }
  rewrite E.
  destruct (ConcurrencyManager.execute _ _ _) as [m a]. reflexivity.
Qed.

(** The pieces of [begin], named. *)
Lemma begin_cases c id data p replay_of now c' :
  begin c id data p replay_of now = Some c' ->
  ~ In id (map c_id (calls c)) /\
  exists ph,
    calls c' = calls c ++
      [{| c_id := id; c_data := data; c_priority := p;
          c_replay_of := replay_of; c_phase := ph |}] /\
    let sub :=
      processTask_submit (sys c) id data p
        (match replay_of with Some _ => true | None => false end) in
    match snd sub with
    | ConcurrencyManager.Rejected e =>
        sys c' = fst sub /\ ph = Closing (inr e)
    | ConcurrencyManager.Enqueued => sys c' = fst sub /\ ph = Waiting
    | ConcurrencyManager.Started => (sys c', ph) = grant (fst sub) now
    end.
Proof.
  unfold begin. intros H.
  destruct (find_call (calls c) id) eqn:Hf; [discriminate|].
  split; [apply find_call_none; exact Hf|].
  destruct (processTask_submit _ _ _ _ _) as [s1 adm]. cbn [fst snd].
  destruct adm as [| |e].
  - destruct (grant s1 now) as [s2 ph]. injection H as <-.
    exists ph. cbn [calls sys]. auto.
  - injection H as <-. exists Waiting. cbn [calls sys]. auto.
  - injection H as <-. exists (Closing (inr e)). cbn [calls sys]. auto.
Qed.

Lemma begin_well_formed c id data p replay_of now c' :
  well_formed c -> begin c id data p replay_of now = Some c' ->
  well_formed c'.
Proof.
  intros (Hnd & Hq & Ha) H.
  destruct (begin_cases _ _ _ _ _ _ _ H) as (Hfresh & ph & Hcs & Hsub).
  cbv zeta in Hsub.
  pose proof (submit_manager (sys c) id data p
                (match replay_of with Some _ => true | None => false end))
    as Hm.
  unfold well_formed. rewrite Hcs, map_app, waiting_app, count_app.
  rewrite waiting_cons, count_cons.
  change (waiting []) with (@nil (ConcurrencyManager.QueuedRequest TaskFn)).
  change (count holds_slot []) with 0%nat.
  cbn [map c_id c_phase].
  split.
  { apply NoDup_snoc; assumption. }
  destruct (execute_cases TaskFn
              (concurrencyManager (sys c))
              {| fn_taskId := id; fn_taskData := data |} p)
    as [[Hlt E]|[[Hge [Hroom E]]|[Hge [Hfull E]]]]; rewrite E in Hm;
    injection Hm as Hm1 Hm2; rewrite Hm2 in Hsub.
  - pose proof (grant_frame
      (fst (processTask_submit (sys c) id data p
              (match replay_of with Some _ => true | None => false end)))
      now) as Hfr.
    rewrite <- Hsub in Hfr. cbn [fst snd] in Hfr.
    destruct Hfr as (Hcm & _ & _ & _ & _ & _ & Hslot).
    rewrite Hcm, Hm1, Hslot.
    assert (is_waiting ph = false) as ->
      by (destruct ph; try discriminate; reflexivity).
    cbn [app ConcurrencyManager._run_enter ConcurrencyManager.queue
         ConcurrencyManager.activeCount ConcurrencyManager.with_activeCount].
    rewrite app_nil_r. split; [exact Hq|]. rewrite Ha. lia.
  - destruct Hsub as (-> & ->). rewrite Hm1.
    cbn [is_waiting holds_slot app ConcurrencyManager.queue
         ConcurrencyManager.activeCount ConcurrencyManager.with_queue].
    split; [|rewrite Ha; lia].
    rewrite sort_Permutation. apply Permutation_app_tail. exact Hq.
  - destruct Hsub as (-> & ->). rewrite Hm1.
    cbn [is_waiting holds_slot app]. rewrite app_nil_r.
    split; [exact Hq|rewrite Ha; lia].
Qed.

End OverlapInvariant.

Section OverlapSteps.
Import TaskStorage AsyncProcessingSystem Overlap.
Implicit Types (c : Config) (cs : list Call) (call : Call) (id : string)
  (ph : Phase) (s : t).

(** A piece that moves one call from a phase to another of the same kind
    and leaves the manager alone. *)
Lemma update_well_formed s s' l1 call l2 ph :
  well_formed {| sys := s; calls := l1 ++ call :: l2 |} ->
  concurrencyManager s' = concurrencyManager s ->
  is_waiting (c_phase call) = false -> is_waiting ph = false ->
  holds_slot (c_phase call) = holds_slot ph ->
  well_formed {| sys := s'; calls := l1 ++ with_phase call ph :: l2 |}.
Proof.
  unfold well_formed. cbn [sys calls].
  intros (Hnd & Hq & Ha) Hcm Hw Hw' Hs. rewrite Hcm.
  rewrite !map_app, !waiting_app, !count_app in *.
  rewrite !waiting_cons, !count_cons in *.
  cbn [map c_id with_phase c_phase] in *.
  rewrite Hw in Hq. rewrite Hw'. rewrite <- Hs. auto.
Qed.

(** The head of the queue is the request of a call that waits. *)
Lemma head_waits c next rest :
  well_formed c ->
  ConcurrencyManager.queue (concurrencyManager (sys c)) = next :: rest ->
  exists m1 call m2,
    calls c = m1 ++ call :: m2 /\ request_of call = next /\
    c_phase call = Waiting /\
    ~ In (c_id call) (map c_id m1) /\ ~ In (c_id call) (map c_id m2) /\
    Permutation rest (waiting m1 ++ waiting m2).
Proof.
  intros (Hnd & Hq & _) E. rewrite E in Hq.
  assert (Hin : In next (waiting (calls c))).
  { eapply Permutation_in; [exact Hq|left; reflexivity]. }
  unfold waiting in Hin. apply in_map_iff in Hin.
  destruct Hin as (call & Hreq & Hin). apply filter_In in Hin.
  destruct Hin as (Hin & Hw).
  destruct (find_call_split _ _ _ (In_find_call _ _ Hnd Hin) Hnd)
    as (m1 & m2 & Hcs & _ & Hn1 & Hn2 & _).
  exists m1, call, m2. repeat split; auto.
  - destruct (c_phase call); try discriminate; reflexivity.
  - rewrite Hcs, waiting_app, waiting_cons, Hw, Hreq in Hq.
    apply Permutation_cons_app_inv with (a := next). exact Hq.
Qed.

Lemma set_phase_at m1 call m2 ph :
  ~ In (c_id call) (map c_id m1) -> ~ In (c_id call) (map c_id m2) ->
  set_phase (m1 ++ call :: m2) (c_id call) ph
  = m1 ++ with_phase call ph :: m2.
Proof.
  intros H1 H2. unfold set_phase. rewrite map_app. cbn [map].
  fold (set_phase m1 (c_id call) ph). fold (set_phase m2 (c_id call) ph).
  rewrite String.eqb_refl, !set_phase_other by assumption. reflexivity.
Qed.

Lemma release_next s :
  let m := concurrencyManager s in
  (ConcurrencyManager.queue m = [] /\
   release s =
     (with_concurrencyManager s
        (ConcurrencyManager.with_activeCount m
           (ConcurrencyManager.activeCount m - 1)), None)) \/
  (exists next rest,
     ConcurrencyManager.queue m = next :: rest /\
     release s =
       (with_concurrencyManager s
          {| ConcurrencyManager.maxConcurrent :=
               ConcurrencyManager.maxConcurrent m;
             ConcurrencyManager.queueLimit :=
               ConcurrencyManager.queueLimit m;
             ConcurrencyManager.activeCount :=
               ConcurrencyManager.activeCount m - 1 + 1;
             ConcurrencyManager.queue := rest |},
        Some (ConcurrencyManager.fn next))).
Proof.
  cbv zeta. unfold release, ConcurrencyManager._run_finally.
  cbn [ConcurrencyManager.queue ConcurrencyManager.with_activeCount].
  destruct (ConcurrencyManager.queue (concurrencyManager s))
    as [|next rest]; [left; auto|right].
  exists next, rest. split; reflexivity.
Qed.

Lemma release_well_formed c id now c' :
  well_formed c -> step c (Release id now) = Some c' -> well_formed c'.
Proof.
  intros Hwf H. pose proof Hwf as (Hnd & Hq & Ha).
  cbn [step] in H.
  destruct (find_call (calls c) id) as [call|] eqn:Hf; [|discriminate].
  destruct (c_phase call) eqn:Hph; try discriminate.
  destruct (find_call_split _ _ _ Hf Hnd)
    as (l1 & l2 & Hcs & Hid & Hn1 & Hn2 & Hset).
  rewrite Hset in H.
  destruct (release_next (sys c)) as [(Hempty & E)|(next & rest & Hqueue & E)];
    cbv zeta in E; rewrite E in H.
  - injection H as <-. unfold well_formed. cbn [sys calls].
    rewrite Hcs in *. clear Hset.
    rewrite !map_app, !waiting_app, !count_app in *.
    rewrite !waiting_cons, !count_cons in *.
    cbn [map c_id with_phase c_phase concurrencyManager
         with_concurrencyManager ConcurrencyManager.queue
         ConcurrencyManager.activeCount
         ConcurrencyManager.with_activeCount] in *.
    rewrite Hph in *. cbn [is_waiting holds_slot] in *.
    repeat split; auto. rewrite Ha. lia.
  - destruct (head_waits c next rest Hwf Hqueue)
      as (m1 & callN & m2 & Hcs' & Hreq & HphN & Hm1 & Hm2 & Hperm).
    assert (HidN : fn_taskId (ConcurrencyManager.fn next) = c_id callN)
      by (rewrite <- Hreq; reflexivity).
    rewrite HidN in H.
    match type of H with
    | context [grant ?s1 now] =>
        pose proof (grant_frame s1 now) as Hfr;
        destruct (grant s1 now) as [s2 phN]
    end.
    cbn [fst snd concurrencyManager with_concurrencyManager] in Hfr.
    destruct Hfr as (Hcm & _ & _ & _ & _ & _ & Hslot).
    injection H as <-.
    assert (Hne : c_id callN <> id).
    { intros Heq.
      assert (Hin : In callN (calls c))
        by (rewrite Hcs'; apply in_elt).
      pose proof (In_find_call _ _ Hnd Hin) as Hf'.
      rewrite Heq, Hf in Hf'. injection Hf' as <-. congruence. }
    (* the calls once the one that leaves has been moved on *)
    assert (Hnd1 : NoDup (map c_id (set_phase (calls c) id (Closing out))))
      by (rewrite set_phase_ids; exact Hnd).
    assert (Hin1 : In callN (set_phase (calls c) id (Closing out))).
    { rewrite Hset.
      assert (Hin : In callN (l1 ++ call :: l2))
        by (rewrite <- Hcs, Hcs'; apply in_elt).
      apply in_app_or in Hin. apply in_or_app.
      destruct Hin as [Hin|[Heq|Hin]];
        [left; exact Hin| |right; right; exact Hin].
      exfalso. apply Hne. rewrite <- Heq. exact Hid. }
    destruct (find_call_split _ _ _ (In_find_call _ _ Hnd1 Hin1) Hnd1)
      as (n1 & n2 & Hc1 & _ & Hk1 & Hk2 & _).
    rewrite Hset in Hc1.
    assert (Hw : waiting (n1 ++ callN :: n2) = waiting (calls c)).
    { rewrite <- Hc1, Hcs, !waiting_app, !waiting_cons.
      cbn [with_phase c_phase]. rewrite Hph. reflexivity. }
    assert (Hc : (count holds_slot (n1 ++ callN :: n2) + 1
                  = count holds_slot (calls c))%nat).
    { rewrite <- Hc1, Hcs, !count_app, !count_cons.
      cbn [with_phase c_phase]. rewrite Hph. cbn [holds_slot]. lia. }
    rewrite Hc1, set_phase_at by assumption.
    unfold well_formed. cbn [sys calls]. rewrite Hcm.
    cbn [ConcurrencyManager.queue ConcurrencyManager.activeCount].
    split; [|split].
    + rewrite Hset, Hc1 in Hnd1. rewrite map_app in *. exact Hnd1.
    + rewrite waiting_app, waiting_cons. cbn [with_phase c_phase].
      assert (is_waiting phN = false) as ->
        by (destruct phN; try discriminate; reflexivity).
      cbn [app]. rewrite Hqueue, <- Hw in Hq.
      rewrite waiting_app, waiting_cons, HphN, Hreq in Hq.
      cbn [is_waiting app] in Hq.
      apply Permutation_cons_app_inv with (a := next). exact Hq.
    + rewrite count_app, count_cons. cbn [with_phase c_phase].
      rewrite Hslot. rewrite count_app, count_cons, HphN in Hc.
      cbn [holds_slot] in Hc. rewrite Ha. lia.
Qed.

End OverlapSteps.

Section OverlapMoves.
Import TaskStorage AsyncProcessingSystem Overlap.
Implicit Types (c : Config) (cs : list Call) (call : Call) (id : string)
  (ph : Phase) (s : t).

Lemma step_well_formed c ev c' :
  well_formed c -> step c ev = Some c' -> well_formed c'.
Proof.
  intros Hwf H. pose proof Hwf as (Hnd & _).
  destruct ev as [id data p now|id task now|id r|id latency|id now|id|id].
  - exact (begin_well_formed _ _ _ _ _ _ _ Hwf H).
  - exact (begin_well_formed _ _ _ _ _ _ _ Hwf H).
  - cbn [step] in H.
    destruct (find_call (calls c) id) as [call|] eqn:Hf; [|discriminate].
    destruct (find_call_split _ _ _ Hf Hnd)
      as (l1 & l2 & Hcs & Hid & Hn1 & Hn2 & Hset).
    destruct (c_phase call) eqn:Hph; try discriminate.
    injection H as <-. rewrite Hset.
    destruct c as [s cs]. cbn [sys calls] in *. subst cs.
    apply update_well_formed with (s := s); auto; rewrite Hph; reflexivity.
  - cbn [step] in H.
    destruct (find_call (calls c) id) as [call|] eqn:Hf; [|discriminate].
    destruct (find_call_split _ _ _ Hf Hnd)
      as (l1 & l2 & Hcs & Hid & Hn1 & Hn2 & Hset).
    destruct (c_phase call) eqn:Hph; try discriminate.
    injection H as <-. rewrite Hset.
    destruct c as [s cs]. cbn [sys calls] in *. subst cs.
    apply update_well_formed with (s := s); auto; rewrite Hph; reflexivity.
  - exact (release_well_formed _ _ _ _ Hwf H).
  - cbn [step] in H.
    destruct (find_call (calls c) id) as [call|] eqn:Hf; [|discriminate].
    destruct (find_call_split _ _ _ Hf Hnd)
      as (l1 & l2 & Hcs & Hid & Hn1 & Hn2 & Hset).
    destruct (c_phase call) as [| | | |[res|e]| |] eqn:Hph; try discriminate;
      injection H as <-; rewrite Hset;
      destruct c as [s cs]; cbn [sys calls] in *; subst cs;
      apply update_well_formed with (s := s); auto;
      rewrite ?Hph; try reflexivity;
      try (destruct (c_replay_of call); reflexivity).
    cbn [processTask_then fst emit concurrencyManager].
    apply store_concurrencyManager.
  - cbn [step] in H.
    destruct (find_call (calls c) id) as [call|] eqn:Hf; [|discriminate].
    destruct (find_call_split _ _ _ Hf Hnd)
      as (l1 & l2 & Hcs & Hid & Hn1 & Hn2 & Hset).
    destruct (c_phase call) eqn:Hph; try discriminate.
    destruct (c_replay_of call) as [task|] eqn:Hro; try discriminate.
    injection H as <-. rewrite Hset.
    destruct c as [s cs]. cbn [sys calls] in *. subst cs.
    apply update_well_formed with (s := s); auto; rewrite Hph; reflexivity.
Qed.

(** Every piece is the first piece of a call, or one or two moves. *)
Lemma step_moves (P : Config -> Prop) :
  (forall c id data p replay_of now c',
     well_formed c -> P c ->
     begin c id data p replay_of now = Some c' -> P c') ->
  (forall s l1 x l2 ph s',
     ~ In (c_id x) (map c_id l1) -> ~ In (c_id x) (map c_id l2) ->
     P {| sys := s; calls := l1 ++ x :: l2 |} -> move s x ph s' ->
     P {| sys := s'; calls := l1 ++ with_phase x ph :: l2 |}) ->
  forall c ev c', well_formed c -> P c -> step c ev = Some c' -> P c'.
Proof.
  intros Hbegin Hmove c ev c' Hwf HP H. pose proof Hwf as (Hnd & _).
  destruct ev as [id data p now|id task now|id r|id latency|id now|id|id];
    [exact (Hbegin _ _ _ _ _ _ _ Hwf HP H)
    |exact (Hbegin _ _ _ _ _ _ _ Hwf HP H)| | | | | ];
    cbn [step] in H;
    (destruct (find_call (calls c) id) as [call|] eqn:Hf; [|discriminate]);
    destruct (find_call_split _ _ _ Hf Hnd)
      as (l1 & l2 & Hcs & Hid & Hn1 & Hn2 & Hset);
    rewrite <- Hid in Hn1, Hn2;
    destruct c as [s cs]; cbn [sys calls] in *; subst cs.
  - destruct (c_phase call) eqn:Hph; try discriminate.
    injection H as <-. rewrite Hset.
    apply (Hmove s); auto. apply move_answer. exact Hph.
  - destruct (c_phase call) eqn:Hph; try discriminate.
    injection H as <-. rewrite Hset.
    apply (Hmove s); auto. apply move_account. exact Hph.
  - destruct (c_phase call) eqn:Hph; try discriminate.
    rewrite Hset in H.
    pose proof (Hmove s l1 call l2 (Closing out) _ Hn1 Hn2 HP
                  (move_leave s call out Hph)) as HP1.
    destruct (release_next s) as [(Hempty & E)|(next & rest & Hqueue & E)];
      cbv zeta in E; rewrite E in H, HP1; cbn [fst] in HP1.
    + injection H as <-. exact HP1.
    + destruct (head_waits _ next rest Hwf Hqueue)
        as (m1 & callN & m2 & Hcs' & Hreq & HphN & Hm1 & Hm2 & _).
      cbn [calls] in Hcs'.
      assert (HidN : fn_taskId (ConcurrencyManager.fn next) = c_id callN)
        by (rewrite <- Hreq; reflexivity).
      rewrite HidN in H.
      assert (Hne : c_id callN <> c_id call).
      { intros Heq.
        assert (Hin : In callN (l1 ++ call :: l2))
          by (rewrite Hcs'; apply in_elt).
        pose proof (In_find_call _ _ Hnd Hin) as Hf'.
        rewrite Heq, Hid, Hf in Hf'. injection Hf' as <-. congruence. }
      assert (Hnd1 : NoDup (map c_id
                (l1 ++ with_phase call (Closing out) :: l2))).
      { rewrite map_app in *. exact Hnd. }
      assert (Hin1 : In callN (l1 ++ with_phase call (Closing out) :: l2)).
      { assert (Hin : In callN (l1 ++ call :: l2))
          by (rewrite Hcs'; apply in_elt).
        apply in_app_or in Hin. apply in_or_app.
        destruct Hin as [Hin|[Heq|Hin]];
          [left; exact Hin| |right; right; exact Hin].
        exfalso. apply Hne. rewrite <- Heq. reflexivity. }
      destruct (find_call_split _ _ _ (In_find_call _ _ Hnd1 Hin1) Hnd1)
        as (n1 & n2 & Hc1 & _ & Hk1 & Hk2 & _).
      rewrite Hc1 in H, HP1.
      match type of H with
      | context [grant ?s1 now] =>
          pose proof (Hmove s1 n1 callN n2 _ _ Hk1 Hk2 HP1
                        (move_grant s1 callN now HphN)) as HP2;
          destruct (grant s1 now) as [s2 phN]
      end.
      rewrite set_phase_at in H by assumption.
      injection H as <-. exact HP2.
  - destruct (c_phase call) as [| | | |[res|e]| |] eqn:Hph;
      try discriminate; injection H as <-; rewrite Hset; rewrite <- Hid;
      apply (Hmove s); auto.
    + apply move_complete. exact Hph.
    + apply move_fail. exact Hph.
  - destruct (c_phase call) eqn:Hph; try discriminate.
    destruct (c_replay_of call) as [task|] eqn:Hro; try discriminate.
    injection H as <-. rewrite Hset.
    apply (Hmove s); auto. apply move_handle; assumption.
Qed.

Lemma run_moves (P : Config -> Prop) :
  (forall c id data p replay_of now c',
     well_formed c -> P c ->
     begin c id data p replay_of now = Some c' -> P c') ->
  (forall s l1 x l2 ph s',
     ~ In (c_id x) (map c_id l1) -> ~ In (c_id x) (map c_id l2) ->
     P {| sys := s; calls := l1 ++ x :: l2 |} -> move s x ph s' ->
     P {| sys := s'; calls := l1 ++ with_phase x ph :: l2 |}) ->
  forall evs c c',
    well_formed c -> P c -> run c evs = Some c' -> well_formed c' /\ P c'.
Proof.
  intros Hbegin Hmove evs c c' Hwf HP Hrun.
  apply (run_invariant (fun c => well_formed c /\ P c)) with (evs := evs)
    (c := c); [|split; assumption|exact Hrun].
  intros c0 ev c1 (Hwf0 & HP0) Hstep. split.
  - exact (step_well_formed _ _ _ Hwf0 Hstep).
  - exact (step_moves P Hbegin Hmove _ _ _ Hwf0 HP0 Hstep).
Qed.

Lemma start_well_formed s : idle s -> well_formed (start s).
Proof.
  intros (Ha & Hq). unfold well_formed, start. cbn [sys calls map].
  rewrite Ha, Hq. repeat split; [constructor|constructor].
Qed.

End OverlapMoves.

Section OverlapObserved.
Import TaskStorage AsyncProcessingSystem Overlap.
Implicit Types (c : Config) (cs : list Call) (call x : Call) (id : string)
  (ph : Phase) (s : t).

Lemma find_call_cut l1 x l2 id :
  ~ In (c_id x) (map c_id l1) ->
  find_call (l1 ++ x :: l2) id =
  if String.eqb (c_id x) id then Some x else find_call (l1 ++ l2) id.
Proof.
  unfold find_call. induction l1 as [|y l1 IH]; intros Hn; cbn [app find].
  - reflexivity.
  - cbn [map In] in Hn.
    destruct (String.eqb_spec (c_id y) id) as [Ey|Ny].
    + destruct (String.eqb_spec (c_id x) id) as [Ex|Nx]; [|reflexivity].
      exfalso. apply Hn. left. congruence.
    + apply IH. intros Hin. apply Hn. right. exact Hin.
Qed.

Lemma find_call_snoc cs x id :
  find_call (cs ++ [x]) id =
  match find_call cs id with
  | Some call => Some call
  | None => if String.eqb (c_id x) id then Some x else None
  end.
Proof.
  unfold find_call. induction cs as [|y cs IH]; cbn [app find].
  - destruct (String.eqb (c_id x) id); reflexivity.
  - destruct (String.eqb (c_id y) id); [reflexivity|exact IH].
Qed.

Lemma completed_app l1 l2 id :
  completed (l1 ++ l2) id = completed l1 id || completed l2 id.
Proof. unfold completed. apply existsb_app. Qed.

Lemma completed_cons x l id :
  completed (x :: l) id =
  String.eqb (c_id x) id && is_completed (c_phase x) || completed l id.
Proof. reflexivity. Qed.

Lemma completed_fresh cs id :
  ~ In id (map c_id cs) -> completed cs id = false.
Proof.
  induction cs as [|x cs IH]; intros Hn; [reflexivity|].
  cbn [map In] in Hn. rewrite completed_cons.
  destruct (String.eqb_spec (c_id x) id) as [E|_]; [tauto|].
  cbn [andb orb]. apply IH. tauto.
Qed.

Lemma submitted_app l1 l2 :
  submitted (l1 ++ l2) = submitted l1 ++ submitted l2.
Proof. unfold submitted. rewrite filter_app, map_app. reflexivity. Qed.

Lemma submitted_with_phase l1 x l2 ph :
  submitted (l1 ++ with_phase x ph :: l2) = submitted (l1 ++ x :: l2).
Proof.
  rewrite !submitted_app. f_equal. unfold submitted. cbn [filter].
  change (is_first (with_phase x ph)) with (is_first x).
  destruct (is_first x); reflexivity.
Qed.

Lemma failed_replays_app l1 l2 :
  failed_replays (l1 ++ l2) = failed_replays l1 ++ failed_replays l2.
Proof. unfold failed_replays. apply flat_map_app. Qed.

Lemma about_app id l1 l2 : about id (l1 ++ l2) = about id l1 ++ about id l2.
Proof. unfold about. apply filter_app. Qed.

Lemma about_own id l :
  Forall (fun e => event_id e = id) l -> about id l = l.
Proof.
  induction 1 as [|e l He _ IH]; [reflexivity|].
  unfold about. cbn [filter]. rewrite He, String.eqb_refl.
  f_equal. exact IH.
Qed.

Lemma about_other id id' l :
  id <> id' -> Forall (fun e => event_id e = id) l -> about id' l = [].
Proof.
  intros Hne. induction 1 as [|e l He _ IH]; [reflexivity|].
  unfold about. cbn [filter]. rewrite He.
  rewrite (proj2 (String.eqb_neq _ _) Hne). exact IH.
Qed.

Lemma filter_filter (A : Type) (f g : A -> bool) (l : list A) :
  filter f (filter g l) = filter (fun a => g a && f a) l.
Proof.
  induction l as [|a l IH]; [reflexivity|]. cbn [filter].
  destruct (g a); cbn [filter andb]; [destruct (f a)|]; congruence.
Qed.

(** A move of one call, by what it does to the events, the store and
    the console. *)
Lemma update_observed s0 s s' l1 x l2 ph extra lines :
  ~ In (c_id x) (map c_id l1) ->
  observed s0 {| sys := s; calls := l1 ++ x :: l2 |} ->
  emitted s' = emitted s ++ extra ->
  Forall (fun e => event_id e = c_id x) extra ->
  events_of (with_phase x ph) = events_of x ++ extra ->
  is_completed (c_phase x) = false ->
  pendingTasks s' =
    (if is_completed ph
     then filter (fun t => negb (String.eqb (taskId t) (c_id x)))
            (pendingTasks s)
     else pendingTasks s) ->
  recovery_failures (console s') = recovery_failures (console s) ++ lines ->
  failed_of (with_phase x ph) = failed_of x ++ lines ->
  observed s0 {| sys := s'; calls := l1 ++ with_phase x ph :: l2 |}.
Proof.
  intros Hn1 (HE & HS & HL) Hem Hown Hev Hnc Hpt Hco Hfo.
  unfold observed, events_agree, store_agrees, console_agrees in *.
  cbn [sys calls] in *. split; [|split].
  - intros id. specialize (HE id).
    rewrite find_call_cut in * by assumption.
    change (c_id (with_phase x ph)) with (c_id x).
    rewrite Hem, about_app, HE.
    destruct (String.eqb_spec (c_id x) id) as [E|N].
    + subst id. rewrite Hev, (about_own (c_id x) extra Hown).
      rewrite <- app_assoc. reflexivity.
    + rewrite (about_other (c_id x) id extra) by assumption.
      rewrite app_nil_r. reflexivity.
  - rewrite submitted_with_phase. rewrite Hpt, HS.
    destruct (is_completed ph) eqn:Hc.
    + rewrite filter_filter. apply filter_ext. intros t.
      rewrite !completed_app, !completed_cons.
      cbn [with_phase c_id c_phase]. rewrite Hnc, Hc, String.eqb_sym.
      destruct (completed l1 (taskId t)), (completed l2 (taskId t)),
        (String.eqb (taskId t) (c_id x)); reflexivity.
    + apply filter_ext. intros t.
      rewrite !completed_app, !completed_cons.
      cbn [with_phase c_id c_phase]. rewrite Hnc, Hc. reflexivity.
  - rewrite Hco. rewrite !failed_replays_app in *.
    cbn [failed_replays flat_map] in *.
    fold (failed_replays l2) in *. rewrite Hfo.
    rewrite HL. rewrite <- !app_assoc.
    do 3 apply Permutation_app_head.
    apply Permutation_app_comm.
Qed.

End OverlapObserved.

Section OverlapObservedSteps.
Import TaskStorage AsyncProcessingSystem Overlap.
Implicit Types (c : Config) (cs : list Call) (call x : Call) (id : string)
  (ph : Phase) (s : t).

Lemma move_observed s0 s l1 x l2 ph s' :
  ~ In (c_id x) (map c_id l1) -> ~ In (c_id x) (map c_id l2) ->
  observed s0 {| sys := s; calls := l1 ++ x :: l2 |} -> move s x ph s' ->
  observed s0 {| sys := s'; calls := l1 ++ with_phase x ph :: l2 |}.
Proof.
  intros Hn1 _ Hobs Hmove.
  destruct Hmove as [r Hph|out latency Hph|out Hph|now Hph|res Hph|e Hph
                    |e task Hph Hro].
  - apply update_observed with (s := s) (extra := []) (lines := []);
      auto; unfold events_of, failed_of; cbn [with_phase c_phase c_id
        c_data c_priority c_replay_of]; rewrite ?Hph, ?app_nil_r;
      try reflexivity; try (destruct (c_replay_of x); reflexivity).
  - apply update_observed with (s := s) (extra := []) (lines := []);
      auto; unfold events_of, failed_of; cbn [with_phase c_phase c_id
        c_data c_priority c_replay_of]; rewrite ?Hph, ?app_nil_r;
      try reflexivity; try (destruct (c_replay_of x); reflexivity).
  - apply update_observed with (s := s) (extra := []) (lines := []);
      auto; unfold events_of, failed_of; cbn [with_phase c_phase c_id
        c_data c_priority c_replay_of]; rewrite ?Hph, ?app_nil_r;
      try reflexivity; try (destruct (c_replay_of x); reflexivity).
    all: unfold release; destruct (ConcurrencyManager._run_finally _);
      reflexivity.
  - destruct (grant_cases s now) as [(b1 & _ & E)|(e & _ & E)]; rewrite E;
      cbn [fst snd];
      apply update_observed with (s := s) (extra := []) (lines := []);
      auto; unfold events_of, failed_of; cbn [with_phase c_phase c_id
        c_data c_priority c_replay_of]; rewrite ?Hph, ?app_nil_r;
      try reflexivity; try (destruct (c_replay_of x); reflexivity).
  - apply update_observed with (s := s)
      (extra := [taskCompleted (c_id x) res]) (lines := []);
      auto; unfold events_of, failed_of; cbn [with_phase c_phase c_id
        c_data c_priority c_replay_of processTask_then fst emit emitted
        pendingTasks console is_completed];
      rewrite ?Hph, ?app_nil_r, ?store_emitted, ?store_pendingTasks,
        ?store_console; try reflexivity;
      try (destruct (c_replay_of x); reflexivity);
      try (apply Forall_cons; [reflexivity|apply Forall_nil]).
  - apply update_observed with (s := s)
      (extra := [taskFailed (c_id x) (message e)]) (lines := []);
      auto; unfold events_of, failed_of; cbn [with_phase c_phase c_id
        c_data c_priority c_replay_of processTask_catch fst emit emitted
        pendingTasks console is_completed];
      rewrite ?Hph, ?app_nil_r; try reflexivity;
      try (destruct (c_replay_of x); reflexivity);
      try (apply Forall_cons; [reflexivity|apply Forall_nil]).
  - apply update_observed with (s := s) (extra := [])
      (lines := [RecoveryFailed (taskId task) (message e)]);
      auto; unfold events_of, failed_of, recovery_failed, recovery_failures;
      cbn [with_phase c_phase c_id c_data c_priority c_replay_of log
        emitted pendingTasks console is_completed];
      rewrite ?Hph, ?Hro, ?app_nil_r, ?filter_app; try reflexivity.
Qed.

Lemma begin_observed s0 c id data p replay_of now c' :
  well_formed c -> observed s0 c ->
  begin c id data p replay_of now = Some c' -> observed s0 c'.
Proof.
  intros _ (HE & HS & HL) H.
  destruct (begin_cases _ _ _ _ _ _ _ H) as (Hfresh & ph & Hcs & Hsub).
  cbv zeta in Hsub.
  set (sub := processTask_submit (sys c) id data p
                (match replay_of with Some _ => true | None => false end))
    in *.
  (* what the first piece leaves, whatever the admission *)
  assert (Hsys : emitted (sys c') = emitted (fst sub) /\
                 pendingTasks (sys c') = pendingTasks (fst sub) /\
                 console (sys c') = console (fst sub) /\
                 (forall out, ph <> Done out) /\ (forall e, ph <> Thrown e)).
  { destruct (snd sub) as [| |e].
    - pose proof (grant_frame (fst sub) now) as Hfr. rewrite <- Hsub in Hfr.
      cbn [fst snd] in Hfr.
      destruct Hfr as (_ & _ & Hpt & _ & Hem & Hco & Hslot).
      repeat split; auto; intros o E; rewrite E in Hslot; discriminate.
    - destruct Hsub as (-> & ->). repeat split; discriminate.
    - destruct Hsub as (-> & ->). repeat split; discriminate. }
  destruct Hsys as (Hem & Hpt & Hco & Hnd & Hnt).
  assert (Hev : events_of {| c_id := id; c_data := data; c_priority := p;
                             c_replay_of := replay_of; c_phase := ph |}
                = [taskQueued id data p]).
  { unfold events_of. cbn [c_id c_data c_priority c_phase].
    destruct ph as [| |?|?|?|e|out]; try reflexivity;
      [exfalso; exact (Hnt e eq_refl)|exfalso; exact (Hnd out eq_refl)]. }
  assert (Hsubm : emitted (fst sub) = emitted (sys c) ++ [taskQueued id data p]
                  /\ pendingTasks (fst sub) =
                     pendingTasks (sys c) ++
                     match replay_of with
                     | Some _ => []
                     | None => [{| taskId := id; taskData := data;
                                   priority := p |}]
                     end
                  /\ recovery_failures (console (fst sub))
                     = recovery_failures (console (sys c))).
  { subst sub. destruct replay_of as [task|].
    - destruct (submit_recovered (sys c) id data p)
        as (E1 & _ & _ & _ & E2 & E3 & _).
      rewrite E1, E2, E3, app_nil_r. auto.
    - destruct (submit_fresh (sys c) id data p) as (E1 & _ & E3).
      rewrite E1, E3. split; [reflexivity|split; [reflexivity|]].
      unfold processTask_submit. cbn [emit concurrencyManager].
      destruct (ConcurrencyManager.execute _ _ _) as [m a].
      cbn [fst with_concurrencyManager console]. apply store_console. }
  destruct Hsubm as (Hem' & Hpt' & Hco').
  unfold observed, events_agree, store_agrees, console_agrees in *.
  rewrite Hcs, Hem, Hpt, Hco, Hem', Hpt', Hco'. split; [|split].
  - intros id'. rewrite about_app, HE, find_call_snoc.
    cbn [c_id]. rewrite <- app_assoc. f_equal.
    destruct (find_call (calls c) id') as [call|] eqn:Hf.
    + unfold about. cbn [filter event_id].
      destruct (String.eqb_spec id id') as [E|_]; [|apply app_nil_r].
      exfalso. subst id'. apply find_call_none in Hfresh. congruence.
    + unfold about. cbn [filter event_id].
      destruct (String.eqb id id'); [exact (eq_sym Hev)|reflexivity].
  - rewrite submitted_app. unfold submitted at 2.
    cbn [filter is_first c_replay_of].
    rewrite HS.
    assert (Hc : forall t,
               completed (calls c ++
                 [{| c_id := id; c_data := data; c_priority := p;
                     c_replay_of := replay_of; c_phase := ph |}]) (taskId t)
               = completed (calls c) (taskId t)).
    { intros t. rewrite completed_app, completed_cons. cbn [c_phase c_id].
      assert (is_completed ph = false) as ->.
      { destruct ph as [| |?|?|?|?|[res|e]]; try reflexivity.
        exfalso. exact (Hnd (inl res) eq_refl). }
      rewrite andb_false_r. cbn. rewrite !orb_false_r. reflexivity. }
    rewrite (filter_ext
               (fun t => negb (completed (calls c ++
                  [{| c_id := id; c_data := data; c_priority := p;
                      c_replay_of := replay_of; c_phase := ph |}])
                  (taskId t)))
               (fun t => negb (completed (calls c) (taskId t))))
      by (intros t; rewrite Hc; reflexivity).
    destruct replay_of as [task|]; cbn [is_first c_replay_of map app].
    + rewrite !app_nil_r. reflexivity.
    + rewrite app_assoc.
      rewrite (filter_app _ (pendingTasks s0 ++ submitted (calls c))).
      f_equal.
      cbn [filter record_of c_id c_data c_priority taskId].
      rewrite completed_fresh by exact Hfresh. reflexivity.
  - rewrite failed_replays_app. cbn [failed_replays flat_map].
    assert (failed_of {| c_id := id; c_data := data; c_priority := p;
                         c_replay_of := replay_of; c_phase := ph |} = [])
      as ->.
    { unfold failed_of. cbn [c_replay_of c_phase].
      destruct replay_of; [|reflexivity].
      destruct ph as [| |?|?|?|?|[res|e]]; try reflexivity.
      exfalso. exact (Hnd (inr e) eq_refl). }
    rewrite !app_nil_r. exact HL.
Qed.

(** Every run keeps the calls and the manager in agreement, and what is
    observed in agreement with the calls. *)
Lemma run_observed s evs c :
  idle s -> run (start s) evs = Some c -> well_formed c /\ observed s c.
Proof.
  intros Hidle Hrun.
  apply (run_moves (observed s) (begin_observed s) (move_observed s) evs
           (start s) c); [apply start_well_formed; exact Hidle| |exact Hrun].
  unfold observed, events_agree, store_agrees, console_agrees, start.
  cbn [sys calls find_call find failed_replays flat_map submitted filter map
       completed existsb].
  rewrite !app_nil_r. split; [|split].
  - intros id. rewrite app_nil_r. reflexivity.
  - symmetry. apply forallb_filter_id. apply forallb_forall. reflexivity.
  - reflexivity.
Qed.

End OverlapObservedSteps.

Section OverlapFrames.
Import TaskStorage AsyncProcessingSystem Overlap.
Implicit Types (c : Config) (cs : list Call) (call x : Call) (id : string)
  (ph : Phase) (s : t).

Lemma begin_sys c id data p replay_of now c' :
  begin c id data p replay_of now = Some c' ->
  let sub :=
    processTask_submit (sys c) id data p
      (match replay_of with Some _ => true | None => false end) in
  concurrencyManager (sys c') = concurrencyManager (fst sub) /\
  pendingTasks (sys c') = pendingTasks (fst sub) /\
  disk (sys c') = disk (fst sub) /\
  metrics (sys c') = metrics (fst sub).
Proof.
  intros H. destruct (begin_cases _ _ _ _ _ _ _ H) as (_ & ph & _ & Hsub).
  cbv zeta in *.
  destruct (snd (processTask_submit _ _ _ _ _)) as [| |e].
  - match type of Hsub with
    | _ = grant ?s1 now => pose proof (grant_frame s1 now) as Hfr
    end.
    rewrite <- Hsub in Hfr. cbn [fst snd] in Hfr.
    destruct Hfr as (Hcm & Hm & Hpt & Hd & _). auto.
  - destruct Hsub as (-> & _). auto.
  - destruct Hsub as (-> & _). auto.
Qed.

Lemma submit_store s id data p :
  let s' := fst (processTask_submit s id data p false) in
  let stored :=
    store s (pendingTasks s ++
             [{| taskId := id; taskData := data; priority := p |}]) in
  pendingTasks s' = pendingTasks stored /\ disk s' = disk stored.
Proof.
  cbv zeta. unfold processTask_submit. cbn [emit concurrencyManager].
  destruct (ConcurrencyManager.execute _ _ _) as [m a].
  split; reflexivity.
Qed.

Lemma run_same_bounds s evs c :
  idle s -> run (start s) evs = Some c -> same_bounds s c.
Proof.
  intros Hidle Hrun.
  refine (proj2 (run_moves (same_bounds s) _ _ evs (start s) c
                   (start_well_formed s Hidle) _ Hrun)).
  - intros c0 id data p ro now c1 _ (Hmax & Hlim) H.
    destruct (begin_sys _ _ _ _ _ _ _ H) as (Hcm & _).
    pose proof (submit_manager (sys c0) id data p
                  (match ro with Some _ => true | None => false end)) as Hm.
    unfold same_bounds. rewrite Hcm. rewrite <- Hmax, <- Hlim.
    destruct (execute_cases TaskFn (concurrencyManager (sys c0))
                {| fn_taskId := id; fn_taskData := data |} p)
      as [[_ E]|[[_ [_ E]]|[_ [_ E]]]]; rewrite E in Hm;
      injection Hm as -> _; split; reflexivity.
  - intros s1 l1 x l2 ph s2 _ _ (Hmax & Hlim) Hmove.
    unfold same_bounds in *. cbn [sys] in *. rewrite <- Hmax, <- Hlim.
    destruct Hmove as [r Hph|out latency Hph|out Hph|now Hph|res Hph|e Hph
                      |e task Hph Hro]; try (split; reflexivity).
    + destruct (release_next s1) as [(_ & E)|(next & rest & _ & E)];
        cbv zeta in E; rewrite E; split; reflexivity.
    + destruct (grant_frame s1 now) as (-> & _). split; reflexivity.
    + cbn [processTask_then fst emit concurrencyManager].
      rewrite store_concurrencyManager. split; reflexivity.
  - split; reflexivity.
Qed.

Lemma run_mirrored s evs c :
  idle s -> writable (disk s) = true -> Observed.durable s ->
  run (start s) evs = Some c -> mirrored c.
Proof.
  intros Hidle Hw Hd Hrun.
  refine (proj2 (run_moves mirrored _ _ evs (start s) c
                   (start_well_formed s Hidle) _ Hrun)).
  - intros c0 id data p ro now c1 _ (Hw0 & Hd0) H.
    destruct (begin_sys _ _ _ _ _ _ _ H) as (_ & Hpt & Hdisk & _).
    unfold mirrored, Observed.durable in *. rewrite Hpt, Hdisk.
    destruct ro as [task|].
    + destruct (submit_recovered (sys c0) id data p) as (-> & -> & _).
      auto.
    + destruct (submit_store (sys c0) id data p) as (-> & ->).
      destruct (store_durable (sys c0)
                  (pendingTasks (sys c0) ++
                   [{| taskId := id; taskData := data; priority := p |}])
                  Hw0) as (Hdur & Hwr).
      auto.
  - intros s1 l1 x l2 ph s2 _ _ (Hw0 & Hd0) Hmove.
    unfold mirrored, Observed.durable in *. cbn [sys] in *.
    destruct Hmove as [r Hph|out latency Hph|out Hph|now Hph|res Hph|e Hph
                      |e task Hph Hro]; try (split; assumption).
    + unfold release. destruct (ConcurrencyManager._run_finally _).
      split; assumption.
    + destruct (grant_frame s1 now) as (_ & _ & -> & -> & _).
      split; assumption.
    + cbn [processTask_then fst emit disk pendingTasks].
      destruct (store_durable s1
                  (filter (fun t => negb (String.eqb (taskId t) (c_id x)))
                     (pendingTasks s1)) Hw0) as (Hdur & Hwr).
      auto.
  - split; assumption.
Qed.

(** A call that is done is never moved again. *)
Lemma done_stays c evs c' x out :
  well_formed c -> In x (calls c) -> c_phase x = Done out ->
  run c evs = Some c' -> In x (calls c').
Proof.
  intros Hwf Hin Hph Hrun.
  refine (proj2 (run_moves (fun c => In x (calls c)) _ _ evs c c'
                   Hwf Hin Hrun)).
  - intros c0 id data p ro now c1 _ Hin0 H.
    destruct (begin_cases _ _ _ _ _ _ _ H) as (_ & ph & -> & _).
    apply in_or_app. left. exact Hin0.
  - intros s1 l1 y l2 ph s2 _ _ Hin0 Hmove. cbn [calls] in *.
    apply in_app_or in Hin0. apply in_or_app.
    destruct Hin0 as [Hin0|[Heq|Hin0]];
      [left; exact Hin0| |right; right; exact Hin0].
    subst y. exfalso.
    destruct Hmove; congruence.
Qed.

Lemma completed_own cs x :
  NoDup (map c_id cs) -> In x cs ->
  completed cs (c_id x) = is_completed (c_phase x).
Proof.
  intros Hnd Hin.
  destruct (find_call_split _ _ _ (In_find_call _ _ Hnd Hin) Hnd)
    as (l1 & l2 & -> & _ & Hn1 & Hn2 & _).
  rewrite completed_app, completed_cons, String.eqb_refl.
  rewrite !completed_fresh by assumption.
  cbn [andb orb]. apply orb_false_r.
Qed.

End OverlapFrames.

Section OverlapClaims.
Import TaskStorage AsyncProcessingSystem Overlap.
Implicit Types (c : Config) (cs : list Call) (call x : Call) (id : string)
  (ph : Phase) (s : t).

Lemma find_call_id cs id x : find_call cs id = Some x -> c_id x = id.
Proof.
  unfold find_call. intros H. apply find_some in H.
  apply String.eqb_eq. exact (proj2 H).
Qed.

Lemma count_none f cs :
  Forall (fun x => f (c_phase x) = false) cs -> count f cs = 0%nat.
Proof.
  induction 1 as [|x cs Hx _ IH]; [reflexivity|].
  rewrite count_cons, Hx, IH. reflexivity.
Qed.

Lemma waiting_none cs :
  Forall (fun x => is_waiting (c_phase x) = false) cs -> waiting cs = [].
Proof.
  induction 1 as [|x cs Hx _ IH]; [reflexivity|].
  rewrite waiting_cons, Hx, IH. reflexivity.
Qed.

Lemma filter_none (A : Type) (f : A -> bool) (l : list A) :
  Forall (fun a => f a = false) l -> filter f l = [].
Proof.
  induction 1 as [|a l Ha _ IH]; [reflexivity|].
  cbn [filter]. rewrite Ha. exact IH.
Qed.

Lemma filter_all (A : Type) (f : A -> bool) (l : list A) :
  Forall (fun a => f a = true) l -> filter f l = l.
Proof.
  induction 1 as [|a l Ha _ IH]; [reflexivity|].
  cbn [filter]. rewrite Ha, IH. reflexivity.
Qed.

(** No call is stuck: whatever the other calls do, the next piece of a
    call that runs, has settled or is closing can take place; a call that
    waits goes on when a slot is released, and a first piece can take
    place under every identifier that is not in use. *)
Lemma next_piece c x :
  NoDup (map c_id (calls c)) -> In x (calls c) ->
  match c_phase x with
  | Waiting | Done _ => True
  | Running => forall r, step c (Answer (c_id x) r) <> None
  | Settled _ => forall latency, step c (Account (c_id x) latency) <> None
  | Leaving _ => forall now, step c (Release (c_id x) now) <> None
  | Closing _ => step c (Close (c_id x)) <> None
  | Thrown _ => c_replay_of x <> None -> step c (Handle (c_id x)) <> None
  end.
Proof.
  intros Hnd Hin. pose proof (In_find_call _ _ Hnd Hin) as Hf.
  destruct (c_phase x) as [| |out|out|[res|e]|e|out] eqn:Hph; auto;
    intros; cbn [step]; rewrite Hf, Hph; try discriminate.
  - destruct (release (sys c)) as [s1 [f|]]; [|discriminate].
    destruct (grant s1 now); discriminate.
  - destruct (c_replay_of x); [discriminate|contradiction].
Qed.

Lemma first_piece c id data p now :
  ~ In id (map c_id (calls c)) -> step c (Begin id data p now) <> None.
Proof.
  intros Hfresh. cbn [step]. unfold begin.
  rewrite (proj2 (find_call_none _ _) Hfresh).
  destruct (processTask_submit _ _ _ _ _) as [s1 [| |e]];
    [destruct (grant s1 now)| |]; discriminate.
Qed.

(** X10. Whatever the order in which the pieces of the calls of
    [processTask] run (first submissions and replays, from a system with
    nothing in flight), the events about a task are those of its one
    call, in this order: [taskQueued], and then, once the rest of
    [processTask] has run, one closing event, [taskCompleted] with the
    result or [taskFailed] with the message of the error.  A call that
    waits in the queue, runs, or has settled without [processTask] having
    resumed has emitted [taskQueued] and nothing else. *)
Theorem one_closing_event s evs c id :
  idle s -> run (start s) evs = Some c ->
  about id (emitted (sys c)) =
  about id (emitted s) ++
  match find_call (calls c) id with
  | Some x =>
      taskQueued id (c_data x) (c_priority x) ::
      match c_phase x with
      | Done (inl res) => [taskCompleted id res]
      | Done (inr e) | Thrown e => [taskFailed id (message e)]
      | _ => []
      end
  | None => []
  end.
Proof.
  intros Hidle Hrun.
  destruct (run_observed s evs c Hidle Hrun) as (_ & HE & _).
  rewrite (HE id).
  destruct (find_call (calls c) id) as [x|] eqn:Hf; [|reflexivity].
  unfold events_of. rewrite (find_call_id _ _ _ Hf). reflexivity.
Qed.

(** X11. The record of a first submission is in the store as long as its
    call has not succeeded, whatever the other calls do in between; and
    once the call has failed, for whatever reason, the call is never
    moved again and its record stays in the store for good. *)
Theorem failure_keeps_record s evs c x :
  idle s -> run (start s) evs = Some c ->
  In x (calls c) -> c_replay_of x = None ->
  (is_completed (c_phase x) = false ->
   In (record_of x) (pendingTasks (sys c))) /\
  (forall e evs' c',
     c_phase x = Done (inr e) -> run c evs' = Some c' ->
     In x (calls c') /\ In (record_of x) (pendingTasks (sys c'))).
Proof.
  intros Hidle Hrun Hin Hfirst.
  assert (Hkeep : forall evs0 c0,
            run (start s) evs0 = Some c0 -> In x (calls c0) ->
            is_completed (c_phase x) = false ->
            In (record_of x) (pendingTasks (sys c0))).
  { intros evs0 c0 Hrun0 Hin0 Hnc.
    destruct (run_observed s evs0 c0 Hidle Hrun0)
      as ((Hnd & _) & _ & HS & _).
    unfold store_agrees in HS. rewrite HS. apply filter_In. split.
    - apply in_or_app. right. unfold submitted. apply in_map.
      apply filter_In. split; [exact Hin0|].
      unfold is_first. rewrite Hfirst. reflexivity.
    - change (taskId (record_of x)) with (c_id x).
      rewrite (completed_own _ _ Hnd Hin0), Hnc. reflexivity. }
  split; [exact (Hkeep evs c Hrun Hin)|].
  intros e evs' c' Hph Hrun'.
  destruct (run_observed s evs c Hidle Hrun) as (Hwf & _).
  pose proof (done_stays c evs' c' x (inr e) Hwf Hin Hph Hrun') as Hin'.
  split; [exact Hin'|].
  apply (Hkeep (evs ++ evs') c'); [|exact Hin'|rewrite Hph; reflexivity].
  rewrite run_app, Hrun. exact Hrun'.
Qed.

(** X12. Whatever the order of the pieces, the store holds the records
    found at the start followed by the records of the first submissions,
    in the order of the calls, without the records under the identifier
    of a call that has succeeded: a call removes the records under its
    own identifier when it succeeds, and nothing else is ever removed.
    With a file that can be written and that held the store at the
    start, the file holds the store.  Once every call has succeeded, and
    no record found at the start carries the identifier of a call, the
    store is as it was found. *)
Theorem success_removes_own_record s evs c :
  idle s -> run (start s) evs = Some c ->
  pendingTasks (sys c) =
    filter (fun t => negb (completed (calls c) (taskId t)))
      (pendingTasks s ++ submitted (calls c)) /\
  (writable (disk s) = true -> Observed.durable s ->
   writable (disk (sys c)) = true /\ Observed.durable (sys c)) /\
  (Forall (fun x => is_completed (c_phase x) = true) (calls c) ->
   Forall (fun t => ~ In (taskId t) (map c_id (calls c))) (pendingTasks s) ->
   pendingTasks (sys c) = pendingTasks s).
Proof.
  intros Hidle Hrun.
  destruct (run_observed s evs c Hidle Hrun) as ((Hnd & _) & _ & HS & _).
  unfold store_agrees in HS.
  split; [exact HS|split].
  - intros Hw Hd. exact (run_mirrored s evs c Hidle Hw Hd Hrun).
  - intros Hall Hfresh. rewrite HS, filter_app.
    rewrite filter_all, filter_none; [apply app_nil_r| |].
    + unfold submitted. apply Forall_forall. intros t Ht.
      apply in_map_iff in Ht. destruct Ht as (x & <- & Hx).
      apply filter_In in Hx. destruct Hx as (Hx & _).
      change (taskId (record_of x)) with (c_id x).
      rewrite (completed_own _ _ Hnd Hx).
      rewrite (proj1 (Forall_forall _ _) Hall x Hx). reflexivity.
    + apply Forall_forall. intros t Ht.
      rewrite completed_fresh; [reflexivity|].
      exact (proj1 (Forall_forall _ _) Hfresh t Ht).
Qed.

(** X13. The slots follow the calls, whatever the order of the pieces:
    the number of slots taken is the number of calls between their
    admission and the [finally] block of their [_run], and the queue
    holds the requests of the calls that wait, each once.  So every slot
    is given back: once every call has left the manager (with a result or
    an error, or because it was rejected), the manager is as it was
    found. *)
Theorem slot_given_back s evs c :
  idle s -> run (start s) evs = Some c ->
  ConcurrencyManager.activeCount (concurrencyManager (sys c))
  = Z.of_nat (count holds_slot (calls c)) /\
  Permutation (ConcurrencyManager.queue (concurrencyManager (sys c)))
    (waiting (calls c)) /\
  (Forall (fun x => has_left (c_phase x) = true) (calls c) ->
   concurrencyManager (sys c) = concurrencyManager s).
Proof.
  intros Hidle Hrun.
  destruct (run_observed s evs c Hidle Hrun) as ((_ & Hq & Ha) & _).
  split; [exact Ha|split; [exact Hq|]].
  intros Hleft.
  destruct (run_same_bounds s evs c Hidle Hrun) as (Hmax & Hlim).
  destruct Hidle as (Ha0 & Hq0).
  rewrite count_none in Ha.
  2:{ apply Forall_forall. intros x Hx.
      pose proof (proj1 (Forall_forall _ _) Hleft x Hx) as H.
      cbv beta in H.
      destruct (c_phase x); try discriminate; reflexivity. }
  rewrite waiting_none in Hq.
  2:{ apply Forall_forall. intros x Hx.
      pose proof (proj1 (Forall_forall _ _) Hleft x Hx) as H.
      cbv beta in H.
      destruct (c_phase x); try discriminate; reflexivity. }
  apply Permutation_sym, Permutation_nil in Hq.
  destruct (concurrencyManager (sys c)) as [max lim a q].
  destruct (concurrencyManager s) as [max0 lim0 a0 q0].
  cbn in *. congruence.
Qed.

End OverlapClaims.

Section OverlapWitnesses.
Import TaskStorage AsyncProcessingSystem Overlap.

Lemma one_closing_event_witness :
  exists c,
    run (start one_slot) overlapping = Some c /\
    about "B" (emitted (sys c)) =
    [taskQueued "B" "{}" 0; taskFailed "B" "External service error"].
Proof.
  eexists. split; [vm_compute; reflexivity|].
  match goal with
  | |- about _ (emitted (sys ?c)) = _ =>
      exact (eq_trans
               (one_closing_event one_slot overlapping c "B"
                  (conj eq_refl eq_refl) eq_refl) eq_refl)
  end.
Defined.

Lemma failure_keeps_record_witness :
  exists c,
    run (start one_slot) overlapping = Some c /\
    In {| taskId := "B"; taskData := "{}"; priority := 0 |}
      (pendingTasks (sys c)).
Proof.
  eexists. split; [vm_compute; reflexivity|].
  match goal with
  | |- In _ (pendingTasks (sys ?c)) =>
      refine (proj2 (proj2 (failure_keeps_record one_slot overlapping c
        {| c_id := "B"; c_data := "{}"; c_priority := 0;
           c_replay_of := None;
           c_phase := Done (inr ExternalServiceError) |}
        (conj eq_refl eq_refl) eq_refl _ eq_refl)
        ExternalServiceError [] c eq_refl eq_refl))
  end.
  right. left. reflexivity.
Defined.

Lemma success_removes_own_record_witness :
  exists c,
    run (start one_slot) overlapping = Some c /\
    pendingTasks (sys c) =
    [{| taskId := "B"; taskData := "{}"; priority := 0 |}].
Proof.
  eexists. split; [vm_compute; reflexivity|].
  match goal with
  | |- pendingTasks (sys ?c) = _ =>
      exact (eq_trans
               (proj1 (success_removes_own_record one_slot overlapping c
                         (conj eq_refl eq_refl) eq_refl)) eq_refl)
  end.
Defined.

Lemma slot_given_back_witness :
  exists c,
    run (start one_slot) overlapping = Some c /\
    concurrencyManager (sys c) = concurrencyManager one_slot.
Proof.
  eexists. split; [vm_compute; reflexivity|].
  match goal with
  | |- concurrencyManager (sys ?c) = _ =>
      apply (proj2 (proj2 (slot_given_back one_slot overlapping c
                             (conj eq_refl eq_refl) eq_refl)))
  end.
  repeat (apply Forall_cons; [reflexivity|]). apply Forall_nil.
Defined.

End OverlapWitnesses.

(** ** The recovery pass *)

Section RecoveryFacts.
Import TaskStorage AsyncProcessingSystem Overlap.
Implicit Types (c : Config) (cs : list Call) (x : Call) (id : string)
  (s : t) (gen : nat -> string) (tasks : list PendingTask).

Lemma with_circuitBreaker_same s :
  with_circuitBreaker s (circuitBreaker s) = s.
Proof. destruct s; reflexivity. Qed.

Lemma recoverTasks_announced s gen :
  recoverTasks s gen = replay_all (announced s) gen 0 (pendingTasks s).
Proof.
  unfold recoverTasks, announced.
  destruct (0 <? length (pendingTasks s))%nat; reflexivity.
Qed.

Lemma announced_frame s :
  concurrencyManager (announced s) = concurrencyManager s /\
  circuitBreaker (announced s) = circuitBreaker s /\
  pendingTasks (announced s) = pendingTasks s /\
  emitted (announced s) = emitted s /\
  recovery_failures (console (announced s)) = recovery_failures (console s).
Proof.
  unfold announced. destruct (0 <? length (pendingTasks s))%nat;
    cbn [log concurrencyManager circuitBreaker pendingTasks emitted console];
    repeat split.
  unfold recovery_failures. rewrite filter_app. cbn. apply app_nil_r.
Qed.

(** The loop over a store cut in two. *)
Lemma replay_all_app tasks1 : forall tasks2 s gen k,
  replay_all s gen k (tasks1 ++ tasks2) =
  (fst (replay_all (fst (replay_all s gen k tasks1)) gen
          (k + length tasks1) tasks2),
   snd (replay_all s gen k tasks1) ++
   snd (replay_all (fst (replay_all s gen k tasks1)) gen
          (k + length tasks1) tasks2)).
Proof.
  induction tasks1 as [|task tasks1 IH]; intros tasks2 s gen k;
    cbn [app replay_all length].
  - rewrite Nat.add_0_r. cbn [fst snd app].
    destruct (replay_all s gen k tasks2); reflexivity.
  - destruct (processTask_submit s (gen k) (taskData task) (priority task)
                true) as [s1 a].
    rewrite IH. rewrite <- Nat.add_succ_comm.
    destruct (replay_all s1 gen (S k) tasks1) as [s2 l]. cbn [fst snd].
    reflexivity.
Qed.

(** The manager after the loop, and its answers. *)
Lemma replay_all_manager tasks : forall s gen k,
  ConcurrencyManager.submit_all (concurrencyManager s)
    (Observed.replay_requests gen k tasks)
  = (concurrencyManager (fst (replay_all s gen k tasks)),
     map admission (snd (replay_all s gen k tasks))).
Proof.
  induction tasks as [|task tasks IH]; intros s gen k;
    cbn [replay_all Observed.replay_requests
         ConcurrencyManager.submit_all]; [reflexivity|].
  pose proof (submit_manager s (gen k) (taskData task) (priority task) true)
    as Hm.
  destruct (processTask_submit s (gen k) (taskData task) (priority task)
              true) as [s1 a].
  cbn [fst snd] in Hm. rewrite <- Hm. rewrite (IH s1 gen (S k)).
  destruct (replay_all s1 gen (S k) tasks) as [s2 l]. reflexivity.
Qed.

(** The loop of [recoverTasks], piece by piece. *)
Lemma replay_all_run tasks : forall s gen k now cs,
  CircuitBreaker.state (circuitBreaker s) <> CircuitBreaker.OPEN ->
  NoDup (map c_id cs ++ map gen (seq k (length tasks))) ->
  run {| sys := s; calls := cs |} (replay_pieces gen k now tasks) =
  Some {| sys := fst (replay_all s gen k tasks);
          calls := cs ++ map call_of (snd (replay_all s gen k tasks)) |}.
Proof.
  induction tasks as [|task tasks IH]; intros s gen k now cs Hst Hnd;
    cbn [replay_pieces run replay_all length seq map] in *.
  - rewrite app_nil_r. reflexivity.
  - cbn [step]. unfold begin. cbn [sys calls].
    assert (Hfresh : ~ In (gen k) (map c_id cs)).
    { intros Hin. apply NoDup_remove_2 in Hnd. apply Hnd.
      apply in_or_app. left. exact Hin. }
    rewrite (proj2 (find_call_none cs (gen k)) Hfresh).
    destruct (submit_recovered s (gen k) (taskData task) (priority task))
      as (_ & _ & _ & Hcb & _).
    destruct (processTask_submit s (gen k) (taskData task) (priority task)
                true) as [s1 a].
    cbn [fst] in Hcb.
    assert (Hnd1 : forall ph,
               NoDup (map c_id
                        (cs ++ [{| c_id := gen k; c_data := taskData task;
                                   c_priority := priority task;
                                   c_replay_of := Some task;
                                   c_phase := ph |}]) ++
                      map gen (seq (S k) (length tasks)))).
    { intros ph. rewrite map_app, <- app_assoc. exact Hnd. }
    assert (Hst1 : CircuitBreaker.state (circuitBreaker s1)
                   <> CircuitBreaker.OPEN) by (rewrite Hcb; exact Hst).
    destruct a as [| |e].
    + unfold grant.
      destruct (guard_cases (circuitBreaker s1) now)
        as [[Ho _]|[[Ho _]|[_ E]]]; try contradiction.
      rewrite E, with_circuitBreaker_same.
      rewrite (IH s1 gen (S k) now _ Hst1 (Hnd1 Running)).
      destruct (replay_all s1 gen (S k) tasks) as [s2 l].
      cbn [fst snd map]. rewrite <- app_assoc. reflexivity.
    + rewrite (IH s1 gen (S k) now _ Hst1 (Hnd1 Waiting)).
      destruct (replay_all s1 gen (S k) tasks) as [s2 l].
      cbn [fst snd map]. rewrite <- app_assoc. reflexivity.
    + rewrite (IH s1 gen (S k) now _ Hst1 (Hnd1 (Closing (inr e)))).
      destruct (replay_all s1 gen (S k) tasks) as [s2 l].
      cbn [fst snd map]. rewrite <- app_assoc. reflexivity.
Qed.

(** A call whose promise was rejected, and the two pieces that follow
    for a replay: the rest of [processTask], then the handler. *)
Lemma close_then_handle c x task e :
  NoDup (map c_id (calls c)) -> In x (calls c) ->
  c_replay_of x = Some task -> c_phase x = Closing (inr e) ->
  exists c2,
    run c [Close (c_id x); Handle (c_id x)] = Some c2 /\
    find_call (calls c2) (c_id x) = Some (with_phase x (Done (inr e))) /\
    emitted (sys c2) = emitted (sys c) ++ [taskFailed (c_id x) (message e)] /\
    console (sys c2) =
      console (sys c) ++ [RecoveryFailed (taskId task) (message e)] /\
    pendingTasks (sys c2) = pendingTasks (sys c) /\
    disk (sys c2) = disk (sys c) /\
    concurrencyManager (sys c2) = concurrencyManager (sys c) /\
    circuitBreaker (sys c2) = circuitBreaker (sys c) /\
    metrics (sys c2) = metrics (sys c).
Proof.
  intros Hnd Hin Hro Hph.
  pose proof (In_find_call _ _ Hnd Hin) as Hf.
  destruct (find_call_split _ _ _ Hf Hnd)
    as (l1 & l2 & Hcs & _ & Hn1 & Hn2 & Hset).
  cbn [run step]. rewrite Hf, Hph, Hro. cbn [calls sys].
  rewrite Hset.
  assert (Hf1 : forall ph,
             find_call (l1 ++ with_phase x ph :: l2) (c_id x)
             = Some (with_phase x ph)).
  { intros ph. rewrite find_call_cut by exact Hn1.
    cbn [with_phase c_id]. rewrite String.eqb_refl. reflexivity. }
  rewrite Hf1. cbn [with_phase c_phase c_replay_of]. rewrite Hro.
  eexists. split; [reflexivity|]. cbn [calls sys].
  change (c_id x) with (c_id (with_phase x (Thrown e))) at 1.
  rewrite set_phase_at by assumption.
  cbn [with_phase c_id c_data c_priority c_replay_of c_phase].
  split; [exact (Hf1 (Done (inr e)))|].
  repeat split.
Qed.

End RecoveryFacts.

Section RecoveryClaims.
Import TaskStorage AsyncProcessingSystem Overlap.
Implicit Types (c : Config) (cs : list Call) (x : Call) (id : string)
  (s : t) (gen : nat -> string) (tasks : list PendingTask).

Lemma replay_all_emitted tasks : forall s gen k,
  emitted (fst (replay_all s gen k tasks)) =
  emitted s ++
  map (fun r => taskQueued (replay_id r) (taskData (record r))
                  (priority (record r)))
    (snd (replay_all s gen k tasks)).
Proof.
  induction tasks as [|task tasks IH]; intros s gen k; cbn [replay_all].
  - cbn. rewrite app_nil_r. reflexivity.
  - destruct (submit_recovered s (gen k) (taskData task) (priority task))
      as (_ & _ & _ & _ & _ & Hem & _).
    destruct (processTask_submit s (gen k) (taskData task) (priority task)
                true) as [s1 a].
    cbn [fst] in Hem. specialize (IH s1 gen (S k)).
    destruct (replay_all s1 gen (S k) tasks) as [s2 l].
    cbn [fst snd map record replay_id] in *.
    rewrite IH, Hem, <- app_assoc. reflexivity.
Qed.

(** C9. With [N] records in the store when the constructor calls
    [recoverTasks], the loop makes [N] turns, one per record and in the
    order of the store.  Every turn calls [processTask] with the data
    and the priority of its record and [isRecovered = true], in the
    system as the turns before it left it, whatever the manager answered
    to them: a replay that is rejected is followed by the replays of all
    later records.  The pass hands the [N] requests to the manager, emits
    [N] times [taskQueued] and writes neither to the store nor to the
    file.  Seen as pieces, the pass is a run of [N] first pieces; in any
    run that continues it, the lines written by the handler of
    [recoverTasks] are those of the replays that have failed, and a
    replay whose promise was rejected goes on with two pieces that emit
    [taskFailed] and write the line for its record, and change nothing
    else: the failure stays inside the handler. *)
Theorem recovery_replays_every_record s gen (now : Z) :
  let N := length (pendingTasks s) in
  let s' := fst (recoverTasks s gen) in
  let replays := snd (recoverTasks s gen) in
  let base := {| sys := s'; calls := map call_of replays |} in
  map record replays = pendingTasks s /\
  map replay_id replays = map gen (seq 0 N) /\
  (forall before r after,
     pendingTasks s = before ++ r :: after ->
     nth_error replays (length before) =
     Some {| record := r; replay_id := gen (length before);
             admission :=
               snd (processTask_submit
                      (fst (replay_all (announced s) gen 0 before))
                      (gen (length before)) (taskData r) (priority r)
                      true) |}) /\
  ConcurrencyManager.submit_all (concurrencyManager s)
    (Observed.replay_requests gen 0 (pendingTasks s))
  = (concurrencyManager s', map admission replays) /\
  pendingTasks s' = pendingTasks s /\ disk s' = disk s /\
  console s' = console (announced s) /\
  emitted s' =
    emitted s ++
    map (fun r => taskQueued (replay_id r) (taskData (record r))
                    (priority (record r))) replays /\
  (idle s ->
   CircuitBreaker.state (circuitBreaker s) <> CircuitBreaker.OPEN ->
   NoDup (map gen (seq 0 N)) ->
   run (start (announced s)) (replay_pieces gen 0 now (pendingTasks s))
   = Some base /\
   forall evs c,
     run base evs = Some c ->
     Permutation (recovery_failures (console (sys c)))
       (recovery_failures (console s) ++ failed_replays (calls c)) /\
     forall x task e,
       In x (calls c) -> c_replay_of x = Some task ->
       c_phase x = Closing (inr e) ->
       exists c2,
         run c [Close (c_id x); Handle (c_id x)] = Some c2 /\
         find_call (calls c2) (c_id x) = Some (with_phase x (Done (inr e))) /\
         emitted (sys c2) =
           emitted (sys c) ++ [taskFailed (c_id x) (message e)] /\
         console (sys c2) =
           console (sys c) ++ [RecoveryFailed (taskId task) (message e)] /\
         pendingTasks (sys c2) = pendingTasks (sys c) /\
         disk (sys c2) = disk (sys c) /\
         concurrencyManager (sys c2) = concurrencyManager (sys c) /\
         circuitBreaker (sys c2) = circuitBreaker (sys c) /\
         metrics (sys c2) = metrics (sys c)).
Proof.
  intros N s' replays base. subst N s' replays base.
  rewrite recoverTasks_announced.
  destruct (announced_frame s) as (Hcm & Hcb & Hpt & Hem & Hco).
  pose proof (replay_all_spec (pendingTasks s) (announced s) gen 0%nat)
    as Hspec. cbv zeta in Hspec.
  destruct Hspec as (Hrec & Hids & Hpt' & Hdisk & _ & _ & Hcons & _).
  split; [exact Hrec|]. split; [exact Hids|]. split; [|split; [|split;
    [|split; [|split; [|split]]]]].
  - intros before r after Hcut. rewrite Hcut.
    rewrite replay_all_app. cbn [snd replay_all].
    pose proof (replay_all_spec before (announced s) gen 0%nat) as Hb.
    cbv zeta in Hb. destruct Hb as (Hrb & _).
    assert (Hlen : length (snd (replay_all (announced s) gen 0 before))
                   = length before).
    { rewrite <- Hrb at 2. rewrite length_map. reflexivity. }
    cbn [Nat.add].
    destruct (processTask_submit _ (gen (length before)) _ _ true)
      as [s1 a] eqn:Esub.
    destruct (replay_all s1 gen (S (length before)) after) as [s2 l].
    cbn [snd]. rewrite nth_error_app2 by (rewrite Hlen; apply le_n).
    rewrite Hlen, Nat.sub_diag. reflexivity.
  - rewrite <- Hcm. apply replay_all_manager.
  - rewrite Hpt', Hpt. reflexivity.
  - rewrite Hdisk. unfold announced.
    destruct (0 <? length (pendingTasks s))%nat; reflexivity.
  - exact Hcons.
  - rewrite replay_all_emitted, Hem. reflexivity.
  - intros Hidle Hst Hnd.
    assert (Hidle' : idle (announced s)).
    { unfold idle. rewrite Hcm. exact Hidle. }
    assert (Hrun : run (start (announced s))
                     (replay_pieces gen 0 now (pendingTasks s))
                   = Some {| sys := fst (replay_all (announced s) gen 0
                                          (pendingTasks s));
                             calls := map call_of
                                        (snd (replay_all (announced s) gen 0
                                                (pendingTasks s))) |}).
    { unfold start.
      rewrite (replay_all_run (pendingTasks s) (announced s) gen 0%nat now [])
        by (rewrite ?Hcb; assumption).
      reflexivity. }
    split; [exact Hrun|].
    intros evs c Hc.
    assert (Hall : run (start (announced s))
                     (replay_pieces gen 0 now (pendingTasks s) ++ evs)
                   = Some c) by (rewrite run_app, Hrun; exact Hc).
    destruct (run_observed _ _ _ Hidle' Hall)
      as ((Hnd' & _) & _ & _ & HL).
    unfold console_agrees in HL. rewrite Hco in HL.
    split; [exact HL|].
    intros x task e Hin Hro Hph.
    exact (close_then_handle c x task e Hnd' Hin Hro Hph).
Qed.

End RecoveryClaims.

Section RecoveryWitness.
Import TaskStorage AsyncProcessingSystem Overlap.

Lemma recovery_replays_every_record_witness :
  run (start (announced restarted))
    (replay_pieces numbered 0 0 (pendingTasks restarted))
  = Some {| sys := fst (recoverTasks restarted numbered);
            calls := map call_of (snd (recoverTasks restarted numbered)) |}.
Proof.
  refine (proj1 (proj2 (proj2 (proj2 (proj2 (proj2 (proj2 (proj2 (proj2
    (recovery_replays_every_record restarted numbered 0))))))))
    (conj eq_refl eq_refl) _ _)).
  - discriminate.
  - repeat constructor; cbn; intuition discriminate.
Defined.

(** At that restart the first replay is started, the second waits, and
    the third is rejected; its two pieces write the line for the record
    "old_3". *)
Lemma rejected_replay_is_logged :
  map admission (snd (recoverTasks restarted numbered))
  = [ConcurrencyManager.Started; ConcurrencyManager.Enqueued;
     ConcurrencyManager.Rejected QueueFull] /\
  exists c2,
    run {| sys := fst (recoverTasks restarted numbered);
           calls := map call_of (snd (recoverTasks restarted numbered)) |}
      [Close "new_2"; Handle "new_2"] = Some c2 /\
    console (sys c2)
    = [Recovering 3; RecoveryFailed "old_3" "Task queue limit reached"] /\
    emitted (sys c2)
    = [taskQueued "new_0" "1" 0; taskQueued "new_1" "2" 0;
       taskQueued "new_2" "3" 2;
       taskFailed "new_2" "Task queue limit reached"].
Proof.
  split; [reflexivity|].
  eexists. split; [vm_compute; reflexivity|]. split; reflexivity.
Qed.

End RecoveryWitness.

(** ** The one-step definitions as runs *)

Section OneStep.
Import TaskStorage AsyncProcessingSystem Overlap.
Implicit Types (c : Config) (cs : list Call) (x : Call) (id : string)
  (s : t).

Lemma set_phase_snoc cs x ph :
  ~ In (c_id x) (map c_id cs) ->
  set_phase (cs ++ [x]) (c_id x) ph = cs ++ [with_phase x ph].
Proof. intros Hn. apply (set_phase_at cs x []); [exact Hn|tauto]. Qed.

Lemma find_call_last cs x :
  ~ In (c_id x) (map c_id cs) -> find_call (cs ++ [x]) (c_id x) = Some x.
Proof.
  intros Hn. rewrite find_call_cut by exact Hn.
  rewrite String.eqb_refl. reflexivity.
Qed.

Lemma submit_fresh_frame s id data p :
  circuitBreaker (fst (processTask_submit s id data p false))
  = circuitBreaker s.
Proof.
  unfold processTask_submit. cbn [emit concurrencyManager].
  destruct (ConcurrencyManager.execute _ _ _) as [m a].
  cbn [fst with_concurrencyManager circuitBreaker].
  apply store_circuitBreaker.
Qed.

(** The one-step [processTask] of a first submission is the run of its
    pieces with no piece of another call in between. *)
Lemma processTask_alone c id data p r now' :
  ~ In id (map c_id (calls c)) ->
  ConcurrencyManager.queue (concurrencyManager (sys c)) = [] ->
  run c (alone (sys c) id data p r now') =
  Some {| sys := fst (fst (processTask (sys c) id data p false r));
          calls :=
            calls c ++
            [{| c_id := id; c_data := data; c_priority := p;
                c_replay_of := None;
                c_phase :=
                  match snd (fst (processTask (sys c) id data p false r)) with
                  | Some out => Done out
                  | None => Waiting
                  end |}] |}.
Proof.
  intros Hfresh Hq. destruct c as [s cs]. cbn [sys calls] in *.
  unfold alone, processTask. cbn [run step]. unfold begin. cbn [sys calls].
  rewrite (proj2 (find_call_none cs id) Hfresh).
  pose proof (submit_fresh_frame s id data p) as Hcb.
  pose proof (submit_manager s id data p false) as Hm.
  destruct (processTask_submit s id data p false) as [s1 a].
  cbn [fst snd] in *.
  assert (Hfind : forall ph,
             find_call
               (cs ++ [{| c_id := id; c_data := data; c_priority := p;
                          c_replay_of := None; c_phase := ph |}]) id
             = Some {| c_id := id; c_data := data; c_priority := p;
                       c_replay_of := None; c_phase := ph |}).
  { intros ph.
    exact (find_call_last cs
             {| c_id := id; c_data := data; c_priority := p;
                c_replay_of := None; c_phase := ph |} Hfresh). }
  assert (Hset : forall ph ph',
             set_phase
               (cs ++ [{| c_id := id; c_data := data; c_priority := p;
                          c_replay_of := None; c_phase := ph |}]) id ph'
             = cs ++ [{| c_id := id; c_data := data; c_priority := p;
                         c_replay_of := None; c_phase := ph' |}]).
  { intros ph ph'.
    exact (set_phase_snoc cs
             {| c_id := id; c_data := data; c_priority := p;
                c_replay_of := None; c_phase := ph |} ph' Hfresh). }
  destruct a as [| |e].
  - (* a slot was free *)
    assert (Hq1 : ConcurrencyManager.queue (concurrencyManager s1) = []).
    { destruct (execute_cases TaskFn (concurrencyManager s)
                  {| fn_taskId := id; fn_taskData := data |} p)
        as [[_ E]|[[_ [_ E]]|[_ [_ E]]]]; rewrite E in Hm;
        try discriminate.
      injection Hm as Hm1. rewrite Hm1. exact Hq. }
    unfold run_to_completion, executeTask, CircuitBreaker.execute, grant.
    rewrite <- Hcb.
    destruct (CircuitBreaker.guard (circuitBreaker s1) (guard_time r))
      as [b1|e] eqn:Hg; cbn [app run step sys calls];
      rewrite ?with_circuitBreaker_same.
    + rewrite Hfind. cbn [c_phase].
      rewrite Hset. cbn [sys calls]. rewrite Hfind. cbn [c_phase]. rewrite Hset.
      cbn [sys calls]. rewrite Hfind. cbn [c_phase]. rewrite Hset.
      unfold service, closure_of. cbn [c_id c_data fst snd].
      destruct (service_fails r); cbn [settle is_success];
        unfold release; cbn [concurrencyManager with_circuitBreaker
          updateMetrics with_metrics]; unfold ConcurrencyManager._run_finally;
        cbn [ConcurrencyManager.queue ConcurrencyManager.with_activeCount];
        rewrite Hq1; cbn [fst snd sys calls]; rewrite Hfind;
        cbn [c_phase c_replay_of]; rewrite Hset; reflexivity.
    + rewrite Hfind. cbn [c_phase].
      rewrite Hset. cbn [sys calls]. rewrite Hfind. cbn [c_phase]. rewrite Hset.
      unfold release; cbn [concurrencyManager with_circuitBreaker
        updateMetrics with_metrics is_success];
        unfold ConcurrencyManager._run_finally;
        cbn [ConcurrencyManager.queue ConcurrencyManager.with_activeCount];
        rewrite Hq1; cbn [fst snd sys calls]; rewrite Hfind;
        cbn [c_phase c_replay_of]; rewrite Hset; reflexivity.
  - reflexivity.
  - cbn [run step sys calls].
    rewrite Hfind. cbn [c_phase c_replay_of]. rewrite Hset. reflexivity.
Qed.

(** A probe overtaken in the system: in the run [probe_overlapped] the
    breaker is HALF_OPEN once the probe P has been let through, and
    CLOSED with one failure, [nextAttempt] unchanged, once P has failed,
    because Q has succeeded in between. *)
Lemma failed_probe_in_system :
  exists c1 c2,
    run (start two_slots)
      (failing "F1" ++ failing "F2" ++ failing "F3" ++ failing "F4" ++
       failing "F5" ++ [Begin "P" "{}" 0 5011]) = Some c1 /\
    circuitBreaker (sys c1)
    = {| CircuitBreaker.failureThreshold := 5;
         CircuitBreaker.recoveryTime := 5000;
         CircuitBreaker.failures := 5;
         CircuitBreaker.state := CircuitBreaker.HALF_OPEN;
         CircuitBreaker.nextAttempt := 5010 |} /\
    run (start two_slots) probe_overlapped = Some c2 /\
    circuitBreaker (sys c2)
    = {| CircuitBreaker.failureThreshold := 5;
         CircuitBreaker.recoveryTime := 5000;
         CircuitBreaker.failures := 1;
         CircuitBreaker.state := CircuitBreaker.CLOSED;
         CircuitBreaker.nextAttempt := 5010 |} /\
    option_map c_phase (find_call (calls c2) "P")
    = Some (Settled (inr ExternalServiceError)).
Proof.
  eexists. eexists.
  split; [vm_compute; reflexivity|]. split; [reflexivity|].
  split; [vm_compute; reflexivity|]. split; reflexivity.
Qed.

End OneStep.
